(** * Export resolution of the Enso compiler: a shallow embedding

    The development follows [org.enso.compiler.phase.exports.ExportsResolution]:
    [buildGraph], [findCycles], [topsort], [resolveExports],
    [resolveExportedSymbols], [run] and [runSort].

    Conventions of the embedding.
    - A compiler [Module] is an identity (a number); module references are
      always concrete, so [unsafeAsModule] is the identity.
    - [Node] is a case class over its target only, so two nodes are equal
      exactly when their targets are.  Edges therefore name their exporter
      and exportee by target, and the graph is an arena of nodes keyed by
      target (the [mutable.Map[ImportTarget, Node]] of [buildGraph]).
    - Scala's mutable hash maps iterate in an order the program does not
      control.  Every place where the source iterates over such a map takes
      the order from a [HashOrder], of which only the fact that it permutes
      the entries is known.
    - Exceptions are values: [Throw e].  Loops and the recursion of the
      cycle search run on fuel; [OutOfFuel] is shown never to be returned. *)

From stdpp Require Import base tactics option list gmap strings pretty.

Set Default Proof Using "Type".

(** ** Data model *)

Definition Module := nat.

(** [BindingsMap.ImportTarget]: a resolved module, type, constructor or
    module-level method; [target_module] is its [module] field. *)
Inductive ImportTarget :=
| ResolvedModule (m : Module)
| ResolvedType (m : Module) (tp : string)
| ResolvedConstructor (m : Module) (tp cons : string)
| ResolvedModuleMethod (m : Module) (method : string).

Definition target_module (t : ImportTarget) : Module :=
  match t with
  | ResolvedModule m => m
  | ResolvedType m _ => m
  | ResolvedConstructor m _ _ => m
  | ResolvedModuleMethod m _ => m
  end.

#[export] Instance ImportTarget_eq_dec : EqDecision ImportTarget.
Proof. solve_decision. Defined.

Definition ImportTarget_code (t : ImportTarget)
  : Module + (Module * string) + (Module * string * string) + (Module * string) :=
  match t with
  | ResolvedModule m => inl (inl (inl m))
  | ResolvedType m tp => inl (inl (inr (m, tp)))
  | ResolvedConstructor m tp c => inl (inr (m, tp, c))
  | ResolvedModuleMethod m f => inr (m, f)
  end.

Definition ImportTarget_decode
    (c : Module + (Module * string) + (Module * string * string) + (Module * string))
  : ImportTarget :=
  match c with
  | inl (inl (inl m)) => ResolvedModule m
  | inl (inl (inr (m, tp))) => ResolvedType m tp
  | inl (inr (m, tp, c)) => ResolvedConstructor m tp c
  | inr (m, f) => ResolvedModuleMethod m f
  end.

#[export] Instance ImportTarget_countable : Countable ImportTarget.
Proof.
  apply (inj_countable' ImportTarget_code ImportTarget_decode).
  by intros [].
Defined.

(** [BindingsMap.ExportedModule(target, exportedAs, symbols)]. *)
Record ExportedModule := mkExportedModule {
  target : ImportTarget;
  exportedAs : option string;
  symbols : list string
}.

#[export] Instance ExportedModule_eq_dec : EqDecision ExportedModule.
Proof. solve_decision. Defined.

(** [Edge(exporter, symbols, exportsAs, exportee)]; the two nodes are named
    by their targets. *)
Record Edge := mkEdge {
  exporter : ImportTarget;
  esymbols : list string;
  exportsAs : option string;
  exportee : ImportTarget
}.

#[export] Instance Edge_eq_dec : EqDecision Edge.
Proof. solve_decision. Defined.

(** [Node(target)] with its two mutable fields. *)
Record Node := mkNode {
  ntarget : ImportTarget;
  exports : list Edge;
  exportedBy : list Edge
}.

#[export] Instance Node_eq_dec : EqDecision Node.
Proof. solve_decision. Defined.

(** A defined entity of a module, as far as export resolution reads it:
    its name, whether it can be exported, and what it resolves to inside a
    given module. *)
Inductive EntityKind :=
| TypeEntity
| ConstructorEntity (tp : string)
| ModuleMethodEntity.

Record Entity := mkEntity {
  ename : string;
  canExport : bool;
  ekind : EntityKind
}.

Definition resolvedIn (e : Entity) (m : Module) : ImportTarget :=
  match ekind e with
  | TypeEntity => ResolvedType m (ename e)
  | ConstructorEntity tp => ResolvedConstructor m tp (ename e)
  | ModuleMethodEntity => ResolvedModuleMethod m (ename e)
  end.

(** The part of a module's [BindingsMap] that export resolution reads and
    writes. *)
Record BindingsMap := mkBindingsMap {
  getDirectlyExportedModules : list ExportedModule;
  definedEntities : list Entity;
  resolvedExports : list ExportedModule;
  exportedSymbols : list (string * list ImportTarget)
}.

(** The modules known to the compiler; a module without an entry is one
    whose [getBindingsMap()] is [null]. *)
Abbreviation Heap := (gmap Module BindingsMap).

Definition getBindings (h : Heap) (m : Module) : option BindingsMap := h !! m.

(** ** Exceptions and results *)

Inductive Exception :=
| ExportCycleException (modules : list Module)
| NoSuchElementException_NoneGet
| NoSuchElementException_KeyNotFound (key : ImportTarget)
| NullPointerException.

Inductive Result (A : Type) :=
| Ok (a : A)
| Throw (e : Exception)
| OutOfFuel.
Arguments Ok {A} a.
Arguments Throw {A} e.
Arguments OutOfFuel {A}.

(** The value of a computation that returned normally. *)
Definition returned {A} (r : Result A) : option A :=
  match r with
  | Ok a => Some a
  | _ => None
  end.

Definition bind {A B} (r : Result A) (k : A -> Result B) : Result B :=
  match r with
  | Ok a => k a
  | Throw e => Throw e
  | OutOfFuel => OutOfFuel
  end.

Notation "x <- r ;; k" := (bind r (fun x => k))
  (at level 100, r at next level, right associativity).

(** ** Iteration order of hash maps

    An [Iteration] is the order in which a hash map hands out its entries:
    some rearrangement of the entries as they were inserted. *)

Record Iteration (A : Type) := mkIteration {
  iterate : list A -> list A;
  iterate_perm : forall l, iterate l ≡ₚ l
}.
Arguments iterate {A} _ _.
Arguments iterate_perm {A} _ _.

(** One iteration order for each hash map the program walks over: the node
    map of [buildGraph], the [degrees] of [topsort], the result of
    [groupBy(_.target)] and the [exports] map in [resolveExports], and the
    string-keyed maps of [resolveExportedSymbols]. *)
Class HashOrder := {
  nodes_iter : Iteration Node;
  degrees_iter : Iteration (ImportTarget * Z);
  groups_iter : Iteration (ImportTarget * list ExportedModule);
  exports_iter : Iteration (ImportTarget * list ExportedModule);
  symbols_iter : Iteration (string * list ImportTarget)
}.

(** Iteration in insertion order, as a linked hash map does. *)
Definition in_order (A : Type) : Iteration A :=
  mkIteration A (fun l => l) (fun l => reflexivity l).

Definition insertion_order : HashOrder :=
  {| nodes_iter := in_order _;
     degrees_iter := in_order _;
     groups_iter := in_order _;
     exports_iter := in_order _;
     symbols_iter := in_order _ |}.

(** Iteration in the reverse of insertion order. *)
Definition reversed (A : Type) : Iteration A :=
  mkIteration A reverse reverse_Permutation.

(** The node map hands out its nodes in the reverse of insertion order; the
    other maps iterate in insertion order. *)
Definition reverse_nodes_order : HashOrder :=
  {| nodes_iter := reversed _;
     degrees_iter := in_order _;
     groups_iter := in_order _;
     exports_iter := in_order _;
     symbols_iter := in_order _ |}.

(** What export resolution asks of the rest of the compiler: the name of a
    module ([module.getName.item]) and the exported symbols of a target that
    is not a module ([target.exportedSymbols]). *)
Class CompilerContext := {
  getName : Module -> string;
  entityExportedSymbols : ImportTarget -> list (string * list ImportTarget)
}.

(** ** Association lists for the mutable maps

    Entries stay in insertion order; a key occurs once. *)

Section assoc.
Context {K V : Type} `{EqDecision K}.

Fixpoint alookup (k : K) (l : list (K * V)) : option V :=
  match l with
  | [] => None
  | (k', v) :: l' => if decide (k' = k) then Some v else alookup k l'
  end.

(** [m(k) = v] *)
Fixpoint aupdate (k : K) (v : V) (l : list (K * V)) : list (K * V) :=
  match l with
  | [] => [(k, v)]
  | (k', v') :: l' =>
      if decide (k' = k) then (k, v) :: l' else (k', v') :: aupdate k v l'
  end.

(** [m -= k] *)
Definition aremove (k : K) (l : list (K * V)) : list (K * V) :=
  filter (fun kv => kv.1 <> k) l.
End assoc.

(** ** The node arena

    [NodeMap] is the [mutable.Map[ImportTarget, Node]] of [buildGraph], its
    entries kept in insertion order, one node per target. *)

Abbreviation NodeMap := (list Node).

Definition newNode (t : ImportTarget) : Node := mkNode t [] [].

Fixpoint lookupNode (t : ImportTarget) (g : NodeMap) : option Node :=
  match g with
  | [] => None
  | n :: g' => if decide (ntarget n = t) then Some n else lookupNode t g'
  end.

(** A node reached through an object reference; every reference the
    program follows leads to a node of the arena. *)
Definition nodeOf (g : NodeMap) (t : ImportTarget) : Node :=
  default (newNode t) (lookupNode t g).

(** [nodes.getOrElseUpdate(t, Node(t))], for its effect on the map. *)
Definition getOrElseUpdate (t : ImportTarget) (g : NodeMap) : NodeMap :=
  match lookupNode t g with
  | Some _ => g
  | None => g ++ [newNode t]
  end.

(** [nodes(t).exports = es]. *)
Definition setExports (t : ImportTarget) (es : list Edge) (g : NodeMap) : NodeMap :=
  (fun n => if decide (ntarget n = t)
            then mkNode (ntarget n) es (exportedBy n) else n) <$> g.

(** [edge.exportee.exportedBy ::= edge]. *)
Definition addExportedBy (g : NodeMap) (e : Edge) : NodeMap :=
  (fun n => if decide (ntarget n = exportee e)
            then mkNode (ntarget n) (exports n) (e :: exportedBy n) else n) <$> g.

(** ** buildGraph *)

(** The export declarations read for a module: those of its bindings map,
    none when the bindings map is [null]. *)
Definition declaredExports (h : Heap) (m : Module) : list ExportedModule :=
  match getBindings h m with
  | Some bindings => getDirectlyExportedModules bindings
  | None => []
  end.

(** The modules on which [buildGraph] calls [context.updateModule]
    (bindings map set to [null], cache invalidated, not loaded from cache);
    the call leaves their bindings map [null]. *)
Definition invalidatedModules (h : Heap) (modules : list Module) : list Module :=
  filter (fun m => getBindings h m = None) modules.

Definition edgeOf (node : ImportTarget) (d : ExportedModule) : Edge :=
  mkEdge node (symbols d) (exportedAs d) (target d).

(** The body of [moduleTargets.foreach]. *)
Definition buildModule (h : Heap) (g : NodeMap) (m : Module) : NodeMap :=
  let module := ResolvedModule m in
  let decls := declaredExports h m in
  let g1 := foldl (fun g d => getOrElseUpdate (target d) g) g decls in
  let es := edgeOf module <$> decls in
  let g2 := setExports module es g1 in
  foldl addExportedBy g2 es.

Definition initialNodes (modules : list Module) : NodeMap :=
  foldl (fun g m => getOrElseUpdate (ResolvedModule m) g) [] modules.

Definition buildNodes (h : Heap) (modules : list Module) : NodeMap :=
  foldl (buildModule h) (initialNodes modules) modules.

Definition buildGraph `{HashOrder} (h : Heap) (modules : list Module) : list Node :=
  iterate nodes_iter (buildNodes h modules).

(** *** Reading the arena *)

Definition targets (g : NodeMap) : list ImportTarget := ntarget <$> g.

(** All export edges of the graph, node by node. *)
Definition allEdges (g : list Node) : list Edge := g ≫= exports.

(** The edges [buildGraph] creates for an input module. *)
Definition edgesOf (h : Heap) (m : Module) : list Edge :=
  edgeOf (ResolvedModule m) <$> declaredExports h m.

(** ** Scala list operations used by the resolver *)

(** [l.distinct]: the first occurrence of each element, in order. *)
Fixpoint distinctFrom {A} `{EqDecision A} (seen l : list A) : list A :=
  match l with
  | [] => []
  | x :: l' =>
      if decide (x ∈ seen) then distinctFrom seen l'
      else x :: distinctFrom (x :: seen) l'
  end.

Definition distinct {A} `{EqDecision A} (l : list A) : list A := distinctFrom [] l.

Fixpoint removeFirst {A} `{EqDecision A} (x : A) (l : list A) : list A :=
  match l with
  | [] => []
  | y :: l' => if decide (y = x) then l' else y :: removeFirst x l'
  end.

(** [xs.intersect(ys)]: multiset intersection, in the order of [xs]; an
    element of [ys] is used up by the occurrence of [xs] it admits. *)
Fixpoint intersect {A} `{EqDecision A} (xs ys : list A) : list A :=
  match xs with
  | [] => []
  | x :: xs' =>
      if decide (x ∈ ys) then x :: intersect xs' (removeFirst x ys)
      else intersect xs' ys
  end.

(** [l.groupBy(key)]: the groups keep the order of [l]; the keys are listed
    by first occurrence, before any hash order is applied. *)
Definition groupBy {A K} `{EqDecision K} (key : A -> K) (l : list A)
  : list (K * list A) :=
  (fun k => (k, filter (fun x => key x = k) l)) <$> distinct (key <$> l).

(** [items.collectFirst { case ExportedModule(_, Some(n), _) => n }] *)
Fixpoint collectFirstName (items : list ExportedModule) : option string :=
  match items with
  | [] => None
  | ex :: items' =>
      match exportedAs ex with
      | Some n => Some n
      | None => collectFirstName items'
      end
  end.

(** ** resolveExports *)

Abbreviation ExportsMap := (list (ImportTarget * list ExportedModule)).

Definition explicitlyExported (node : Node) : list ExportedModule :=
  (fun edge => mkExportedModule (exportee edge) (exportsAs edge) (esymbols edge))
    <$> exports node.

(** The records one explicit export [ex] passes on from what its target
    already exports. *)
Definition transitiveThrough (ex : ExportedModule) (parent : list ExportedModule)
  : list ExportedModule :=
  (fun p => mkExportedModule (target p) None (intersect (symbols ex) (symbols p)))
    <$> parent.

(** [explicitlyExported.flatMap { ... exports(module).map { ... } }];
    [exports(module)] throws when the target has no entry yet. *)
Fixpoint transitivelyExported (exps : ExportsMap) (explicit : list ExportedModule)
  : Result (list ExportedModule) :=
  match explicit with
  | [] => Ok []
  | ex :: rest =>
      match alookup (target ex) exps with
      | None => Throw (NoSuchElementException_KeyNotFound (target ex))
      | Some parent =>
          more <- transitivelyExported exps rest ;;
          Ok (transitiveThrough ex parent ++ more)
      end
  end.

Definition unifyGroup (grp : ImportTarget * list ExportedModule) : ExportedModule :=
  let name := collectFirstName grp.2 in
  let allSymbols := foldl (fun acc s => acc ++ s) [] (symbols <$> grp.2) in
  mkExportedModule grp.1 name (distinct allSymbols).

Definition unified `{HashOrder} (allExported : list ExportedModule)
  : list ExportedModule :=
  unifyGroup <$> iterate groups_iter (groupBy target allExported).

(** The body of [nodes.foreach] in [resolveExports]. *)
Definition resolveNode `{HashOrder} (exps : ExportsMap) (node : Node)
  : Result ExportsMap :=
  let explicit := explicitlyExported node in
  transitive <- transitivelyExported exps explicit ;;
  let allExported := explicit ++ transitive in
  Ok (aupdate (ntarget node) (unified allExported) exps).

Fixpoint resolveNodes `{HashOrder} (exps : ExportsMap) (nodes : list Node)
  : Result ExportsMap :=
  match nodes with
  | [] => Ok exps
  | node :: rest => exps' <- resolveNode exps node ;; resolveNodes exps' rest
  end.

Definition setResolvedExports (b : BindingsMap) (exs : list ExportedModule)
  : BindingsMap :=
  mkBindingsMap (getDirectlyExportedModules b) (definedEntities b) exs
    (exportedSymbols b).

(** [exports.foreach]: the resolved exports of module targets are stored on
    the module's bindings map; a [null] bindings map fails the store. *)
Fixpoint storeExports (entries : ExportsMap) (h : Heap) : Result Heap :=
  match entries with
  | [] => Ok h
  | (ResolvedModule m, exs) :: rest =>
      match getBindings h m with
      | None => Throw NullPointerException
      | Some bindings => storeExports rest (<[m := setResolvedExports bindings exs]> h)
      end
  | _ :: rest => storeExports rest h
  end.

Definition resolveExports `{HashOrder} (nodes : list Node) (h : Heap) : Result Heap :=
  exps <- resolveNodes [] nodes ;;
  storeExports (iterate exports_iter exps) h.

(** ** resolveExportedSymbols *)

Definition setExportedSymbols (b : BindingsMap)
    (syms : list (string * list ImportTarget)) : BindingsMap :=
  mkBindingsMap (getDirectlyExportedModules b) (definedEntities b)
    (resolvedExports b) syms.

(** [target.exportedSymbols]: for a module, the table on its bindings map. *)
Definition targetExportedSymbols `{CompilerContext} (h : Heap) (t : ImportTarget)
  : Result (list (string * list ImportTarget)) :=
  match t with
  | ResolvedModule m =>
      match getBindings h m with
      | None => Throw NullPointerException
      | Some bindings => Ok (exportedSymbols bindings)
      end
  | _ => Ok (entityExportedSymbols t)
  end.

Definition ownEntities (bindings : BindingsMap) (module : Module)
  : list (string * list ImportTarget) :=
  (fun e => (ename e, [resolvedIn e module]))
    <$> filter (fun e => canExport e = true) (definedEntities bindings).

Definition exportedModules `{CompilerContext} (bindings : BindingsMap) (module : Module)
  : list (string * list ImportTarget) :=
  resolvedExports bindings ≫= fun ex =>
    match exportedAs ex with
    | Some exportedAs =>
        let isThisModule := bool_decide (target_module (target ex) = module) in
        let exportsOnlyModule :=
          match symbols ex with
          | [s] => bool_decide (s = getName (target_module (target ex)))
          | _ => false
          end in
        if negb isThisModule && exportsOnlyModule
        then [(exportedAs, [target ex])] else []
    | None => []
    end.

Fixpoint reExportedSymbols `{CompilerContext} `{HashOrder} (h : Heap)
    (resolved : list ExportedModule) : Result (list (string * list ImportTarget)) :=
  match resolved with
  | [] => Ok []
  | ex :: rest =>
      syms <- targetExportedSymbols h (target ex) ;;
      let kept :=
        filter (fun sr => sr.1 ∈ symbols ex) (iterate symbols_iter syms) in
      more <- reExportedSymbols h rest ;;
      Ok (iterate symbols_iter kept ++ more)
  end.

(** The body of [modules.foreach] in [resolveExportedSymbols]. *)
Definition resolveModuleSymbols `{CompilerContext} `{HashOrder} (h : Heap)
    (module : Module) : Result Heap :=
  match getBindings h module with
  | None => Throw NullPointerException
  | Some bindings =>
      reExported <- reExportedSymbols h (resolvedExports bindings) ;;
      let all := ownEntities bindings module ++ exportedModules bindings module
                   ++ reExported in
      let table :=
        (fun grp => (grp.1, distinct (grp.2 ≫= snd))) <$> groupBy fst all in
      Ok (<[module := setExportedSymbols bindings table]> h)
  end.

Fixpoint resolveExportedSymbols `{CompilerContext} `{HashOrder}
    (modules : list Module) (h : Heap) : Result Heap :=
  match modules with
  | [] => Ok h
  | module :: rest =>
      h' <- resolveModuleSymbols h module ;; resolveExportedSymbols rest h'
  end.

(** ** findCycles *)

Record CycleSearch := mkCycleSearch {
  visited : gset ImportTarget;
  inProgress : gset ImportTarget;
  foundCycles : list (list ImportTarget)
}.

(** [children.flatMap(f)] for a stateful [f] that returns an option. *)
Fixpoint flatMapGo {A}
    (f : ImportTarget -> CycleSearch -> Result (option A * CycleSearch))
    (children : list ImportTarget) (st : CycleSearch)
  : Result (list A * CycleSearch) :=
  match children with
  | [] => Ok ([], st)
  | child :: rest =>
      r <- f child st ;;
      rs <- flatMapGo f rest r.2 ;;
      Ok (option_list r.1 ++ rs.1, rs.2)
  end.

Fixpoint go (fuel : nat) (g : list Node) (node : ImportTarget) (st : CycleSearch)
  : Result (option (ImportTarget * list ImportTarget) * CycleSearch) :=
  if decide (node ∈ inProgress st) then Ok (Some (node, []), st)
  else if decide (node ∈ visited st) then Ok (None, st)
  else
    match fuel with
    | 0 => OutOfFuel
    | S fuel' =>
        let st1 := mkCycleSearch (visited st) ({[node]} ∪ inProgress st)
                     (foundCycles st) in
        let children := exportee <$> exports (nodeOf g node) in
        r <- flatMapGo (go fuel' g) children st1 ;;
        let st2 := r.2 in
        let st3 := mkCycleSearch ({[node]} ∪ visited st2) (inProgress st2 ∖ {[node]})
                     (foundCycles st2) in
        match r.1 with
        | [] => Ok (None, st3)
        | (md, path) :: _ =>
            if decide (md = node)
            then Ok (None, mkCycleSearch (visited st3) (inProgress st3)
                             ((md :: path) :: foundCycles st3))
            else Ok (Some (md, node :: path), st3)
        end
    end.

(** [nodes.foreach(go)] *)
Fixpoint goAll (fuel : nat) (g : list Node) (nodes : list Node) (st : CycleSearch)
  : Result CycleSearch :=
  match nodes with
  | [] => Ok st
  | node :: rest => r <- go fuel g (ntarget node) st ;; goAll fuel g rest r.2
  end.

Definition findCycles (nodes : list Node) : Result (list (list ImportTarget)) :=
  st <- goAll (S (length nodes)) nodes nodes (mkCycleSearch ∅ ∅ []) ;;
  Ok (foundCycles st).

(** ** topsort *)

Abbreviation Degrees := (list (ImportTarget * Z)).

Definition initialDegrees (nodes : list Node) : Degrees :=
  foldl (fun degrees node =>
           aupdate (ntarget node) (Z.of_nat (length (exports node))) degrees)
        [] nodes.

(** [item.exportedBy.foreach]: decrement the degree of each exporter and
    enqueue it when the degree reaches zero; [degrees(k)] throws when [k] has
    been removed. *)
Fixpoint decrementExporters (edges : list Edge) (degrees : Degrees)
    (q : list ImportTarget) : Result (Degrees * list ImportTarget) :=
  match edges with
  | [] => Ok (degrees, q)
  | edge :: rest =>
      match alookup (exporter edge) degrees with
      | None => Throw (NoSuchElementException_KeyNotFound (exporter edge))
      | Some d =>
          let degrees' := aupdate (exporter edge) (d - 1)%Z degrees in
          let q' := if decide ((d - 1)%Z = 0%Z) then q ++ [exporter edge] else q in
          decrementExporters rest degrees' q'
      end
  end.

(** [while (q.nonEmpty)] *)
Fixpoint drainQueue (fuel : nat) (g : list Node) (degrees : Degrees)
    (q : list ImportTarget) (result : list Node) : Result (Degrees * list Node) :=
  match q with
  | [] => Ok (degrees, result)
  | item :: q' =>
      match fuel with
      | 0 => OutOfFuel
      | S fuel' =>
          let node := nodeOf g item in
          r <- decrementExporters (exportedBy node) (aremove item degrees) q' ;;
          drainQueue fuel' g r.1 r.2 (node :: result)
      end
  end.

(** [while (degrees.nonEmpty)] *)
Fixpoint topsortLoop `{HashOrder} (fuel : nat) (g : list Node) (degrees : Degrees)
    (result : list Node) : Result (list Node) :=
  match degrees with
  | [] => Ok (reverse result)
  | _ :: _ =>
      match fuel with
      | 0 => OutOfFuel
      | S fuel' =>
          match List.find (fun kv => bool_decide (kv.2 = 0%Z))
                  (iterate degrees_iter degrees) with
          | None => Throw NoSuchElementException_NoneGet
          | Some entry =>
              r <- drainQueue (length degrees) g degrees [entry.1] result ;;
              topsortLoop fuel' g r.1 r.2
          end
      end
  end.

Definition topsort `{HashOrder} (nodes : list Node) : Result (list Node) :=
  topsortLoop (length nodes) nodes (initialDegrees nodes) [].

(** ** run and runSort *)

(** [tops.map(_.target).collect { case m: ResolvedModule => ... }] *)
Definition moduleTargets (ts : list ImportTarget) : list Module :=
  ts ≫= fun t => match t with ResolvedModule m => [m] | _ => [] end.

(** [topModules.map(_.module.unsafeAsModule()).reverse.distinct.reverse] *)
Definition lastOccurrences (topModules : list ImportTarget) : list Module :=
  reverse (distinct (reverse (target_module <$> topModules))).

Definition run `{CompilerContext} `{HashOrder} (h : Heap) (modules : list Module)
  : Result (list Module * Heap) :=
  let graph := buildGraph h modules in
  cycles <- findCycles graph ;;
  match cycles with
  | cycle :: _ => Throw (ExportCycleException (target_module <$> cycle))
  | [] =>
      tops <- topsort graph ;;
      h1 <- resolveExports tops h ;;
      let topModules := ntarget <$> tops in
      h2 <- resolveExportedSymbols (moduleTargets topModules) h1 ;;
      Ok (lastOccurrences topModules, h2)
  end.

Definition runSort `{HashOrder} (h : Heap) (modules : list Module)
  : Result (list Module) :=
  let graph := buildGraph h modules in
  tops <- topsort graph ;;
  let topModules := ntarget <$> tops in
  Ok (lastOccurrences topModules).

(** ** Concrete inputs for examples *)

(** A bindings map that declares the exports [decls] and nothing else. *)
Definition declaring (decls : list ExportedModule) : BindingsMap :=
  mkBindingsMap decls [] [] [].

Definition heapOf (ms : list (Module * list ExportedModule)) : Heap :=
  list_to_map (prod_map id declaring <$> ms).

Definition exampleContext : CompilerContext :=
  {| getName := fun m => String.append "Module_" (pretty m);
     entityExportedSymbols := fun _ => [] |}.

(** [resolvedExports] of a module after a run, [[]] if it has no bindings. *)
Definition resolvedExportsOf (h : Heap) (m : Module) : list ExportedModule :=
  from_option resolvedExports [] (getBindings h m).

(** ** The resolver read as total functions *)

(** What [transitivelyExported] computes when every lookup succeeds, for a
    table [resolved] of already-resolved exports. *)
Definition transitiveOf (resolved : ImportTarget -> list ExportedModule)
    (explicit : list ExportedModule) : list ExportedModule :=
  explicit ≫= fun ex => transitiveThrough ex (resolved (target ex)).

(** The exports map read as a total table. *)
Definition resolvedIn_map (exps : ExportsMap) (t : ImportTarget) : list ExportedModule :=
  default [] (alookup t exps).

(** The resolved exports of a target as stored on the heap: those of the
    module for a module target; other targets have none (they declare no
    exports). *)
Definition resolvedOf (h : Heap) (t : ImportTarget) : list ExportedModule :=
  match t with
  | ResolvedModule m => resolvedExportsOf h m
  | _ => []
  end.

(** The records [resolveExports] computes for a node, given the resolved
    exports of the targets it exports. *)
Definition resolvedRecords `{HashOrder}
    (resolved : ImportTarget -> list ExportedModule) (node : Node)
  : list ExportedModule :=
  unified (explicitlyExported node
           ++ transitiveOf resolved (explicitlyExported node)).

(** * Predicates used in the statements *)

(** [a] has an export edge to [b] in the graph. *)
Definition edgeTo (g : list Node) (a b : ImportTarget) : Prop :=
  exists e, e ∈ exports (nodeOf g a) /\ exportee e = b.

(** The export graph has no cycle: no node reaches itself along one or more
    export edges. *)
Definition acyclic (g : list Node) : Prop := forall a, ~ tc (edgeTo g) a a.

(** A chain: each element is related to the next one. *)
Fixpoint chain {A} (R : A -> A -> Prop) (l : list A) : Prop :=
  match l with
  | a :: (b :: _) as l' => R a b /\ chain R l'
  | _ => True
  end.

(** A closed chain: non-empty, each element is related to the next one and
    the last one is related to the first. *)
Definition closedChain {A} (R : A -> A -> Prop) (c : list A) : Prop :=
  match c with
  | [] => False
  | a :: _ => chain R (c ++ [a])
  end.

(** A walk in the graph: each node has an edge to the next one. *)
Abbreviation walk g := (chain (edgeTo g)).

(** A genuine cycle of nodes. *)
Abbreviation isCycle g := (closedChain (edgeTo g)).

(** Module [a] declares an export of module [b]. *)
Definition declares (h : Heap) (a b : Module) : Prop :=
  exists d, d ∈ declaredExports h a /\ target d = ResolvedModule b.

(** A cycle in the export declarations of the modules [ms]: a non-empty
    chain of modules of [ms], each declaring an export of the next one and
    the last one declaring an export of the first. *)
Definition exportCycle (h : Heap) (ms : list Module) (c : list Module) : Prop :=
  (forall m, m ∈ c -> m ∈ ms) /\ closedChain (declares h) c.

(** [a] occurs in [l] strictly before some occurrence of [b]. *)
Definition occursBefore {A} (l : list A) (a b : A) : Prop :=
  exists l1 l2 l3, l = l1 ++ a :: l2 ++ b :: l3.

(** A node list in exportee-before-exporter order: whatever a node exports
    stands earlier in the list. *)
Definition topoSorted (tops : list Node) : Prop :=
  forall l1 n l2 e, tops = l1 ++ n :: l2 -> e ∈ exports n ->
    exportee e ∈ targets l1.

(** The shape of the graphs [buildGraph] builds from a duplicate-free list
    of modules: one node per target, edges that start at the node that owns
    them and end at a node of the graph, and back references that mirror
    the edges, one for one. *)
Record wf_graph (g : list Node) : Prop := mk_wf_graph {
  wf_NoDup : NoDup (targets g);
  wf_exporter : forall n e, n ∈ g -> e ∈ exports n -> exporter e = ntarget n;
  wf_exportee : forall n e, n ∈ g -> e ∈ exports n -> exportee e ∈ targets g;
  wf_back_exportee : forall n e, n ∈ g -> e ∈ exportedBy n -> exportee e = ntarget n;
  wf_back_exporter : forall n e, n ∈ g -> e ∈ exportedBy n -> exporter e ∈ targets g;
  wf_back : forall n x, n ∈ g -> x ∈ g ->
    filter (fun e => exporter e = ntarget n) (exportedBy x) ≡ₚ
    filter (fun e => exportee e = ntarget x) (exports n)
}.

(** ** Invariants of [topsort] *)

(** The queue holds distinct keys of [degrees] whose degree is not
    positive. *)
Definition queued (degrees : Degrees) (q : list ImportTarget) : Prop :=
  NoDup q /\
  forall x, x ∈ q -> exists d, alookup x degrees = Some d /\ (d <= 0)%Z.

(** What holds of the state of [topsort] on any graph: the keys are
    distinct, the nodes sorted so far are distinct nodes of the arena and
    are no longer keys. *)
Definition sortState (g : list Node) (degrees : Degrees) (q : list ImportTarget)
    (result : list Node) : Prop :=
  NoDup degrees.*1 /\ queued degrees q /\ NoDup (targets result) /\
  (forall t, t ∈ targets result -> t ∉ degrees.*1) /\
  (forall n, n ∈ result -> n = nodeOf g (ntarget n)).

(** The number of export edges of [n] whose exportee is not yet sorted. *)
Definition openEdges (g : list Node) (sorted : list ImportTarget)
    (n : ImportTarget) : nat :=
  length (filter (fun e => exportee e ∉ sorted) (exports (nodeOf g n))).

(** The sorted nodes, newest first: what a node exports was sorted before
    it. *)
Definition sortedBefore (result : list Node) : Prop :=
  forall l1 n l2 e, result = l1 ++ n :: l2 -> e ∈ exports n ->
    exportee e ∈ targets l2.

(** ** The resolved exports as an equation

    [resolvedFrom resolved decls] is what [resolveExports] stores for a
    module that declares the exports [decls], when [resolved] gives the
    resolved exports of the targets. *)
Definition resolvedFrom `{HashOrder}
    (resolved : ImportTarget -> list ExportedModule)
    (decls : list ExportedModule) : list ExportedModule :=
  unified (decls ++ transitiveOf resolved decls).

(** ** Merged edges *)

Definition edgeKey (e : Edge) : ImportTarget * ImportTarget * option string :=
  (exporter e, exportee e, exportsAs e).

(** No node holds two edges with the same exporter, exportee and rename. *)
Definition edgesMerged (g : list Node) : Prop :=
  Forall (fun N => NoDup (edgeKey <$> exports N)) g.

(** An export with an empty symbol list passes on each record of its
    target in full. *)
Definition emptyExportsAll (ex : ExportedModule) (parent : list ExportedModule)
  : Prop :=
  symbols ex = [] ->
  transitiveThrough ex parent
  = (fun p => mkExportedModule (target p) None (symbols p)) <$> parent.

(** On a well-formed graph each degree counts the open edges of its key,
    plus the back references to it still [pending] in the scan of the node
    being sorted. *)
Definition degreesOpen (g : list Node) (degrees : Degrees)
    (sorted : list ImportTarget) (pending : list Edge) : Prop :=
  forall n d, alookup n degrees = Some d ->
    d = Z.of_nat (openEdges g sorted n
                  + length (filter (fun e => exporter e = n) pending)).

(** What holds of the state of [topsort] on a well-formed graph. *)
Definition wfSortState (g : list Node) (degrees : Degrees)
    (q : list ImportTarget) (result : list Node) : Prop :=
  sortState g degrees q result /\
  degreesOpen g degrees (targets result) [] /\
  sortedBefore result /\
  (forall t, t ∈ targets g <-> t ∈ degrees.*1 \/ t ∈ targets result) /\
  (forall x, x ∈ q -> alookup x degrees = Some 0%Z).

(** A non-empty set of nodes each of which has an edge into the set. *)
Definition trapped (g : list Node) (S : list ImportTarget) : Prop :=
  S <> [] /\ forall n, n ∈ S -> exists n', n' ∈ S /\ edgeTo g n n'.

(** ** Invariants of [findCycles] *)

(** The nodes of the graph the search has not entered yet. *)
Definition unseen (g : list Node) (st : CycleSearch) : gset ImportTarget :=
  list_to_set (targets g) ∖ (visited st ∪ inProgress st).

(** A result [(m, path)] of [go] on [node]: [path] followed by [m] is a
    walk that starts at [node]. *)
Definition resultWalk (g : list Node) (node : ImportTarget)
    (res : option (ImportTarget * list ImportTarget)) : Prop :=
  match res with
  | Some (m, path) => head (path ++ [m]) = Some node /\ walk g (path ++ [m])
  | None => True
  end.

(** The visited nodes, listed in the order they were finished: what a
    visited node exports was finished before it. *)
Definition finishedInOrder (g : list Node) (V : gset ImportTarget) : Prop :=
  exists l : list ImportTarget,
    NoDup l /\ (forall t, t ∈ V <-> t ∈ l) /\
    forall a b, a ∈ l -> edgeTo g a b ->
      exists i j, l !! i = Some a /\ l !! j = Some b /\ j < i.

(** What one call of [go] on [node] does to the state of the search. *)
Record goPost (g : list Node) (st : CycleSearch) (node : ImportTarget)
    (res : option (ImportTarget * list ImportTarget)) (st' : CycleSearch)
  : Prop := mk_goPost {
  post_inProgress : inProgress st' = inProgress st;
  post_visited : visited st ⊆ visited st';
  post_found : exists new,
      foundCycles st' = new ++ foundCycles st /\ Forall (isCycle g) new;
  post_walk : resultWalk g node res;
  post_some : forall m path, res = Some (m, path) -> m ∈ inProgress st;
  post_clean :
    foundCycles st' = foundCycles st -> res = None ->
    finishedInOrder g (visited st) ->
    finishedInOrder g (visited st') /\ node ∈ visited st'
}.

(** ** Keeping the last occurrence

    [keepLast l] drops every element of [l] that occurs again later in [l]:
    each element stays once, at the position of its last occurrence. *)
Fixpoint keepLast {A} `{EqDecision A} (l : list A) : list A :=
  match l with
  | [] => []
  | x :: l' => if decide (x ∈ l') then keepLast l' else x :: keepLast l'
  end.

(** The modules of a node sequence. *)
Definition modulesOf (tops : list Node) : list Module :=
  target_module <$> (ntarget <$> tops).

(** In the module list [l] every declared export is respected: a module of
    [l] that is exported by another module of [l], as a module or through
    one of its entities, stands before the exporter. *)
Definition exportsRespected (h : Heap) (ms : list Module) (l : list Module) : Prop :=
  forall exp d, exp ∈ ms -> d ∈ declaredExports h exp ->
    target_module (target d) <> exp ->
    occursBefore l (target_module (target d)) exp.

(** Every export declaration of the modules [ms] targets a module, none a
    type, a constructor or a method. *)
Definition moduleTargetsOnly (h : Heap) (ms : list Module) : Prop :=
  forall m d, m ∈ ms -> d ∈ declaredExports h m ->
    exists m', target d = ResolvedModule m'.

(** Every module that is a node of the graph has a bindings map. *)
Definition bindingsPresent `{HashOrder} (h : Heap) (ms : list Module) : Prop :=
  forall m, ResolvedModule m ∈ targets (buildGraph h ms) -> is_Some (h !! m).

(** ** The orders [topsort] can return

    [degrees.find] takes the first entry of degree zero that the hash map
    hands out.  [possibleSorts] follows [topsortLoop] and takes every entry
    of degree zero in its place, one outcome for each choice. *)
Fixpoint possibleSorts (fuel : nat) (g : list Node) (degrees : Degrees)
    (result : list Node) : list (Result (list Node)) :=
  match degrees with
  | [] => [Ok (reverse result)]
  | _ :: _ =>
      match fuel with
      | 0 => [OutOfFuel]
      | S fuel' =>
          match filter (fun kv => kv.2 = 0%Z) degrees with
          | [] => [Throw NoSuchElementException_NoneGet]
          | zeros =>
              zeros ≫= fun entry =>
                match drainQueue (length degrees) g degrees [entry.1] result with
                | Ok r => possibleSorts fuel' g r.1 r.2
                | Throw e => [Throw e]
                | OutOfFuel => [OutOfFuel]
                end
          end
      end
  end.

(** Two outcomes of a loop of [topsort] that differ at most in the order of
    the entries of [degrees]. *)
Definition sameUpToOrder {X} (r r' : Result (Degrees * X)) : Prop :=
  match r, r' with
  | Ok (d, x), Ok (d', x') => d ≡ₚ d' /\ NoDup d.*1 /\ x = x'
  | Throw e, Throw e' => e = e'
  | OutOfFuel, OutOfFuel => True
  | _, _ => False
  end.

(** * Reading the exported symbols *)

(** [exportedSymbols] of a module, [[]] if it has no bindings map. *)
Definition exportedSymbolsOf (h : Heap) (m : Module)
  : list (string * list ImportTarget) :=
  from_option exportedSymbols [] (getBindings h m).

(** [definedEntities] of a module, [[]] if it has no bindings map. *)
Definition definedEntitiesOf (h : Heap) (m : Module) : list Entity :=
  from_option definedEntities [] (getBindings h m).

(** [target.exportedSymbols] where it does not fail: the table of the
    module for a module target, the table the compiler gives for an
    entity. *)
Definition targetSymbols `{CompilerContext} (h : Heap) (t : ImportTarget)
  : list (string * list ImportTarget) :=
  match t with
  | ResolvedModule m => exportedSymbolsOf h m
  | _ => entityExportedSymbols t
  end.

(** In the table, the name [s] has [r] among its resolutions. *)
Definition denotes (table : list (string * list ImportTarget)) (s : string)
    (r : ImportTarget) : Prop :=
  exists rs, (s, rs) ∈ table /\ r ∈ rs.

(** ** Simple paths in the cycle search

    What a call of [go] keeps about the paths it builds, between the state
    [st] it starts from and the state [st'] it leaves: the nodes in progress
    are the same, every cycle it has added names no node twice, and a path
    it hands back names no node twice and none that was in progress at the
    start. *)
Definition simplePaths (st : CycleSearch)
    (res : option (ImportTarget * list ImportTarget)) (st' : CycleSearch) : Prop :=
  inProgress st' = inProgress st /\
  (exists new, foundCycles st' = new ++ foundCycles st /\ Forall NoDup new) /\
  forall m path, res = Some (m, path) ->
    NoDup path /\ forall x, x ∈ path -> x ∉ inProgress st.

(** * Concrete module sets *)

Module Examples.

Definition A : Module := 0.
Definition B : Module := 1.
Definition C : Module := 2.
Definition T : ImportTarget := ResolvedType A "T".

(** [A] exports its type [T] showing [X] and [Y]; [B] exports [X] from
    [A]. *)
Definition restricted : Heap :=
  heapOf [(A, [mkExportedModule T None ["X"; "Y"]]);
          (B, [mkExportedModule (ResolvedModule A) None ["X"]])].

(** [A] exports its type [T] under the alias [T2]; [B] exports [A]. *)
Definition aliased : Heap :=
  heapOf [(A, [mkExportedModule T (Some "T2") ["X"]]);
          (B, [mkExportedModule (ResolvedModule A) None ["X"]])].

(** [B] exports from [A] with an empty symbol list. *)
Definition unrestricted : Heap :=
  heapOf [(A, [mkExportedModule T None ["X"]]);
          (B, [mkExportedModule (ResolvedModule A) None []])].

(** [B] declares the same export of [A] twice, with different symbols. *)
Definition duplicated : Heap :=
  heapOf [(A, []);
          (B, [mkExportedModule (ResolvedModule A) None ["X"];
               mkExportedModule (ResolvedModule A) None ["Y"]])].

(** [B] exports the module [A]; [C] exports the type [T] of [A]. *)
Definition typeExport : Heap :=
  heapOf [(A, []);
          (B, [mkExportedModule (ResolvedModule A) None ["A"]]);
          (C, [mkExportedModule T None ["T"]])].

(** [A] exports [B], [B] exports [C], [C] exports [A]. *)
Definition threeCycle : Heap :=
  heapOf [(A, [mkExportedModule (ResolvedModule B) None ["B"]]);
          (B, [mkExportedModule (ResolvedModule C) None ["C"]]);
          (C, [mkExportedModule (ResolvedModule A) None ["A"]])].

(** The private module. *)
Definition P : Module := 3.


(** [A] exports the private module [P] under the alias [P2]. *)
Definition exportsPrivate : Heap :=
  heapOf [(P, []);
          (A, [mkExportedModule (ResolvedModule P) (Some "P2") ["P"]])].

(** The heap a run leaves behind, [∅] if the run throws. *)
Definition heapAfter `{CompilerContext} `{HashOrder} (h : Heap)
    (ms : list Module) : Heap :=
  match run h ms with Ok r => r.2 | _ => ∅ end.

(** The module list a run returns, [[]] if the run throws. *)
Definition orderAfter `{CompilerContext} `{HashOrder} (h : Heap)
    (ms : list Module) : list Module :=
  match run h ms with Ok r => r.1 | _ => [] end.

End Examples.

(** * More module sets *)

Module MoreExamples.
Import Examples.

(** [B] exports the module [A], [C] exports the module [B]. *)
Definition threeChain : Heap :=
  heapOf [(A, []);
          (B, [mkExportedModule (ResolvedModule A) None ["A"]]);
          (C, [mkExportedModule (ResolvedModule B) None ["B"]])].

(** A small library.  [A] defines the type [T] and a method that cannot be
    exported, and exports the constructors [X] and [Y] of [T]; [B] defines
    the method [f] and exports [T] and [X] from [A]; [C] exports [T], [f]
    and [zz] from [B]; [P] exports the module [A] under the alias [AA]. *)
Definition library : Heap :=
  {[ A := mkBindingsMap [mkExportedModule T None ["X"; "Y"]]
            [mkEntity "T" true TypeEntity;
             mkEntity "hidden" false ModuleMethodEntity] [] [];
     B := mkBindingsMap [mkExportedModule (ResolvedModule A) None ["T"; "X"]]
            [mkEntity "f" true ModuleMethodEntity] [] [];
     C := mkBindingsMap
            [mkExportedModule (ResolvedModule B) None ["T"; "f"; "zz"]] [] [] [];
     P := mkBindingsMap
            [mkExportedModule (ResolvedModule A) (Some "AA") ["Module_0"]] [] [] [] ]}.

(** The context of [library]: the type [T] exposes its constructors. *)
Definition libraryContext : CompilerContext :=
  {| getName := fun m => String.append "Module_" (pretty m);
     entityExportedSymbols := fun t =>
       if decide (t = T)
       then [("X", [ResolvedConstructor A "T" "X"]);
             ("Y", [ResolvedConstructor A "T" "Y"])]
       else [] |}.

End MoreExamples.

(** * Properties of the arena and of [buildGraph] *)

Lemma lookupNode_Some t g n :
  lookupNode t g = Some n -> n ∈ g /\ ntarget n = t.
Proof.
  induction g as [|x g IH]; simpl; [done|].
  case_decide; intros Hl.
  - simplify_eq. split; [left|done].
  - destruct (IH Hl). split; [by right|done].
Qed.

Lemma lookupNode_None t g : lookupNode t g = None <-> t ∉ targets g.
Proof.
  induction g as [|x g IH]; simpl.
  - split; [intros _; apply not_elem_of_nil|done].
  - rewrite not_elem_of_cons. case_decide; naive_solver.
Qed.

Lemma lookupNode_is_Some t g : is_Some (lookupNode t g) <-> t ∈ targets g.
Proof.
  rewrite <-not_eq_None_Some, lookupNode_None.
  split; [apply dec_stable|auto].
Qed.

Lemma ntarget_nodeOf g t : ntarget (nodeOf g t) = t.
Proof.
  unfold nodeOf. destruct (lookupNode t g) as [n|] eqn:E; [|done].
  by apply lookupNode_Some in E as [_ ?].
Qed.

Lemma nodeOf_elem g t : t ∈ targets g -> nodeOf g t ∈ g.
Proof.
  intros [n E]%lookupNode_is_Some. unfold nodeOf. rewrite E.
  by apply lookupNode_Some in E as [? _].
Qed.

Lemma lookupNode_NoDup g n :
  NoDup (targets g) -> n ∈ g -> lookupNode (ntarget n) g = Some n.
Proof.
  induction g as [|x g IH]; simpl; [by intros _ ?%elem_of_nil|].
  rewrite NoDup_cons. intros [Hx Hg] [->|Hn]%elem_of_cons.
  - by rewrite decide_True.
  - rewrite decide_False; [by apply IH|].
    intros E. apply Hx. rewrite E. unfold targets. by apply list_elem_of_fmap_2.
Qed.

Lemma nodeOf_NoDup g n : NoDup (targets g) -> n ∈ g -> nodeOf g (ntarget n) = n.
Proof. intros Hg Hn. unfold nodeOf. by rewrite lookupNode_NoDup. Qed.

(** *** Effect of the three updates on the arena *)

Lemma targets_getOrElseUpdate t g :
  targets (getOrElseUpdate t g) = if decide (t ∈ targets g) then targets g else targets g ++ [t].
Proof.
  unfold getOrElseUpdate. case_decide as Ht.
  - apply lookupNode_is_Some in Ht as [n ->]. done.
  - apply lookupNode_None in Ht as ->. unfold targets. by rewrite fmap_app.
Qed.

Lemma elem_of_targets_getOrElseUpdate t t' g :
  t ∈ targets (getOrElseUpdate t' g) <-> t = t' \/ t ∈ targets g.
Proof.
  rewrite targets_getOrElseUpdate. case_decide.
  - naive_solver.
  - rewrite elem_of_app, list_elem_of_singleton. naive_solver.
Qed.

Lemma NoDup_getOrElseUpdate t g :
  NoDup (targets g) -> NoDup (targets (getOrElseUpdate t g)).
Proof.
  intros Hg. rewrite targets_getOrElseUpdate. case_decide; [done|].
  apply NoDup_app. split_and!; [done| |apply NoDup_singleton].
  intros x Hx ->%list_elem_of_singleton. done.
Qed.

Lemma lookupNode_app t g g' :
  lookupNode t (g ++ g') =
  match lookupNode t g with Some n => Some n | None => lookupNode t g' end.
Proof. induction g as [|x g IH]; simpl; [done|]. by case_decide. Qed.

Lemma nodeOf_getOrElseUpdate t' g t : nodeOf (getOrElseUpdate t' g) t = nodeOf g t.
Proof.
  unfold getOrElseUpdate. destruct (lookupNode t' g) eqn:E'; [done|].
  unfold nodeOf. rewrite lookupNode_app.
  destruct (lookupNode t g) eqn:E; [done|]. simpl.
  case_decide; by simplify_eq.
Qed.

Lemma targets_setExports t es g : targets (setExports t es g) = targets g.
Proof.
  unfold targets, setExports. rewrite <-list_fmap_compose.
  apply list_fmap_ext. intros _ n _. simpl. by case_decide.
Qed.

Lemma targets_addExportedBy g e : targets (addExportedBy g e) = targets g.
Proof.
  unfold targets, addExportedBy. rewrite <-list_fmap_compose.
  apply list_fmap_ext. intros _ n _. simpl. by case_decide.
Qed.

Lemma lookupNode_fmap (f : Node -> Node) t g :
  (forall n, ntarget (f n) = ntarget n) ->
  lookupNode t (f <$> g) = f <$> lookupNode t g.
Proof.
  intros Hf. induction g as [|x g IH]; simpl; [done|].
  rewrite Hf. by case_decide.
Qed.

Lemma nodeOf_setExports t' es g t :
  nodeOf (setExports t' es g) t =
  if decide (t = t' /\ t ∈ targets g)
  then mkNode t es (exportedBy (nodeOf g t)) else nodeOf g t.
Proof.
  unfold nodeOf, setExports. rewrite lookupNode_fmap; [|intros n; by case_decide].
  destruct (lookupNode t g) as [n|] eqn:E; simpl.
  - assert (t ∈ targets g) by (apply lookupNode_is_Some; eauto).
    apply lookupNode_Some in E as [_ <-].
    repeat case_decide; naive_solver.
  - apply lookupNode_None in E. rewrite decide_False; naive_solver.
Qed.

Lemma nodeOf_addExportedBy g e t :
  nodeOf (addExportedBy g e) t =
  if decide (t = exportee e /\ t ∈ targets g)
  then mkNode t (exports (nodeOf g t)) (e :: exportedBy (nodeOf g t))
  else nodeOf g t.
Proof.
  unfold nodeOf, addExportedBy. rewrite lookupNode_fmap; [|intros n; by case_decide].
  destruct (lookupNode t g) as [n|] eqn:E; simpl.
  - assert (t ∈ targets g) by (apply lookupNode_is_Some; eauto).
    apply lookupNode_Some in E as [_ <-].
    repeat case_decide; naive_solver.
  - apply lookupNode_None in E. rewrite decide_False; naive_solver.
Qed.

(** *** One module of [buildGraph] *)

Lemma filter_none {A} (P : A -> Prop) `{forall x, Decision (P x)} (l : list A) :
  (forall x, x ∈ l -> ~ P x) -> filter P l = [].
Proof.
  induction l as [|x l IH]; intros Hl; [done|].
  rewrite filter_cons, decide_False by (apply Hl; left).
  apply IH. intros y Hy. apply Hl. by right.
Qed.

Lemma foldl_getOrElseUpdate_targets (ds : list ExportedModule) g t :
  t ∈ targets (foldl (fun g d => getOrElseUpdate (target d) g) g ds) <->
  t ∈ targets g \/ t ∈ target <$> ds.
Proof.
  revert g. induction ds as [|d ds IH]; intros g; simpl.
  - rewrite elem_of_nil. naive_solver.
  - rewrite IH, elem_of_targets_getOrElseUpdate, elem_of_cons. naive_solver.
Qed.

Lemma foldl_getOrElseUpdate_NoDup (ds : list ExportedModule) g :
  NoDup (targets g) ->
  NoDup (targets (foldl (fun g d => getOrElseUpdate (target d) g) g ds)).
Proof.
  revert g. induction ds as [|d ds IH]; intros g Hg; simpl; [done|].
  by apply IH, NoDup_getOrElseUpdate.
Qed.

Lemma foldl_getOrElseUpdate_nodeOf (ds : list ExportedModule) g t :
  nodeOf (foldl (fun g d => getOrElseUpdate (target d) g) g ds) t = nodeOf g t.
Proof.
  revert g. induction ds as [|d ds IH]; intros g; simpl; [done|].
  by rewrite IH, nodeOf_getOrElseUpdate.
Qed.

Lemma foldl_addExportedBy_targets es g :
  targets (foldl addExportedBy g es) = targets g.
Proof.
  revert g. induction es as [|e es IH]; intros g; simpl; [done|].
  by rewrite IH, targets_addExportedBy.
Qed.

Lemma foldl_addExportedBy_exports es g t :
  exports (nodeOf (foldl addExportedBy g es) t) = exports (nodeOf g t).
Proof.
  revert g. induction es as [|e es IH]; intros g; simpl; [done|].
  rewrite IH, nodeOf_addExportedBy. by case_decide.
Qed.

Lemma foldl_addExportedBy_exportedBy es g t :
  t ∈ targets g ->
  exportedBy (nodeOf (foldl addExportedBy g es) t) =
  reverse (filter (fun e => exportee e = t) es) ++ exportedBy (nodeOf g t).
Proof.
  revert g. induction es as [|e es IH]; intros g Ht; simpl; [done|].
  rewrite IH by (by rewrite targets_addExportedBy).
  rewrite nodeOf_addExportedBy, filter_cons.
  destruct (decide (exportee e = t)) as [->|Hne].
  - rewrite decide_True by done. simpl.
    by rewrite reverse_cons, <-app_assoc.
  - rewrite decide_False by naive_solver. done.
Qed.

Lemma buildModule_targets h g m t :
  t ∈ targets (buildModule h g m) <->
  t ∈ targets g \/ t ∈ target <$> declaredExports h m.
Proof.
  unfold buildModule.
  by rewrite foldl_addExportedBy_targets, targets_setExports,
    foldl_getOrElseUpdate_targets.
Qed.

Lemma buildModule_NoDup h g m :
  NoDup (targets g) -> NoDup (targets (buildModule h g m)).
Proof.
  intros Hg. unfold buildModule.
  rewrite foldl_addExportedBy_targets, targets_setExports.
  by apply foldl_getOrElseUpdate_NoDup.
Qed.

Lemma buildModule_exports h g m t :
  ResolvedModule m ∈ targets g ->
  exports (nodeOf (buildModule h g m) t) =
  if decide (t = ResolvedModule m) then edgesOf h m else exports (nodeOf g t).
Proof.
  intros Hm. unfold buildModule.
  rewrite foldl_addExportedBy_exports, nodeOf_setExports.
  rewrite foldl_getOrElseUpdate_nodeOf.
  destruct (decide (t = ResolvedModule m)) as [->|Hne].
  - rewrite decide_True; [done|]. split; [done|].
    apply foldl_getOrElseUpdate_targets. by left.
  - rewrite decide_False by naive_solver. done.
Qed.

Lemma exportee_edgesOf h m e :
  e ∈ edgesOf h m -> exportee e ∈ target <$> declaredExports h m.
Proof.
  unfold edgesOf. intros (d & -> & Hd)%list_elem_of_fmap. simpl.
  by apply list_elem_of_fmap_2.
Qed.

Lemma exporter_edgesOf h m e : e ∈ edgesOf h m -> exporter e = ResolvedModule m.
Proof. unfold edgesOf. by intros (d & -> & Hd)%list_elem_of_fmap. Qed.

Lemma buildModule_exportedBy h g m t :
  exportedBy (nodeOf (buildModule h g m) t) =
  reverse (filter (fun e => exportee e = t) (edgesOf h m)) ++ exportedBy (nodeOf g t).
Proof.
  unfold buildModule. fold (edgesOf h m).
  set (g1 := foldl _ g (declaredExports h m)).
  destruct (decide (t ∈ targets (setExports (ResolvedModule m) (edgesOf h m) g1)))
    as [Ht|Ht].
  - rewrite foldl_addExportedBy_exportedBy by done.
    rewrite nodeOf_setExports. subst g1.
    rewrite foldl_getOrElseUpdate_nodeOf. by case_decide.
  - assert (filter (fun e => exportee e = t) (edgesOf h m) = []) as ->.
    { apply filter_none. intros e He <-. apply Ht.
      rewrite targets_setExports. apply foldl_getOrElseUpdate_targets.
      right. by apply exportee_edgesOf. }
    simpl. unfold nodeOf at 1.
    assert (lookupNode t (foldl addExportedBy
      (setExports (ResolvedModule m) (edgesOf h m) g1) (edgesOf h m)) = None) as ->.
    { apply lookupNode_None. by rewrite foldl_addExportedBy_targets. }
    simpl. unfold nodeOf.
    assert (lookupNode t g = None) as ->; [|done].
    apply lookupNode_None. intros Hg. apply Ht.
    rewrite targets_setExports. apply foldl_getOrElseUpdate_targets. by left.
Qed.

(** *** All modules of [buildGraph] *)

Lemma foldl_buildModule_NoDup h ms g :
  NoDup (targets g) -> NoDup (targets (foldl (buildModule h) g ms)).
Proof.
  revert g. induction ms as [|m ms IH]; intros g Hg; simpl; [done|].
  by apply IH, buildModule_NoDup.
Qed.

Lemma foldl_buildModule_targets h ms g t :
  t ∈ targets (foldl (buildModule h) g ms) <->
  t ∈ targets g \/ exists m, m ∈ ms /\ t ∈ target <$> declaredExports h m.
Proof.
  revert g. induction ms as [|m ms IH]; intros g; simpl.
  - split; [by left|]. intros [?|(m & []%elem_of_nil & _)]. done.
  - rewrite IH, buildModule_targets. setoid_rewrite elem_of_cons. naive_solver.
Qed.

Lemma foldl_buildModule_exports h ms g t :
  (forall m, m ∈ ms -> ResolvedModule m ∈ targets g) ->
  exports (nodeOf (foldl (buildModule h) g ms) t) =
  if decide (t ∈ ResolvedModule <$> ms)
  then edgesOf h (target_module t) else exports (nodeOf g t).
Proof.
  revert g. induction ms as [|m ms IH]; intros g Hms; cbn [foldl].
  - rewrite decide_False; [done|]. apply not_elem_of_nil.
  - rewrite IH; last first.
    { intros m' Hm'. apply buildModule_targets. left. apply Hms. by right. }
    rewrite buildModule_exports by (apply Hms; left).
    destruct (decide (t ∈ ResolvedModule <$> ms)) as [Ht|Ht].
    + rewrite decide_True; [done|]. by right.
    + destruct (decide (t = ResolvedModule m)) as [->|Hne].
      * rewrite decide_True; [done|]. left.
      * rewrite decide_False; [done|].
        intros [?|?]%elem_of_cons; done.
Qed.

Lemma foldl_buildModule_exportedBy h ms g t :
  exportedBy (nodeOf (foldl (buildModule h) g ms) t) ≡ₚ
  filter (fun e => exportee e = t) (ms ≫= edgesOf h) ++ exportedBy (nodeOf g t).
Proof.
  revert g. induction ms as [|m ms IH]; intros g; simpl; [done|].
  rewrite IH, buildModule_exportedBy, filter_app, reverse_Permutation.
  rewrite !app_assoc. f_equiv. apply Permutation_app_comm.
Qed.

Lemma initialNodes_targets ms t :
  t ∈ targets (initialNodes ms) <-> t ∈ ResolvedModule <$> ms.
Proof.
  unfold initialNodes.
  assert (forall g, t ∈ targets (foldl (fun g m => getOrElseUpdate (ResolvedModule m) g) g ms)
            <-> t ∈ targets g \/ t ∈ ResolvedModule <$> ms) as Hgen.
  { induction ms as [|m ms IH]; intros g; simpl.
    - rewrite elem_of_nil. naive_solver.
    - rewrite IH, elem_of_targets_getOrElseUpdate, elem_of_cons. naive_solver. }
  rewrite Hgen. simpl. rewrite elem_of_nil. naive_solver.
Qed.

Lemma initialNodes_NoDup ms : NoDup (targets (initialNodes ms)).
Proof.
  unfold initialNodes.
  assert (forall g, NoDup (targets g) ->
    NoDup (targets (foldl (fun g m => getOrElseUpdate (ResolvedModule m) g) g ms))) as Hgen.
  { induction ms as [|m ms IH]; intros g Hg; simpl; [done|].
    by apply IH, NoDup_getOrElseUpdate. }
  apply Hgen, NoDup_nil_2.
Qed.

Lemma initialNodes_nodeOf ms t : nodeOf (initialNodes ms) t = newNode t.
Proof.
  unfold initialNodes.
  assert (forall g, nodeOf (foldl (fun g m => getOrElseUpdate (ResolvedModule m) g) g ms) t
            = nodeOf g t) as Hgen.
  { induction ms as [|m ms IH]; intros g; simpl; [done|].
    by rewrite IH, nodeOf_getOrElseUpdate. }
  by rewrite Hgen.
Qed.

Lemma buildNodes_NoDup h ms : NoDup (targets (buildNodes h ms)).
Proof. apply foldl_buildModule_NoDup, initialNodes_NoDup. Qed.

Lemma buildNodes_targets h ms t :
  t ∈ targets (buildNodes h ms) <->
  t ∈ ResolvedModule <$> ms \/ exists m, m ∈ ms /\ t ∈ target <$> declaredExports h m.
Proof. unfold buildNodes. by rewrite foldl_buildModule_targets, initialNodes_targets. Qed.

Lemma buildNodes_exports h ms t :
  exports (nodeOf (buildNodes h ms) t) =
  if decide (t ∈ ResolvedModule <$> ms) then edgesOf h (target_module t) else [].
Proof.
  unfold buildNodes. rewrite foldl_buildModule_exports.
  - by rewrite initialNodes_nodeOf.
  - intros m Hm. apply initialNodes_targets. by apply list_elem_of_fmap_2.
Qed.

Lemma buildNodes_exportedBy h ms t :
  exportedBy (nodeOf (buildNodes h ms) t) ≡ₚ
  filter (fun e => exportee e = t) (ms ≫= edgesOf h).
Proof.
  unfold buildNodes.
  by rewrite foldl_buildModule_exportedBy, initialNodes_nodeOf, app_nil_r.
Qed.

Lemma buildNodes_elem h ms n :
  n ∈ buildNodes h ms -> n = nodeOf (buildNodes h ms) (ntarget n).
Proof. intros Hn. symmetry. apply nodeOf_NoDup; [apply buildNodes_NoDup|done]. Qed.

Lemma buildNodes_allEdges h ms e :
  e ∈ allEdges (buildNodes h ms) <-> e ∈ ms ≫= edgesOf h.
Proof.
  unfold allEdges. rewrite !list_elem_of_bind. split.
  - intros (n & He & Hn). rewrite (buildNodes_elem _ _ _ Hn) in He.
    rewrite buildNodes_exports in He. case_decide as Ht; [|by apply elem_of_nil in He].
    apply list_elem_of_fmap in Ht as (m & Ht & Hm). rewrite Ht in He. eauto.
  - intros (m & He & Hm). exists (nodeOf (buildNodes h ms) (ResolvedModule m)).
    assert (ResolvedModule m ∈ ResolvedModule <$> ms) by by apply list_elem_of_fmap_2.
    split.
    + rewrite buildNodes_exports, decide_True by done. done.
    + apply nodeOf_elem, buildNodes_targets. by left.
Qed.

Lemma elem_of_buildGraph `{HashOrder} h ms n :
  n ∈ buildGraph h ms <-> n ∈ buildNodes h ms.
Proof. unfold buildGraph. by rewrite iterate_perm. Qed.

Lemma allEdges_buildGraph `{HashOrder} h ms e :
  e ∈ allEdges (buildGraph h ms) <-> e ∈ ms ≫= edgesOf h.
Proof.
  rewrite <-buildNodes_allEdges. unfold allEdges, buildGraph.
  by rewrite iterate_perm.
Qed.

(** C5.  After [buildGraph] returns, the [exportedBy] list of every node [N]
    of the returned list holds exactly the edges [e], taken over the
    [exports] lists of all returned nodes, with [e.exportee == N]: none is
    missing and none is extra.  This holds for every iteration order of the
    node map and for every input list. *)
Theorem buildGraph_exportedBy_exact `{HashOrder} (h : Heap) (modules : list Module) :
  Forall (fun N => forall e,
            e ∈ exportedBy N <->
            e ∈ allEdges (buildGraph h modules) /\ exportee e = ntarget N)
         (buildGraph h modules).
Proof.
  apply Forall_forall. intros N HN%elem_of_buildGraph e.
  rewrite allEdges_buildGraph.
  rewrite (buildNodes_elem _ _ _ HN) at 1.
  rewrite buildNodes_exportedBy, list_elem_of_filter. naive_solver.
Qed.

(** * Properties of the list operations *)

Section list_ops.
Context {A : Type} `{EqDecision A}.
Implicit Types l seen : list A.

Lemma elem_of_distinctFrom seen l x :
  x ∈ distinctFrom seen l <-> x ∈ l /\ x ∉ seen.
Proof.
  revert seen. induction l as [|y l IH]; intros seen; simpl.
  - rewrite elem_of_nil. naive_solver.
  - case_decide as Hy.
    + rewrite IH, elem_of_cons. naive_solver.
    + rewrite !elem_of_cons, IH, not_elem_of_cons.
      destruct (decide (x = y)); naive_solver.
Qed.

Lemma NoDup_distinctFrom seen l : NoDup (distinctFrom seen l).
Proof.
  revert seen. induction l as [|y l IH]; intros seen; simpl.
  - apply NoDup_nil_2.
  - case_decide; [apply IH|].
    apply NoDup_cons. split; [|apply IH].
    rewrite elem_of_distinctFrom, not_elem_of_cons. naive_solver.
Qed.

Lemma elem_of_distinct l x : x ∈ distinct l <-> x ∈ l.
Proof.
  unfold distinct. rewrite elem_of_distinctFrom.
  split; [naive_solver|]. intros ?. split; [done|apply not_elem_of_nil].
Qed.

Lemma NoDup_distinct l : NoDup (distinct l).
Proof. apply NoDup_distinctFrom. Qed.

Lemma distinctFrom_NoDup seen l :
  NoDup l -> (forall x, x ∈ l -> x ∉ seen) -> distinctFrom seen l = l.
Proof.
  revert seen. induction l as [|y l IH]; intros seen Hl Hs; simpl; [done|].
  apply NoDup_cons in Hl as [Hy Hl].
  rewrite decide_False by (apply Hs; left). f_equal. apply IH; [done|].
  intros x Hx. rewrite not_elem_of_cons. split.
  - intros ->. done.
  - apply Hs. by right.
Qed.

Lemma distinct_NoDup l : NoDup l -> distinct l = l.
Proof.
  intros Hl. apply distinctFrom_NoDup; [done|].
  intros x _. apply not_elem_of_nil.
Qed.

Lemma elem_of_intersect (xs ys : list A) x :
  x ∈ intersect xs ys -> x ∈ xs /\ x ∈ ys.
Proof.
  revert ys. induction xs as [|y xs IH]; intros ys; simpl.
  - by intros ?%elem_of_nil.
  - case_decide as Hy.
    + intros [->|Hx]%elem_of_cons; [split; [left|done]|].
      apply IH in Hx as [Hx1 Hx2]. split; [by right|].
      clear -Hx2. induction ys as [|z ys IHys]; simpl in *; [done|].
      case_decide; [by right|].
      apply elem_of_cons in Hx2 as [->|?]; [left|right; auto].
    + intros [Hx1 Hx2]%IH. split; [by right|done].
Qed.

Lemma intersect_nil_l (ys : list A) : intersect [] ys = [].
Proof. done. Qed.
End list_ops.

Section groupBy.
Context {A K : Type} `{EqDecision K} (key : A -> K).

Lemma elem_of_groupBy (l : list A) k items :
  (k, items) ∈ groupBy key l <->
  k ∈ key <$> l /\ items = filter (fun x => key x = k) l.
Proof.
  unfold groupBy. rewrite list_elem_of_fmap.
  setoid_rewrite elem_of_distinct. naive_solver.
Qed.

Lemma groupBy_keys (l : list A) : (groupBy key l).*1 = distinct (key <$> l).
Proof.
  unfold groupBy. rewrite <-list_fmap_compose. simpl. apply list_fmap_id.
Qed.

Lemma NoDup_groupBy_keys (l : list A) : NoDup (groupBy key l).*1.
Proof. rewrite groupBy_keys. apply NoDup_distinct. Qed.
End groupBy.

Lemma foldl_app_concat {A} (acc : list A) (ls : list (list A)) :
  foldl (fun acc s => acc ++ s) acc ls = acc ++ mjoin ls.
Proof.
  revert acc. induction ls as [|l ls IH]; intros acc; simpl.
  - by rewrite app_nil_r.
  - by rewrite IH, app_assoc.
Qed.

Lemma collectFirstName_Some items n :
  collectFirstName items = Some n ->
  exists ex, ex ∈ items /\ exportedAs ex = Some n.
Proof.
  induction items as [|ex items IH]; simpl; [done|].
  destruct (exportedAs ex) as [n'|] eqn:E.
  - intros [= <-]. exists ex. split; [left|done].
  - intros (ex' & ? & ?)%IH. exists ex'. split; [by right|done].
Qed.

Lemma collectFirstName_None items :
  collectFirstName items = None <-> forall ex, ex ∈ items -> exportedAs ex = None.
Proof.
  induction items as [|ex items IH]; simpl.
  - split; [by intros _ ? ?%elem_of_nil|done].
  - destruct (exportedAs ex) as [n'|] eqn:E.
    + split; [done|]. intros Hall. rewrite Hall in E; [done|left].
    + rewrite IH. setoid_rewrite elem_of_cons. naive_solver.
Qed.

Lemma collectFirstName_app items1 items2 :
  collectFirstName (items1 ++ items2) =
  match collectFirstName items1 with
  | Some n => Some n
  | None => collectFirstName items2
  end.
Proof.
  induction items1 as [|ex items1 IH]; simpl; [done|].
  by destruct (exportedAs ex).
Qed.

(** * Properties of [resolveExports] *)

Section assoc_facts.
Context {K V : Type} `{EqDecision K}.
Implicit Types l : list (K * V).

Lemma alookup_Some_elem k v l : alookup k l = Some v -> (k, v) ∈ l.
Proof.
  induction l as [|[k' v'] l IH]; simpl; [done|].
  case_decide; intros ?; simplify_eq; [left|right; auto].
Qed.

Lemma alookup_None k l : alookup k l = None <-> k ∉ l.*1.
Proof.
  induction l as [|[k' v'] l IH]; simpl.
  - split; [intros _; apply not_elem_of_nil|done].
  - rewrite not_elem_of_cons. case_decide; naive_solver.
Qed.

Lemma alookup_is_Some k l : is_Some (alookup k l) <-> k ∈ l.*1.
Proof.
  rewrite <-not_eq_None_Some, alookup_None.
  split; [apply dec_stable|auto].
Qed.

Lemma alookup_NoDup k v l : NoDup l.*1 -> (k, v) ∈ l -> alookup k l = Some v.
Proof.
  induction l as [|[k' v'] l IH]; simpl; [by intros _ ?%elem_of_nil|].
  rewrite NoDup_cons. intros [Hk Hl] [?|Hin]%elem_of_cons.
  - simplify_eq. by rewrite decide_True.
  - rewrite decide_False; [by apply IH|].
    intros ->. apply Hk. by apply (list_elem_of_fmap_2 fst _ (k, v)).
Qed.

Lemma alookup_aupdate k v l k' :
  alookup k' (aupdate k v l) = if decide (k = k') then Some v else alookup k' l.
Proof.
  induction l as [|[k0 v0] l IH]; simpl.
  - by case_decide.
  - destruct (decide (k0 = k)) as [->|]; simpl.
    + by case_decide.
    + rewrite IH. repeat case_decide; by simplify_eq.
Qed.

Lemma aupdate_keys k v l :
  (aupdate k v l).*1 = if decide (k ∈ l.*1) then l.*1 else l.*1 ++ [k].
Proof.
  induction l as [|[k0 v0] l IH].
  - case_decide as Hk; [|done]. by apply elem_of_nil in Hk.
  - cbn [aupdate]. destruct (decide (k0 = k)) as [->|Hne].
    + rewrite decide_True; [done|]. rewrite fmap_cons. left.
    + rewrite !fmap_cons, IH. cbn [fst]. destruct (decide (k ∈ l.*1)).
      * rewrite decide_True; [done|by right].
      * rewrite decide_False; [done|].
        intros [?|?]%elem_of_cons; by simplify_eq.
Qed.
Lemma elem_of_aupdate_keys k v l k' :
  k' ∈ (aupdate k v l).*1 <-> k' = k \/ k' ∈ l.*1.
Proof.
  rewrite aupdate_keys. case_decide.
  - naive_solver.
  - rewrite elem_of_app, list_elem_of_singleton. naive_solver.
Qed.

Lemma NoDup_aupdate k v l : NoDup l.*1 -> NoDup (aupdate k v l).*1.
Proof.
  intros Hl. rewrite aupdate_keys. case_decide; [done|].
  apply NoDup_app. split_and!; [done| |apply NoDup_singleton].
  by intros x Hx ->%list_elem_of_singleton.
Qed.

Lemma aremove_keys k l : (aremove k l).*1 = filter (fun k' => k' <> k) l.*1.
Proof.
  unfold aremove. induction l as [|[k0 v0] l IH]; [done|].
  rewrite fmap_cons, !filter_cons. cbn [fst].
  case_decide; by rewrite ?fmap_cons, IH.
Qed.

Lemma alookup_aremove k l k' :
  alookup k' (aremove k l) = if decide (k' = k) then None else alookup k' l.
Proof.
  unfold aremove. induction l as [|[k0 v0] l IH].
  - by case_decide.
  - rewrite filter_cons. cbn [fst alookup].
    destruct (decide (k0 <> k)) as [Hne|Heq%dec_stable]; cbn [alookup].
    + rewrite IH. repeat case_decide; by simplify_eq.
    + subst. rewrite IH. repeat case_decide; by simplify_eq.
Qed.

Lemma NoDup_aremove k l : NoDup l.*1 -> NoDup (aremove k l).*1.
Proof. intros Hl. rewrite aremove_keys. by apply NoDup_filter. Qed.
End assoc_facts.

(** *** Unifying the records of one node *)

Lemma unifyGroup_symbols t items :
  symbols (unifyGroup (t, items)) = distinct (mjoin (symbols <$> items)).
Proof. unfold unifyGroup. simpl. by rewrite foldl_app_concat. Qed.

Lemma elem_of_unifyGroup_symbols t items s :
  s ∈ symbols (unifyGroup (t, items)) <-> exists ex, ex ∈ items /\ s ∈ symbols ex.
Proof.
  rewrite unifyGroup_symbols, elem_of_distinct, list_elem_of_join.
  setoid_rewrite list_elem_of_fmap. naive_solver.
Qed.

Lemma elem_of_unified `{HashOrder} all r :
  r ∈ unified all <->
  exists t, t ∈ target <$> all /\
            r = unifyGroup (t, filter (fun ex => target ex = t) all).
Proof.
  unfold unified. rewrite list_elem_of_fmap. split.
  - intros ([t items] & -> & Hin). rewrite iterate_perm in Hin.
    apply elem_of_groupBy in Hin as [Ht ->]. eauto.
  - intros (t & Ht & ->). eexists (t, _). split; [done|].
    rewrite iterate_perm. by apply elem_of_groupBy.
Qed.

Lemma NoDup_unified_targets `{HashOrder} all : NoDup (target <$> unified all).
Proof.
  unfold unified. rewrite <-list_fmap_compose.
  assert (target ∘ unifyGroup = fst) as -> by done.
  rewrite iterate_perm. apply NoDup_groupBy_keys.
Qed.

Lemma unified_target_elem `{HashOrder} all r :
  r ∈ unified all -> target r ∈ target <$> all.
Proof. by intros (t & Ht & ->)%elem_of_unified. Qed.

(** *** Transitive exports *)

Lemma transitivelyExported_Ok exps explicit tr :
  transitivelyExported exps explicit = Ok tr ->
  (forall ex, ex ∈ explicit -> is_Some (alookup (target ex) exps)) /\
  tr = transitiveOf (resolvedIn_map exps) explicit.
Proof.
  revert tr. induction explicit as [|ex rest IH]; intros tr; simpl.
  - intros [= <-]. split; [by intros ? ?%elem_of_nil|done].
  - destruct (alookup (target ex) exps) as [parent|] eqn:E; [|done].
    destruct (transitivelyExported exps rest) as [more| |] eqn:Erest; simpl; [|done..].
    intros [= <-]. destruct (IH more eq_refl) as [Hall ->]. split.
    + intros ex' [->|?]%elem_of_cons; [by rewrite E|auto].
    + unfold transitiveOf. cbn [mbind list_bind]. unfold resolvedIn_map.
      by rewrite E.
Qed.

Lemma transitivelyExported_total exps explicit :
  (forall ex, ex ∈ explicit -> is_Some (alookup (target ex) exps)) ->
  transitivelyExported exps explicit = Ok (transitiveOf (resolvedIn_map exps) explicit).
Proof.
  induction explicit as [|ex rest IH]; intros Hall; simpl; [done|].
  destruct (Hall ex) as [parent E]; [left|]. rewrite E.
  rewrite IH by (intros; apply Hall; by right). simpl.
  unfold transitiveOf. cbn [mbind list_bind]. unfold resolvedIn_map.
  by rewrite E.
Qed.

Lemma transitivelyExported_missing exps explicit :
  ~ (forall ex, ex ∈ explicit -> is_Some (alookup (target ex) exps)) ->
  exists t, transitivelyExported exps explicit =
            Throw (NoSuchElementException_KeyNotFound t).
Proof.
  induction explicit as [|ex rest IH]; intros Hall; simpl.
  - destruct Hall. by intros ? ?%elem_of_nil.
  - destruct (alookup (target ex) exps) as [parent|] eqn:E; [|eauto].
    destruct IH as [t ->]; [|by eauto].
    intros Hrest. apply Hall. intros ex' [->|?]%elem_of_cons; [by rewrite E|auto].
Qed.

Lemma transitiveOf_ext (f f' : ImportTarget -> list ExportedModule) explicit :
  (forall ex, ex ∈ explicit -> f (target ex) = f' (target ex)) ->
  transitiveOf f explicit = transitiveOf f' explicit.
Proof.
  intros Hf. unfold transitiveOf. induction explicit as [|ex rest IH]; [done|].
  simpl. rewrite Hf by left. f_equal. apply IH. intros. apply Hf. by right.
Qed.

Lemma elem_of_transitiveOf f explicit r :
  r ∈ transitiveOf f explicit <->
  exists ex p, ex ∈ explicit /\ p ∈ f (target ex) /\
    r = mkExportedModule (target p) None (intersect (symbols ex) (symbols p)).
Proof.
  unfold transitiveOf, transitiveThrough. rewrite list_elem_of_bind.
  setoid_rewrite list_elem_of_fmap. naive_solver.
Qed.

(** *** The pass over the nodes *)

Lemma targets_cons n g : targets (n :: g) = ntarget n :: targets g.
Proof. done. Qed.

Lemma targets_nil : targets [] = [].
Proof. done. Qed.

Lemma targets_app g g' : targets (g ++ g') = targets g ++ targets g'.
Proof. unfold targets. by rewrite fmap_app. Qed.

Lemma elem_of_targets n g : n ∈ g -> ntarget n ∈ targets g.
Proof. unfold targets. apply list_elem_of_fmap_2. Qed.

Lemma resolveNode_Ok `{HashOrder} exps node exps' :
  resolveNode exps node = Ok exps' ->
  (forall ex, ex ∈ explicitlyExported node -> is_Some (alookup (target ex) exps)) /\
  exps' = aupdate (ntarget node) (resolvedRecords (resolvedIn_map exps) node) exps.
Proof.
  unfold resolveNode.
  destruct (transitivelyExported exps (explicitlyExported node)) as [tr| |] eqn:E;
    simpl; [|done..].
  apply transitivelyExported_Ok in E as [Hall ->]. by intros [= <-].
Qed.

Lemma resolveNode_total `{HashOrder} exps node :
  (forall ex, ex ∈ explicitlyExported node -> is_Some (alookup (target ex) exps)) ->
  resolveNode exps node =
  Ok (aupdate (ntarget node) (resolvedRecords (resolvedIn_map exps) node) exps).
Proof.
  intros Hall. unfold resolveNode. by rewrite transitivelyExported_total.
Qed.

Lemma resolvedRecords_ext `{HashOrder} f f' node :
  (forall ex, ex ∈ explicitlyExported node -> f (target ex) = f' (target ex)) ->
  resolvedRecords f node = resolvedRecords f' node.
Proof. intros Hf. unfold resolvedRecords. by rewrite (transitiveOf_ext f f'). Qed.

Lemma resolveNodes_spec `{HashOrder} nodes exps0 exps :
  NoDup (targets nodes) ->
  (forall n, n ∈ nodes -> alookup (ntarget n) exps0 = None) ->
  resolveNodes exps0 nodes = Ok exps ->
  (forall t v, alookup t exps0 = Some v -> alookup t exps = Some v) /\
  (forall n, n ∈ nodes ->
     alookup (ntarget n) exps = Some (resolvedRecords (resolvedIn_map exps) n)) /\
  (forall t, t ∈ exps.*1 <-> t ∈ exps0.*1 \/ t ∈ targets nodes).
Proof.
  revert exps0. induction nodes as [|n nodes IH]; intros exps0 Hnd Hfresh;
    cbn [resolveNodes].
  - intros [= <-]. split_and!; [done|by intros ? ?%elem_of_nil|].
    intros t. unfold targets. simpl. rewrite elem_of_nil. naive_solver.
  - destruct (resolveNode exps0 n) as [exps1| |] eqn:E1; cbn [bind]; [|done..].
    apply resolveNode_Ok in E1 as [Hall ->]. intros Hrest.
    rewrite targets_cons in Hnd. apply NoDup_cons in Hnd as [Hn Hnd].
    apply IH in Hrest as (Hkeep & Hnodes & Hkeys); [|done|]; last first.
    { intros n' Hn'. rewrite alookup_aupdate, decide_False.
      - apply Hfresh. by right.
      - intros E. apply Hn. rewrite E. by apply elem_of_targets. }
    assert (forall t v, alookup t exps0 = Some v -> alookup t exps = Some v) as Hkeep0.
    { intros t v Ht. apply Hkeep. rewrite alookup_aupdate, decide_False; [done|].
      intros <-. rewrite Hfresh in Ht; [done|left]. }
    split_and!; [done| |].
    + intros n' [->|Hn']%elem_of_cons; [|by apply Hnodes].
      rewrite (Hkeep (ntarget n) (resolvedRecords (resolvedIn_map exps0) n)).
      * f_equal. apply resolvedRecords_ext. intros ex Hex.
        destruct (Hall ex Hex) as [v Hv]. unfold resolvedIn_map.
        by rewrite Hv, (Hkeep0 _ _ Hv).
      * by rewrite alookup_aupdate, decide_True.
    + intros t. rewrite Hkeys, elem_of_aupdate_keys, targets_cons, elem_of_cons.
      naive_solver.
Qed.

(** A target is available to a node when the map already holds it or an
    earlier node of the list carries it. *)
Lemma resolveNodes_total `{HashOrder} nodes exps0 :
  (forall l1 n l2 ex, nodes = l1 ++ n :: l2 -> ex ∈ explicitlyExported n ->
     target ex ∈ exps0.*1 \/ target ex ∈ targets l1) ->
  exists exps, resolveNodes exps0 nodes = Ok exps.
Proof.
  revert exps0. induction nodes as [|n nodes IH]; intros exps0 Hav; simpl; [eauto|].
  rewrite resolveNode_total; last first.
  { intros ex Hex. apply alookup_is_Some.
    destruct (Hav [] n nodes ex eq_refl Hex) as [?|[]%elem_of_nil]. done. }
  simpl. apply IH. intros l1 n' l2 ex -> Hex.
  rewrite elem_of_aupdate_keys.
  destruct (Hav (n :: l1) n' l2 ex eq_refl Hex) as [?|Hin]; [by auto|].
  rewrite targets_cons in Hin. apply elem_of_cons in Hin as [->|?]; auto.
Qed.

(** *** Storing the resolved exports *)

Lemma alookup_Permutation {K V} `{EqDecision K} (l l' : list (K * V)) k :
  NoDup l.*1 -> l ≡ₚ l' -> alookup k l = alookup k l'.
Proof.
  intros Hl Hp. assert (NoDup l'.*1) as Hl' by by rewrite <-Hp.
  destruct (alookup k l) as [v|] eqn:E.
  - symmetry. apply alookup_NoDup; [done|]. rewrite <-Hp.
    by apply alookup_Some_elem.
  - symmetry. apply alookup_None. rewrite <-Hp. by apply alookup_None.
Qed.

Lemma storeExports_Ok entries h h' :
  NoDup entries.*1 ->
  storeExports entries h = Ok h' ->
  forall m,
    h' !! m = match alookup (ResolvedModule m) entries with
              | Some exs => (fun b => setResolvedExports b exs) <$> h !! m
              | None => h !! m
              end.
Proof.
  revert h. induction entries as [|[t exs] rest IH]; intros h Hnd Hst m.
  - by simplify_eq/=.
  - rewrite fmap_cons in Hnd. apply NoDup_cons in Hnd as [Ht Hnd].
    cbn [fst] in Ht. cbn [storeExports] in Hst. cbn [alookup].
    destruct t as [m0| | |];
      try (rewrite decide_False by done; by apply IH).
    unfold getBindings in Hst.
    destruct (h !! m0) as [b|] eqn:Eb; [|done].
    rewrite (IH _ Hnd Hst m).
    destruct (decide (ResolvedModule m0 = ResolvedModule m)) as [[= ->]|Hne].
    + apply alookup_None in Ht. rewrite Ht, lookup_insert_eq, Eb. done.
    + rewrite lookup_insert_ne by congruence. done.
Qed.

Lemma storeExports_total entries h :
  (forall m exs, (ResolvedModule m, exs) ∈ entries -> is_Some (h !! m)) ->
  exists h', storeExports entries h = Ok h'.
Proof.
  revert h. induction entries as [|[t exs] rest IH]; intros h Hall;
    cbn [storeExports]; [eauto|].
  assert (forall h1, (forall m, is_Some (h !! m) -> is_Some (h1 !! m)) ->
            exists h', storeExports rest h1 = Ok h') as Hrest.
  { intros h1 Hh1. apply IH. intros m exs' Hin. apply Hh1, (Hall m exs'). by right. }
  destruct t as [m0| | |]; try (apply Hrest; done).
  unfold getBindings. destruct (Hall m0 exs) as [b ->]; [left|].
  apply Hrest. intros m Hm.
  destruct (decide (m0 = m)) as [->|]; [by rewrite lookup_insert_eq|].
  by rewrite lookup_insert_ne.
Qed.

Lemma storeExports_missing entries h :
  ~ (forall m exs, (ResolvedModule m, exs) ∈ entries -> is_Some (h !! m)) ->
  storeExports entries h = Throw NullPointerException.
Proof.
  revert h. induction entries as [|[t exs] rest IH]; intros h Hall;
    cbn [storeExports].
  - destruct Hall. by intros ? ? ?%elem_of_nil.
  - assert (forall h1, (forall m, is_Some (h1 !! m) -> is_Some (h !! m)) ->
        (forall m exs', (ResolvedModule m, exs') ∈ [(t, exs)] -> is_Some (h !! m)) ->
        storeExports rest h1 = Throw NullPointerException) as Hrest.
    { intros h1 Hh1 Hhd. apply IH. intros Hr. apply Hall.
      intros m exs' [?|?]%elem_of_cons.
      - apply (Hhd m exs'). simplify_eq. left.
      - eapply Hh1, Hr. done. }
    destruct t as [m0| | |];
      try (apply Hrest; [done|by intros ? ? [=]%list_elem_of_singleton]).
    unfold getBindings. destruct (h !! m0) as [b|] eqn:Eb; [|done].
    apply Hrest.
    + intros m. destruct (decide (m0 = m)) as [->|]; [by rewrite Eb|].
      by rewrite lookup_insert_ne.
    + intros m exs' [= -> ->]%list_elem_of_singleton. by rewrite Eb.
Qed.

(** *** [resolveExportedSymbols] leaves the resolved exports alone *)

(** Two heaps that agree on the declarations and on the resolved exports of
    every module. *)
Definition sameExports (h h' : Heap) : Prop :=
  forall m, (getDirectlyExportedModules <$> h' !! m = getDirectlyExportedModules <$> h !! m)
         /\ (resolvedExports <$> h' !! m = resolvedExports <$> h !! m).

Lemma sameExports_refl h : sameExports h h.
Proof. by intros m. Qed.

Lemma sameExports_trans h1 h2 h3 :
  sameExports h1 h2 -> sameExports h2 h3 -> sameExports h1 h3.
Proof. intros H12 H23 m. destruct (H12 m), (H23 m). split; congruence. Qed.

Lemma resolveModuleSymbols_sameExports `{CompilerContext} `{HashOrder} h m h' :
  resolveModuleSymbols h m = Ok h' -> sameExports h h'.
Proof.
  unfold resolveModuleSymbols, getBindings.
  destruct (h !! m) as [b|] eqn:Eb; [|done].
  destruct (reExportedSymbols h (resolvedExports b)) as [re| |]; cbn [bind]; [|done..].
  intros [= <-] m'. destruct (decide (m = m')) as [<-|].
  - by rewrite lookup_insert_eq, Eb.
  - by rewrite lookup_insert_ne.
Qed.

Lemma resolveExportedSymbols_sameExports `{CompilerContext} `{HashOrder} ms h h' :
  resolveExportedSymbols ms h = Ok h' -> sameExports h h'.
Proof.
  revert h. induction ms as [|m ms IH]; intros h; cbn [resolveExportedSymbols].
  - intros [= <-]. apply sameExports_refl.
  - destruct (resolveModuleSymbols h m) as [h1| |] eqn:E1; cbn [bind]; [|done..].
    intros Hrest. eapply sameExports_trans; [|by apply IH].
    by eapply resolveModuleSymbols_sameExports.
Qed.

Lemma sameExports_resolvedExportsOf h h' m :
  sameExports h h' -> resolvedExportsOf h' m = resolvedExportsOf h m.
Proof.
  intros Hs. destruct (Hs m) as [_ Hr]. unfold resolvedExportsOf, getBindings.
  destruct (h' !! m), (h !! m); by simplify_eq/=.
Qed.

Lemma sameExports_declaredExports h h' m :
  sameExports h h' -> declaredExports h' m = declaredExports h m.
Proof.
  intros Hs. destruct (Hs m) as [Hd _]. unfold declaredExports, getBindings.
  destruct (h' !! m), (h !! m); by simplify_eq/=.
Qed.

(** * Properties of [topsort] *)

(** ** On any graph *)

Lemma initialDegrees_keys_gen nodes degrees t :
  t ∈ (foldl (fun degrees node =>
                aupdate (ntarget node) (Z.of_nat (length (exports node))) degrees)
             degrees nodes).*1
  <-> t ∈ degrees.*1 \/ t ∈ targets nodes.
Proof.
  revert degrees. induction nodes as [|n nodes IH]; intros degrees; cbn [foldl].
  - rewrite targets_nil, elem_of_nil. naive_solver.
  - rewrite IH, elem_of_aupdate_keys, targets_cons, elem_of_cons. naive_solver.
Qed.

Lemma initialDegrees_keys nodes t :
  t ∈ (initialDegrees nodes).*1 <-> t ∈ targets nodes.
Proof.
  unfold initialDegrees. rewrite initialDegrees_keys_gen.
  rewrite fmap_nil, elem_of_nil. naive_solver.
Qed.

Lemma initialDegrees_NoDup nodes : NoDup (initialDegrees nodes).*1.
Proof.
  unfold initialDegrees.
  assert (forall degrees : Degrees, NoDup degrees.*1 ->
    NoDup (foldl (fun degrees node =>
                aupdate (ntarget node) (Z.of_nat (length (exports node))) degrees)
             degrees nodes).*1) as Hgen.
  { induction nodes as [|n nodes IH]; intros degrees Hd; cbn [foldl]; [done|].
    by apply IH, NoDup_aupdate. }
  apply Hgen. rewrite fmap_nil. apply NoDup_nil_2.
Qed.

Lemma initialDegrees_lookup nodes n :
  NoDup (targets nodes) -> n ∈ nodes ->
  alookup (ntarget n) (initialDegrees nodes) = Some (Z.of_nat (length (exports n))).
Proof.
  unfold initialDegrees.
  assert (forall degrees : Degrees, NoDup (targets nodes) ->
    (n ∈ nodes \/ alookup (ntarget n) degrees = Some (Z.of_nat (length (exports n)))
                  /\ ntarget n ∉ targets nodes) ->
    alookup (ntarget n)
      (foldl (fun degrees node =>
                aupdate (ntarget node) (Z.of_nat (length (exports node))) degrees)
             degrees nodes) = Some (Z.of_nat (length (exports n)))) as Hgen.
  { induction nodes as [|x nodes IH]; intros degrees Hnd Hn; cbn [foldl].
    - destruct Hn as [[]%elem_of_nil|[? _]]. done.
    - rewrite targets_cons in Hnd. apply NoDup_cons in Hnd as [Hx Hnd].
      apply IH; [done|].
      destruct Hn as [[->|Hn]%elem_of_cons|[Hl Hn]].
      + right. split; [|done]. by rewrite alookup_aupdate, decide_True.
      + by left.
      + right. rewrite targets_cons, not_elem_of_cons in Hn. destruct Hn.
        split; [|done]. by rewrite alookup_aupdate, decide_False. }
  intros Hnd Hn. apply Hgen; auto.
Qed.

Lemma decrementExporters_keys edges degrees q degrees' q' :
  decrementExporters edges degrees q = Ok (degrees', q') ->
  degrees'.*1 = degrees.*1.
Proof.
  revert degrees q. induction edges as [|e edges IH]; intros degrees q;
    cbn [decrementExporters].
  - by intros [= <- <-].
  - destruct (alookup (exporter e) degrees) as [d|] eqn:E; [|done].
    intros ->%IH. rewrite aupdate_keys, decide_True; [done|].
    apply alookup_is_Some. eauto.
Qed.

Lemma decrementExporters_queued edges degrees q degrees' q' :
  decrementExporters edges degrees q = Ok (degrees', q') ->
  queued degrees q -> queued degrees' q'.
Proof.
  revert degrees q. induction edges as [|e edges IH]; intros degrees q;
    cbn [decrementExporters].
  - by intros [= <- <-].
  - destruct (alookup (exporter e) degrees) as [d|] eqn:E; [|done].
    intros Hrest [Hnd Hq]. apply IH in Hrest; [done|]. clear IH. split.
    + case_decide as Hd; [|done]. apply NoDup_app. split_and!; [done| |apply NoDup_singleton].
      intros x Hx ->%list_elem_of_singleton.
      destruct (Hq _ Hx) as (d' & Hd' & ?). rewrite E in Hd'.
      injection Hd' as <-. lia.
    + intros x Hx. rewrite alookup_aupdate.
      destruct (decide (exporter e = x)) as [<-|Hne].
      * case_decide as Hd.
        -- exists (d - 1)%Z. split; [done|lia].
        -- destruct (Hq _ Hx) as (d' & Hd' & ?). rewrite E in Hd'.
           injection Hd' as <-. exists (d - 1)%Z. split; [done|lia].
      * apply Hq. case_decide; [|done].
        apply elem_of_app in Hx as [?|?%list_elem_of_singleton]; done.
Qed.

Lemma decrementExporters_Throw edges degrees q e :
  decrementExporters edges degrees q = Throw e ->
  exists k, e = NoSuchElementException_KeyNotFound k.
Proof.
  revert degrees q. induction edges as [|x edges IH]; intros degrees q;
    cbn [decrementExporters]; [done|].
  destruct (alookup (exporter x) degrees) as [d|] eqn:E; [apply IH|].
  intros [= <-]. eauto.
Qed.

Lemma decrementExporters_fuel edges degrees q :
  decrementExporters edges degrees q <> OutOfFuel.
Proof.
  revert degrees q. induction edges as [|x edges IH]; intros degrees q;
    cbn [decrementExporters]; [done|].
  destruct (alookup (exporter x) degrees) as [d|] eqn:E; [apply IH|done].
Qed.

Lemma length_filter_ne {A} `{EqDecision A} (l : list A) x :
  NoDup l -> x ∈ l -> S (length (filter (fun y => y <> x) l)) = length l.
Proof.
  induction l as [|y l IH]; [by intros _ ?%elem_of_nil|].
  rewrite NoDup_cons, filter_cons. intros [Hy Hl] [->|Hx]%elem_of_cons.
  - rewrite decide_False by (intros ?; done). cbn [length]. f_equal.
    f_equal. clear IH Hl. induction l as [|z l IH]; [done|].
    rewrite not_elem_of_cons in Hy. destruct Hy as [? ?].
    rewrite filter_cons, decide_True by done. f_equal. by apply IH.
  - rewrite decide_True by (intros ->; done). cbn [length]. f_equal. by apply IH.
Qed.

Lemma sortState_step g degrees item q' result d2 q2 :
  sortState g degrees (item :: q') result ->
  decrementExporters (exportedBy (nodeOf g item)) (aremove item degrees) q'
    = Ok (d2, q2) ->
  sortState g d2 q2 (nodeOf g item :: result) /\
  d2.*1 = filter (fun k => k <> item) degrees.*1 /\
  item ∈ degrees.*1.
Proof.
  intros (Hkeys & [Hq Hdeg] & Hres & Hdisj & Hnode) Hdec.
  apply NoDup_cons in Hq as [Hitem Hq].
  assert (item ∈ degrees.*1) as Hin.
  { destruct (Hdeg item) as (d & Hd & _); [left|]. apply alookup_is_Some. eauto. }
  assert (d2.*1 = filter (fun k => k <> item) degrees.*1) as Hk2.
  { by rewrite (decrementExporters_keys _ _ _ _ _ Hdec), aremove_keys. }
  split_and!; [|done..]. unfold sortState. split_and!.
  - rewrite Hk2. by apply NoDup_filter.
  - eapply decrementExporters_queued; [done|]. split; [done|].
    intros x Hx. rewrite alookup_aremove, decide_False.
    + apply Hdeg. by right.
    + intros ->. done.
  - rewrite targets_cons, ntarget_nodeOf. apply NoDup_cons. split; [|done].
    intros Hin'. by apply Hdisj in Hin'.
  - intros t. rewrite targets_cons, ntarget_nodeOf, Hk2, list_elem_of_filter.
    intros [->|Ht]%elem_of_cons; [naive_solver|].
    intros [_ ?]. by apply (Hdisj t).
  - intros n [->|Hn]%elem_of_cons; [by rewrite ntarget_nodeOf|by apply Hnode].
Qed.

Lemma drainQueue_general fuel g degrees q result :
  sortState g degrees q result -> length degrees <= fuel ->
  match drainQueue fuel g degrees q result with
  | Ok r =>
      sortState g r.1 [] r.2 /\
      (forall t, t ∈ r.1.*1 \/ t ∈ targets r.2 <->
                 t ∈ degrees.*1 \/ t ∈ targets result) /\
      length r.1 <= length degrees /\
      (q <> [] -> length r.1 < length degrees)
  | Throw e => exists k, e = NoSuchElementException_KeyNotFound k
  | OutOfFuel => False
  end.
Proof.
  revert degrees q result.
  induction fuel as [|fuel IH]; intros degrees q result Hst Hfuel.
  - destruct q as [|item q']; cbn [drainQueue].
    + cbn [fst snd]. split_and!; [done|done|done|done].
    + destruct Hst as (_ & [_ Hdeg] & _).
      destruct (Hdeg item) as (d & Hd & _); [left|].
      apply alookup_Some_elem in Hd. destruct degrees; [by apply elem_of_nil in Hd|].
      cbn [length] in Hfuel. lia.
  - destruct q as [|item q']; cbn [drainQueue].
    + cbn [fst snd]. split_and!; [done|done|done|done].
    + destruct (decrementExporters (exportedBy (nodeOf g item))
                  (aremove item degrees) q') as [[d2 q2]|e|] eqn:Hdec; cbn [bind].
      * destruct (sortState_step _ _ _ _ _ _ _ Hst Hdec) as (Hst2 & Hk2 & Hin).
        assert (S (length d2) = length degrees) as Hlen.
        { rewrite <-(length_fmap fst d2), Hk2, <-(length_fmap fst degrees).
          apply length_filter_ne; [apply Hst|done]. }
        cbn [fst snd]. specialize (IH d2 q2 (nodeOf g item :: result) Hst2).
        destruct (drainQueue fuel g d2 q2 (nodeOf g item :: result)) as [r|e|];
          [|apply IH; lia..].
        destruct IH as (Hst' & Hsets & Hle & _); [lia|].
        split_and!; [done| |lia|lia].
        intros t. rewrite Hsets, targets_cons, ntarget_nodeOf, Hk2,
          list_elem_of_filter, elem_of_cons.
        destruct (decide (t = item)) as [->|]; naive_solver.
      * by eapply decrementExporters_Throw.
      * by eapply decrementExporters_fuel.
Qed.

Lemma find_zero_Some `{HashOrder} (degrees : Degrees) entry :
  NoDup degrees.*1 ->
  List.find (fun kv => bool_decide (kv.2 = 0%Z)) (iterate degrees_iter degrees)
    = Some entry ->
  alookup entry.1 degrees = Some 0%Z.
Proof.
  intros Hnd [Hin Hz]%find_some.
  apply bool_decide_eq_true in Hz. apply list_elem_of_In in Hin.
  rewrite iterate_perm in Hin. destruct entry as [k d]. cbn [fst snd] in *.
  subst d. by apply alookup_NoDup.
Qed.

Lemma find_zero_None `{HashOrder} (degrees : Degrees) k :
  List.find (fun kv => bool_decide (kv.2 = 0%Z)) (iterate degrees_iter degrees)
    = None ->
  alookup k degrees <> Some 0%Z.
Proof.
  intros Hnone Hk. apply alookup_Some_elem in Hk.
  rewrite <-(iterate_perm degrees_iter) in Hk. apply list_elem_of_In in Hk.
  apply (find_none _ _ Hnone) in Hk. cbn [snd] in Hk.
  by apply bool_decide_eq_false in Hk.
Qed.

Lemma topsortLoop_general `{HashOrder} fuel g degrees result :
  sortState g degrees [] result -> length degrees <= fuel ->
  match topsortLoop fuel g degrees result with
  | Ok tops =>
      NoDup (targets tops) /\
      (forall t, t ∈ targets tops <-> t ∈ degrees.*1 \/ t ∈ targets result) /\
      (forall n, n ∈ tops -> n = nodeOf g (ntarget n))
  | Throw e =>
      e = NoSuchElementException_NoneGet \/
      exists k, e = NoSuchElementException_KeyNotFound k
  | OutOfFuel => False
  end.
Proof.
  revert degrees result.
  induction fuel as [|fuel IH]; intros degrees result Hst Hfuel.
  - destruct degrees; [|cbn [length] in Hfuel; lia]. cbn [topsortLoop].
    destruct Hst as (_ & _ & Hres & _ & Hnode). split_and!.
    + unfold targets. by rewrite fmap_reverse, reverse_Permutation.
    + intros t. unfold targets. rewrite fmap_reverse, elem_of_reverse, fmap_nil,
        elem_of_nil. naive_solver.
    + intros n Hn. rewrite elem_of_reverse in Hn. by apply Hnode.
  - destruct degrees as [|kv degrees'].
    { cbn [topsortLoop]. destruct Hst as (_ & _ & Hres & _ & Hnode). split_and!.
      + unfold targets. by rewrite fmap_reverse, reverse_Permutation.
      + intros t. unfold targets. rewrite fmap_reverse, elem_of_reverse, fmap_nil,
          elem_of_nil. naive_solver.
      + intros n Hn. rewrite elem_of_reverse in Hn. by apply Hnode. }
    cbn [topsortLoop]. set (degrees := kv :: degrees') in *. clearbody degrees.
    destruct (List.find _ (iterate degrees_iter degrees)) as [entry|] eqn:Hfind;
      [|by left].
    assert (sortState g degrees [entry.1] result) as Hst1.
    { destruct Hst as (Hkeys & _ & Hres & Hdisj & Hnode).
      split_and!; [done| |done..]. split; [apply NoDup_singleton|].
      intros x ->%list_elem_of_singleton. exists 0%Z. split; [|done].
      by apply find_zero_Some. }
    pose proof (drainQueue_general (length degrees) g degrees [entry.1] result
                  Hst1 (le_n _)) as Hdrain.
    destruct (drainQueue (length degrees) g degrees [entry.1] result)
      as [r|e|]; cbn [bind]; [|by right|done].
    destruct Hdrain as (Hst' & Hsets & _ & Hlt). specialize (Hlt ltac:(done)).
    specialize (IH r.1 r.2 Hst' ltac:(lia)).
    destruct (topsortLoop fuel g r.1 r.2) as [tops|e|]; [|done..].
    destruct IH as (Hnd & Hmem & Hnode). split_and!; [done| |done].
    intros t. by rewrite Hmem, Hsets.
Qed.

Lemma sortState_initial g : sortState g (initialDegrees g) [] [].
Proof.
  split_and!.
  - apply initialDegrees_NoDup.
  - split; [apply NoDup_nil_2|by intros ? ?%elem_of_nil].
  - apply NoDup_nil_2.
  - by intros ? ?%elem_of_nil.
  - by intros ? ?%elem_of_nil.
Qed.

Lemma length_initialDegrees g : length (initialDegrees g) <= length g.
Proof.
  rewrite <-(length_fmap fst (initialDegrees g)), <-(length_fmap ntarget g).
  apply submseteq_length, NoDup_submseteq; [apply initialDegrees_NoDup|].
  intros t. by rewrite initialDegrees_keys.
Qed.

(** [topsort] never runs out of fuel; when it returns, it returns the nodes
    of the arena, each target once; it throws nothing but
    [NoSuchElementException]. *)
Lemma topsort_general `{HashOrder} g :
  match topsort g with
  | Ok tops =>
      NoDup (targets tops) /\
      (forall t, t ∈ targets tops <-> t ∈ targets g) /\
      (forall n, n ∈ tops -> n = nodeOf g (ntarget n))
  | Throw e =>
      e = NoSuchElementException_NoneGet \/
      exists k, e = NoSuchElementException_KeyNotFound k
  | OutOfFuel => False
  end.
Proof.
  unfold topsort.
  pose proof (topsortLoop_general (length g) g (initialDegrees g) []
                (sortState_initial g) (length_initialDegrees g)) as Hloop.
  destruct (topsortLoop (length g) g (initialDegrees g) []) as [tops|e|];
    [|done..].
  destruct Hloop as (Hnd & Hmem & Hnode). split_and!; [done| |done].
  intros t. rewrite Hmem, initialDegrees_keys, targets_nil, elem_of_nil.
  naive_solver.
Qed.

Lemma fmap_nodeOf_targets g nodes :
  (forall n, n ∈ nodes -> n = nodeOf g (ntarget n)) ->
  nodeOf g <$> targets nodes = nodes.
Proof.
  intros Hn. unfold targets. rewrite <-list_fmap_compose.
  rewrite <-(list_fmap_id nodes) at 2. apply list_fmap_ext.
  intros _ n Hin%list_elem_of_lookup_2. cbn. symmetry. by apply Hn.
Qed.

Lemma topsort_Permutation `{HashOrder} g tops :
  NoDup (targets g) -> topsort g = Ok tops -> tops ≡ₚ g.
Proof.
  intros Hg Htop. pose proof (topsort_general g) as Hgen. rewrite Htop in Hgen.
  destruct Hgen as (Hnd & Hmem & Hnode).
  rewrite <-(fmap_nodeOf_targets g tops) by done.
  trans (nodeOf g <$> targets g).
  - f_equiv. by apply NoDup_Permutation.
  - rewrite fmap_nodeOf_targets; [done|].
    intros n Hn. symmetry. by apply nodeOf_NoDup.
Qed.

(** ** On the graphs of [buildGraph] *)

Lemma filter_all {A} (P : A -> Prop) `{forall x, Decision (P x)} (l : list A) :
  (forall x, x ∈ l -> P x) -> filter P l = l.
Proof.
  induction l as [|x l IH]; intros Hl; [done|].
  rewrite filter_cons, decide_True by (apply Hl; left).
  f_equal. apply IH. intros y Hy. apply Hl. by right.
Qed.

Lemma filter_exporter_edgesOf h m t :
  filter (fun e => exporter e = t) (edgesOf h m)
  = if decide (t = ResolvedModule m) then edgesOf h m else [].
Proof.
  case_decide as Ht.
  - apply filter_all. intros e He. apply exporter_edgesOf in He. congruence.
  - apply filter_none. intros e He Hex. apply exporter_edgesOf in He. congruence.
Qed.

Lemma filter_exporter_all_edges h ms t :
  NoDup ms ->
  filter (fun e => exporter e = t) (ms ≫= edgesOf h)
  = if decide (t ∈ ResolvedModule <$> ms) then edgesOf h (target_module t) else [].
Proof.
  induction ms as [|m ms IH]; intros Hnd.
  - rewrite decide_False; [done|]. rewrite fmap_nil. apply not_elem_of_nil.
  - apply NoDup_cons in Hnd as [Hm Hnd]. rewrite bind_cons, filter_app, IH by done.
    rewrite filter_exporter_edgesOf, fmap_cons.
    destruct (decide (t = ResolvedModule m)) as [->|Hne].
    + rewrite decide_False, app_nil_r, decide_True; [done|left|].
      intros (m' & [= <-] & ?)%list_elem_of_fmap. done.
    + destruct (decide (t ∈ ResolvedModule <$> ms)).
      * rewrite decide_True; [done|by right].
      * rewrite decide_False; [done|]. intros [?|?]%elem_of_cons; done.
Qed.

Lemma buildNodes_wf h ms : NoDup ms -> wf_graph (buildNodes h ms).
Proof.
  intros Hms. set (g := buildNodes h ms).
  assert (forall n e, n ∈ g -> e ∈ exports n ->
            exists m, m ∈ ms /\ ntarget n = ResolvedModule m /\ e ∈ edgesOf h m)
    as Hexp.
  { intros n e Hn He. rewrite (buildNodes_elem _ _ _ Hn), buildNodes_exports in He.
    case_decide as Ht; [|by apply elem_of_nil in He].
    apply list_elem_of_fmap in Ht as (m & Ht & Hm).
    exists m. rewrite Ht in He |- *. done. }
  assert (forall n e, n ∈ g -> e ∈ exportedBy n ->
            exportee e = ntarget n /\
            exists m, m ∈ ms /\ e ∈ edgesOf h m) as Hby.
  { intros n e Hn He.
    rewrite (buildNodes_elem _ _ _ Hn), buildNodes_exportedBy in He.
    apply list_elem_of_filter in He as [? He]. split; [done|].
    apply list_elem_of_bind in He as (m & ? & ?). eauto. }
  split.
  - apply buildNodes_NoDup.
  - intros n e Hn He. destruct (Hexp n e Hn He) as (m & _ & -> & He').
    by apply exporter_edgesOf in He'.
  - intros n e Hn He. destruct (Hexp n e Hn He) as (m & Hm & _ & He').
    apply buildNodes_targets. right. exists m. split; [done|].
    by apply exportee_edgesOf.
  - intros n e Hn He. by destruct (Hby n e Hn He).
  - intros n e Hn He. destruct (Hby n e Hn He) as (_ & m & Hm & He').
    apply exporter_edgesOf in He' as ->. apply buildNodes_targets. left.
    by apply list_elem_of_fmap_2.
  - intros n x Hn Hx.
    pose proof (buildNodes_exportedBy h ms (ntarget x)) as Hx'.
    rewrite <-(buildNodes_elem _ _ _ Hx) in Hx'.
    pose proof (buildNodes_exports h ms (ntarget n)) as Hn'.
    rewrite <-(buildNodes_elem _ _ _ Hn) in Hn'.
    rewrite Hx', Hn', <-filter_exporter_all_edges by done.
    rewrite !list_filter_filter.
    apply reflexive_eq, list_filter_iff. naive_solver.
Qed.

Lemma wf_graph_Permutation g g' : g ≡ₚ g' -> wf_graph g -> wf_graph g'.
Proof.
  intros Hp [H1 H2 H3 H4 H5 H6]. split.
  - unfold targets in *. by rewrite <-Hp.
  - intros n e Hn. rewrite <-Hp in Hn. by apply H2.
  - intros n e Hn He. rewrite <-Hp in Hn. unfold targets in *. rewrite <-Hp.
    by apply (H3 n e).
  - intros n e Hn. rewrite <-Hp in Hn. by apply H4.
  - intros n e Hn He. rewrite <-Hp in Hn. unfold targets in *. rewrite <-Hp.
    by apply (H5 n e).
  - intros n x Hn Hx. rewrite <-Hp in Hn, Hx. by apply H6.
Qed.

Lemma buildGraph_wf `{HashOrder} h ms : NoDup ms -> wf_graph (buildGraph h ms).
Proof.
  intros Hms. apply (wf_graph_Permutation (buildNodes h ms)).
  - symmetry. apply iterate_perm.
  - by apply buildNodes_wf.
Qed.

(** ** [topsort] on well-formed graphs *)

Lemma length_filter_split {A} (P Q : A -> Prop)
    `{forall x, Decision (P x)} `{forall x, Decision (Q x)} (l : list A) :
  length (filter P l)
  = length (filter (fun x => P x /\ Q x) l) + length (filter (fun x => P x /\ ~ Q x) l).
Proof.
  induction l as [|x l IH]; [done|].
  rewrite !filter_cons.
  destruct (decide (P x)), (decide (Q x));
    repeat first [rewrite decide_True by tauto | rewrite decide_False by tauto];
    cbn [length]; lia.
Qed.

Lemma openEdges_cons g sorted item n :
  item ∉ sorted ->
  openEdges g sorted n
  = openEdges g (item :: sorted) n
    + length (filter (fun e => exportee e = item) (exports (nodeOf g n))).
Proof.
  intros Hitem. unfold openEdges.
  rewrite (length_filter_split _ (fun e => exportee e = item)).
  rewrite Nat.add_comm. f_equal.
  - f_equal. apply list_filter_iff. intros e. rewrite not_elem_of_cons. naive_solver.
  - f_equal. apply list_filter_iff. intros e. naive_solver.
Qed.

Lemma openEdges_zero g sorted n e :
  openEdges g sorted n = 0 -> e ∈ exports (nodeOf g n) -> exportee e ∈ sorted.
Proof.
  unfold openEdges. intros Hz He. apply length_zero_iff_nil in Hz.
  destruct (decide (exportee e ∈ sorted)) as [|Hn]; [done|].
  exfalso. eapply (filter_nil_not_elem_of _ _ e Hz); done.
Qed.

Lemma openEdges_pos g sorted n :
  openEdges g sorted n <> 0 ->
  exists e, e ∈ exports (nodeOf g n) /\ exportee e ∉ sorted.
Proof.
  unfold openEdges. intros Hz.
  destruct (filter _ _) as [|e es] eqn:E; [done|].
  assert (e ∈ filter (fun e => exportee e ∉ sorted) (exports (nodeOf g n))) as He
    by (rewrite E; left).
  apply list_elem_of_filter in He as [? ?]. eauto.
Qed.

Lemma decrementExporters_wf g sorted pending degrees q :
  degreesOpen g degrees sorted pending ->
  (forall e, e ∈ pending -> exporter e ∈ degrees.*1) ->
  (forall x, x ∈ q -> alookup x degrees = Some 0%Z) ->
  exists degrees' q',
    decrementExporters pending degrees q = Ok (degrees', q') /\
    degreesOpen g degrees' sorted [] /\
    (forall x, x ∈ q' -> alookup x degrees' = Some 0%Z).
Proof.
  revert degrees q. induction pending as [|e pending IH]; intros degrees q Hopen Hkeys Hq.
  - exists degrees, q. done.
  - cbn [decrementExporters].
    destruct (alookup (exporter e) degrees) as [d|] eqn:Ed; last first.
    { apply alookup_None in Ed. destruct Ed. apply Hkeys. left. }
    pose proof (Hopen _ _ Ed) as Hd. rewrite filter_cons, decide_True in Hd by done.
    cbn [length] in Hd.
    apply IH.
    + intros n d'. rewrite alookup_aupdate.
      destruct (decide (exporter e = n)) as [<-|Hne].
      * intros [= <-]. lia.
      * intros Hn. apply Hopen in Hn. by rewrite filter_cons, decide_False in Hn.
    + intros e' He'. apply elem_of_aupdate_keys. right. apply Hkeys. by right.
    + intros x Hx. rewrite alookup_aupdate.
      destruct (decide (exporter e = x)) as [<-|Hne].
      * case_decide as Hz; [by rewrite Hz|].
        apply Hq in Hx. rewrite Ed in Hx. injection Hx as ->. lia.
      * apply Hq. case_decide; [|done].
        apply elem_of_app in Hx as [?|?%list_elem_of_singleton]; done.
Qed.

Lemma wfSortState_step g degrees item q' result :
  wf_graph g -> wfSortState g degrees (item :: q') result ->
  exists d2 q2,
    decrementExporters (exportedBy (nodeOf g item)) (aremove item degrees) q'
      = Ok (d2, q2) /\
    wfSortState g d2 q2 (nodeOf g item :: result).
Proof.
  intros Hwf (Hst & Hopen & Hsorted & Hcover & Hq).
  pose proof Hst as (Hkeys & [Hqnd Hqdeg] & Hres & Hdisj & Hnode).
  apply NoDup_cons in Hqnd as [Hitem_q Hqnd].
  assert (alookup item degrees = Some 0%Z) as Hitem0 by (apply Hq; left).
  assert (item ∈ degrees.*1) as Hitem_key by (apply alookup_is_Some; eauto).
  assert (item ∈ targets g) as Hitem_g by (apply Hcover; by left).
  assert (item ∉ targets result) as Hitem_res.
  { intros Hin. by apply Hdisj in Hin. }
  assert (openEdges g (targets result) item = 0) as Hzero.
  { apply Hopen in Hitem0. cbn [filter list_filter length] in Hitem0. lia. }
  assert (forall n e, n ∈ targets g -> e ∈ exportedBy (nodeOf g item) ->
            exporter e = n ->
            e ∈ exports (nodeOf g n) /\ exportee e = item) as Hmirror.
  { intros n e Hn He Hex.
    assert (e ∈ filter (fun e => exporter e = ntarget (nodeOf g n))
                  (exportedBy (nodeOf g item))) as Hin.
    { apply list_elem_of_filter. by rewrite ntarget_nodeOf. }
    rewrite (wf_back g Hwf) in Hin by by apply nodeOf_elem.
    apply list_elem_of_filter in Hin as [Hee Hin]. by rewrite ntarget_nodeOf in Hee. }
  destruct (decrementExporters_wf g (item :: targets result)
              (exportedBy (nodeOf g item)) (aremove item degrees) q')
    as (d2 & q2 & Hdec & Hopen2 & Hq2).
  - intros n d. rewrite alookup_aremove. case_decide as Hne; [done|]. intros Hn.
    assert (n ∈ targets g) as Hng.
    { apply Hcover. left. apply alookup_is_Some. eauto. }
    apply Hopen in Hn. cbn [filter list_filter length] in Hn.
    rewrite (openEdges_cons g _ item) in Hn by done.
    pose proof (wf_back g Hwf (nodeOf g n) (nodeOf g item)
                  (nodeOf_elem _ _ Hng) (nodeOf_elem _ _ Hitem_g)) as Hback.
    rewrite !ntarget_nodeOf in Hback. apply Permutation_length in Hback.
    rewrite Hback. lia.
  - intros e He.
    assert (exporter e ∈ targets g) as Hng.
    { eapply (wf_back_exporter g Hwf); [|done]. by apply nodeOf_elem. }
    destruct (Hmirror _ e Hng He eq_refl) as [Hexp Hee].
    rewrite aremove_keys. apply list_elem_of_filter.
    apply Hcover in Hng as [Hk|Hr].
    + split; [|done]. intros Heq. rewrite Heq in Hexp.
      apply (openEdges_zero _ _ _ _ Hzero) in Hexp. congruence.
    + exfalso. apply list_elem_of_fmap in Hr as (y & Hy & Hyin).
      apply list_elem_of_split in Hyin as (l1 & l2 & Hsplit).
      assert (y = nodeOf g (exporter e)) as Hyeq.
      { rewrite Hy. apply Hnode. rewrite Hsplit. apply elem_of_app. right. left. }
      rewrite <-Hyeq in Hexp.
      pose proof (Hsorted l1 y l2 e Hsplit Hexp) as Hin. rewrite Hee in Hin.
      apply Hitem_res. rewrite Hsplit, targets_app, targets_cons.
      apply elem_of_app. right. by right.
  - intros x Hx. rewrite alookup_aremove, decide_False.
    + apply Hq. by right.
    + intros ->. done.
  - exists d2, q2. split; [done|].
    destruct (sortState_step _ _ _ _ _ _ _ Hst Hdec) as (Hst2 & Hk2 & _).
    split_and!; [done| | | |done].
    + by rewrite targets_cons, ntarget_nodeOf.
    + intros l1 n l2 e Hsplit He. destruct l1 as [|y l1].
      * injection Hsplit as <- <-. by apply (openEdges_zero _ _ _ _ Hzero).
      * injection Hsplit as <- ->. by eapply Hsorted.
    + intros t. rewrite targets_cons, ntarget_nodeOf, Hk2, list_elem_of_filter,
        elem_of_cons, Hcover.
      destruct (decide (t = item)) as [->|]; naive_solver.
Qed.

Lemma drainQueue_wf fuel g degrees q result :
  wf_graph g -> wfSortState g degrees q result -> length degrees <= fuel ->
  exists degrees' result',
    drainQueue fuel g degrees q result = Ok (degrees', result') /\
    wfSortState g degrees' [] result' /\
    (q <> [] -> length degrees' < length degrees) /\
    length degrees' <= length degrees.
Proof.
  intros Hwf. revert degrees q result.
  induction fuel as [|fuel IH]; intros degrees q result Hst Hfuel;
    destruct q as [|item q'].
  - exists degrees, result. split_and!; done.
  - destruct Hst as (_ & _ & _ & _ & Hq).
    assert (alookup item degrees = Some 0%Z) as Hd by (apply Hq; left).
    apply alookup_Some_elem in Hd. destruct degrees; [by apply elem_of_nil in Hd|].
    cbn [length] in Hfuel. lia.
  - exists degrees, result. split_and!; done.
  - cbn [drainQueue].
    destruct (wfSortState_step _ _ _ _ _ Hwf Hst) as (d2 & q2 & Hdec & Hst2).
    rewrite Hdec. cbn [bind fst snd].
    destruct Hst as (Hst & _).
    destruct (sortState_step _ _ _ _ _ _ _ Hst Hdec) as (_ & Hk2 & Hin).
    assert (S (length d2) = length degrees) as Hlen.
    { rewrite <-(length_fmap fst d2), Hk2, <-(length_fmap fst degrees).
      apply length_filter_ne; [apply Hst|done]. }
    destruct (IH d2 q2 (nodeOf g item :: result) Hst2)
      as (degrees' & result' & Hdrain & Hst' & _ & Hle); [lia|].
    exists degrees', result'. split_and!; [done|done|lia|lia].
Qed.

Lemma sortedBefore_reverse result : sortedBefore result -> topoSorted (reverse result).
Proof.
  intros Hs l1 n l2 e Hsplit He.
  assert (result = reverse l2 ++ n :: reverse l1) as Hres.
  { rewrite <-(reverse_involutive result), Hsplit, reverse_app, reverse_cons.
    by rewrite <-app_assoc. }
  pose proof (Hs _ _ _ e Hres He) as Hin.
  unfold targets in *. by rewrite fmap_reverse, elem_of_reverse in Hin.
Qed.

Lemma topsortLoop_wf `{HashOrder} fuel g degrees result :
  wf_graph g -> wfSortState g degrees [] result -> length degrees <= fuel ->
  (exists tops, topsortLoop fuel g degrees result = Ok tops /\ topoSorted tops) \/
  (topsortLoop fuel g degrees result = Throw NoSuchElementException_NoneGet /\
   exists S, trapped g S).
Proof.
  intros Hwf. revert degrees result.
  induction fuel as [|fuel IH]; intros degrees result Hst Hfuel.
  - destruct degrees; [|cbn [length] in Hfuel; lia]. left.
    exists (reverse result). split; [reflexivity|].
    apply sortedBefore_reverse, Hst.
  - destruct degrees as [|kv degrees'].
    { left. exists (reverse result). split; [reflexivity|].
      apply sortedBefore_reverse, Hst. }
    cbn [topsortLoop]. set (degrees := kv :: degrees') in *.
    assert (degrees <> []) as Hne by done. clearbody degrees.
    destruct (List.find _ (iterate degrees_iter degrees)) as [entry|] eqn:Hfind.
    + assert (wfSortState g degrees [entry.1] result) as Hst1.
      { destruct Hst as ((Hkeys & _ & Hres & Hdisj & Hnode) & Hopen & Hs & Hc & _).
        pose proof (find_zero_Some _ _ Hkeys Hfind) as Hz.
        split_and!; [|done..|].
        - split_and!; [done| |done..]. split; [apply NoDup_singleton|].
          intros x ->%list_elem_of_singleton. exists 0%Z. done.
        - by intros x ->%list_elem_of_singleton. }
      destruct (drainQueue_wf (length degrees) g degrees [entry.1] result Hwf Hst1)
        as (d' & r' & Hdrain & Hst' & Hlt & _); [done|].
      rewrite Hdrain. cbn [bind fst snd]. apply IH; [done|].
      specialize (Hlt ltac:(done)). lia.
    + right. split; [done|]. exists degrees.*1. split.
      { destruct degrees; done. }
      destruct Hst as (_ & Hopen & _ & Hcover & _).
      intros n [d Hd]%alookup_is_Some.
      pose proof (find_zero_None _ n Hfind) as Hnz.
      pose proof (Hopen _ _ Hd) as Hdeq. cbn [filter list_filter length] in Hdeq.
      destruct (openEdges_pos g (targets result) n) as (e & He & Hee).
      { intros Hz. apply Hnz. rewrite Hd, Hdeq, Hz. done. }
      exists (exportee e). split; [|by exists e].
      assert (n ∈ targets g) as Hng.
      { apply Hcover. left. apply alookup_is_Some. eauto. }
      assert (exportee e ∈ targets g) as Heg.
      { eapply (wf_exportee g Hwf); [|done]. by apply nodeOf_elem. }
      apply Hcover in Heg as [?|?]; done.
Qed.

Lemma wfSortState_initial g : wf_graph g -> wfSortState g (initialDegrees g) [] [].
Proof.
  intros Hwf. split_and!.
  - apply sortState_initial.
  - intros n d Hd. cbn [filter list_filter length].
    assert (n ∈ targets g) as Hn.
    { apply initialDegrees_keys, alookup_is_Some. eauto. }
    pose proof (initialDegrees_lookup g (nodeOf g n) (wf_NoDup g Hwf)
                  (nodeOf_elem _ _ Hn)) as Hl.
    rewrite ntarget_nodeOf, Hd in Hl. injection Hl as ->.
    unfold openEdges. rewrite filter_all; [f_equal; lia|].
    intros e _. apply not_elem_of_nil.
  - by intros [|??] ? ? ? ?.
  - intros t. rewrite initialDegrees_keys, targets_nil, elem_of_nil. naive_solver.
  - by intros ? ?%elem_of_nil.
Qed.

(** On a well-formed graph [topsort] either returns the nodes in
    exportee-before-exporter order, or fails on the [.get] of an empty
    search while a set of nodes remains in which every node still exports
    another node of the set. *)
Lemma topsort_wf `{HashOrder} g :
  wf_graph g ->
  (exists tops, topsort g = Ok tops /\ tops ≡ₚ g /\ topoSorted tops) \/
  (topsort g = Throw NoSuchElementException_NoneGet /\ exists S, trapped g S).
Proof.
  intros Hwf. unfold topsort.
  destruct (topsortLoop_wf (length g) g (initialDegrees g) [] Hwf
              (wfSortState_initial g Hwf) (length_initialDegrees g))
    as [(tops & Htop & Hsorted)|?]; [left|by right].
  exists tops. split_and!; [done| |done].
  apply topsort_Permutation; [apply Hwf|done].
Qed.

(** ** Orders, walks and cycles *)

Lemma edgeTo_in_graph g a b : edgeTo g a b -> a ∈ targets g.
Proof.
  intros (e & He & _). destruct (decide (a ∈ targets g)) as [|Hn]; [done|].
  apply lookupNode_None in Hn. unfold nodeOf in He. rewrite Hn in He.
  by apply elem_of_nil in He.
Qed.

Lemma ranked_acyclic g (l : list ImportTarget) :
  NoDup l ->
  (forall a b, edgeTo g a b ->
     exists i j, l !! i = Some a /\ l !! j = Some b /\ j < i) ->
  acyclic g.
Proof.
  intros Hnd Hrank.
  assert (forall a b, tc (edgeTo g) a b ->
            exists i j, l !! i = Some a /\ l !! j = Some b /\ j < i) as Htc.
  { intros a b Hab. induction Hab as [a b Hab|a b c Hab _ IH]; [by apply Hrank|].
    destruct (Hrank _ _ Hab) as (i & j & Hi & Hj & Hlt).
    destruct IH as (i' & j' & Hi' & Hj' & Hlt').
    assert (j = i') as -> by by eapply NoDup_lookup.
    exists i, j'. split_and!; [done..|lia]. }
  intros a (i & j & Hi & Hj & Hlt)%Htc.
  assert (i = j) by by eapply NoDup_lookup. lia.
Qed.

Lemma topoSorted_acyclic g tops :
  NoDup (targets g) -> tops ≡ₚ g -> topoSorted tops -> acyclic g.
Proof.
  intros Hg Hp Hs. apply (ranked_acyclic g (targets tops)).
  { unfold targets. by rewrite Hp. }
  intros a b Hab. pose proof (edgeTo_in_graph _ _ _ Hab) as Ha.
  destruct Hab as (e & He & <-).
  assert (nodeOf g a ∈ tops) as Hin by (rewrite Hp; by apply nodeOf_elem).
  apply list_elem_of_split in Hin as (l1 & l2 & Hsplit).
  pose proof (Hs _ _ _ e Hsplit He) as Hb.
  apply list_elem_of_lookup in Hb as [j Hj].
  exists (length (targets l1)), j. rewrite Hsplit, targets_app, targets_cons.
  split_and!.
  - rewrite lookup_app_r, Nat.sub_diag by done. cbn. by rewrite ntarget_nodeOf.
  - rewrite lookup_app_l; [done|]. by eapply lookup_lt_Some.
  - by eapply lookup_lt_Some.
Qed.

Lemma walk_cons g a b l : walk g (a :: b :: l) <-> edgeTo g a b /\ walk g (b :: l).
Proof. done. Qed.

Lemma walk_app_r g l1 l2 : walk g (l1 ++ l2) -> walk g l2.
Proof.
  induction l1 as [|a l1 IH]; [done|].
  destruct l1 as [|b l1]; cbn [app].
  - destruct l2; [done|]. by intros [_ ?].
  - intros [_ ?]. by apply IH.
Qed.

Lemma walk_app_l g l1 l2 : walk g (l1 ++ l2) -> walk g l1.
Proof.
  induction l1 as [|a l1 IH]; [done|].
  destruct l1 as [|b l1]; [done|].
  cbn [app]. intros [? ?]. split; [done|]. by apply IH.
Qed.

Lemma walk_tc g a l b : walk g (a :: l ++ [b]) -> tc (edgeTo g) a b.
Proof.
  revert a. induction l as [|c l IH]; intros a; cbn [app].
  - intros [? _]. by apply tc_once.
  - intros [? ?]. eapply tc_l; [done|]. by apply IH.
Qed.

Lemma isCycle_tc g c : isCycle g c -> exists a, a ∈ c /\ tc (edgeTo g) a a.
Proof.
  destruct c as [|a c]; [done|]. cbn [closedChain app].
  intros Hw. exists a. split; [left|]. by eapply walk_tc.
Qed.

Lemma not_NoDup_split {A} `{EqDecision A} (l : list A) :
  ~ NoDup l -> exists x l1 l2 l3, l = l1 ++ x :: l2 ++ x :: l3.
Proof.
  induction l as [|y l IH]; intros Hnd.
  - destruct Hnd. apply NoDup_nil_2.
  - destruct (decide (y ∈ l)) as [Hy|Hy].
    + apply list_elem_of_split in Hy as (l2 & l3 & ->). by exists y, [], l2, l3.
    + destruct IH as (x & l1 & l2 & l3 & ->).
      { intros Hl. apply Hnd. by apply NoDup_cons. }
      by exists x, (y :: l1), l2, l3.
Qed.

Lemma trapped_walk g S k n :
  trapped g S -> n ∈ S ->
  exists p, length p = k /\ walk g (n :: p) /\ forall x, x ∈ p -> x ∈ S.
Proof.
  intros [_ Hstep]. revert n. induction k as [|k IH]; intros n Hn.
  - exists []. split_and!; [done..|]. by intros ? ?%elem_of_nil.
  - destruct (Hstep n Hn) as (n' & Hn' & Hedge).
    destruct (IH n' Hn') as (p & Hlen & Hw & Hin).
    exists (n' :: p). split_and!.
    + cbn [length]. by rewrite Hlen.
    + by apply walk_cons.
    + intros x [->|?]%elem_of_cons; auto.
Qed.

Lemma trapped_cyclic g S : trapped g S -> exists a, tc (edgeTo g) a a.
Proof.
  intros Htr. pose proof Htr as [Hne _].
  destruct S as [|n S'] eqn:ES; [done|]. rewrite <-ES in *.
  destruct (trapped_walk g S (length S) n Htr) as (p & Hlen & Hw & Hin).
  { rewrite ES. left. }
  destruct (not_NoDup_split (n :: p)) as (x & l1 & l2 & l3 & Hsplit).
  { intros Hnd. apply NoDup_submseteq with (k := S) in Hnd.
    - apply submseteq_length in Hnd. cbn [length] in Hnd. lia.
    - intros y [->|?]%elem_of_cons; [rewrite ES; left|auto]. }
  exists x. rewrite Hsplit in Hw. apply walk_app_r in Hw.
  apply (walk_tc g x l2 x).
  apply (walk_app_l g (x :: l2 ++ [x]) l3).
  by rewrite <-app_comm_cons, <-app_assoc.
Qed.

(** On a well-formed acyclic graph [topsort] returns. *)
Lemma topsort_acyclic `{HashOrder} g :
  wf_graph g -> acyclic g ->
  exists tops, topsort g = Ok tops /\ tops ≡ₚ g /\ topoSorted tops.
Proof.
  intros Hwf Hac. destruct (topsort_wf g Hwf) as [?|(_ & S & Htr)]; [done|].
  apply trapped_cyclic in Htr as [a Ha]. by apply Hac in Ha.
Qed.

(** On a well-formed graph with a cycle [topsort] fails on [.get]. *)
Lemma topsort_cyclic `{HashOrder} g a :
  wf_graph g -> tc (edgeTo g) a a ->
  topsort g = Throw NoSuchElementException_NoneGet.
Proof.
  intros Hwf Ha. destruct (topsort_wf g Hwf) as [(tops & _ & Hp & Hs)|[? _]]; [|done].
  exfalso. eapply (topoSorted_acyclic g tops); [apply Hwf|done..].
Qed.

(** * Properties of [findCycles] *)

Lemma size_list_to_set_le (l : list ImportTarget) :
  size (list_to_set l : gset ImportTarget) <= length l.
Proof.
  induction l as [|x l IH]; cbn [list_to_set length].
  - by rewrite size_empty.
  - destruct (decide (x ∈ (list_to_set l : gset ImportTarget))) as [Hx|Hx].
    + assert ({[x]} ∪ list_to_set l = (list_to_set l : gset ImportTarget)) as ->
        by set_solver.
      lia.
    + rewrite size_union by set_solver. rewrite size_singleton. lia.
Qed.

Lemma chain_cons_head {A} (R : A -> A -> Prop) a c l :
  head l = Some c -> R a c -> chain R l -> chain R (a :: l).
Proof. destruct l as [|c' l]; [done|]. intros [= ->] ? ?. by split. Qed.

Lemma edgeTo_child g node c :
  c ∈ exportee <$> exports (nodeOf g node) <-> edgeTo g node c.
Proof. unfold edgeTo. rewrite list_elem_of_fmap. naive_solver. Qed.

Lemma finishedInOrder_add g V l2 node :
  NoDup l2 -> (forall t, t ∈ V <-> t ∈ l2) ->
  (forall a b, a ∈ l2 -> edgeTo g a b ->
     exists i j, l2 !! i = Some a /\ l2 !! j = Some b /\ j < i) ->
  (forall c, edgeTo g node c -> c ∈ V) ->
  finishedInOrder g ({[node]} ∪ V).
Proof.
  intros Hnd Hmem Hrank Hchildren.
  destruct (decide (node ∈ l2)) as [Hin|Hnin].
  - exists l2. split_and!; [done| |done].
    intros t. rewrite elem_of_union, elem_of_singleton, Hmem. naive_solver.
  - exists (l2 ++ [node]). split_and!.
    + apply NoDup_app. split_and!; [done| |apply NoDup_singleton].
      by intros x Hx ->%list_elem_of_singleton.
    + intros t. rewrite elem_of_union, elem_of_singleton, Hmem, elem_of_app,
        list_elem_of_singleton. naive_solver.
    + intros a b [Ha| ->%list_elem_of_singleton]%elem_of_app Hab.
      * destruct (Hrank a b Ha Hab) as (i & j & Hi & Hj & Hlt).
        exists i, j. split_and!; [| |done].
        -- rewrite lookup_app_l; [done|]. by eapply lookup_lt_Some.
        -- rewrite lookup_app_l; [done|]. by eapply lookup_lt_Some.
      * apply Hchildren, Hmem, list_elem_of_lookup in Hab as [j Hj].
        exists (length l2), j. split_and!.
        -- by rewrite lookup_app_r, Nat.sub_diag.
        -- rewrite lookup_app_l; [done|]. by eapply lookup_lt_Some.
        -- by eapply lookup_lt_Some.
Qed.

Lemma app_eq_self_l {A} (new l : list A) : new ++ l = l -> new = [].
Proof.
  intros Heq. apply (f_equal length) in Heq. rewrite length_app in Heq.
  destruct new; [done|]. cbn [length] in Heq. lia.
Qed.

Section flatMapGo.
Context (g : list Node) (fuel : nat).
Context (f : ImportTarget -> CycleSearch
             -> Result (option (ImportTarget * list ImportTarget) * CycleSearch)).
Hypothesis Hf : forall c st, size (unseen g st) < fuel ->
  exists res st', f c st = Ok (res, st') /\ goPost g st c res st'.

Lemma flatMapGo_spec children st :
  children = [] \/ size (unseen g st) < fuel ->
  exists results st',
    flatMapGo f children st = Ok (results, st') /\
    inProgress st' = inProgress st /\
    visited st ⊆ visited st' /\
    (exists new, foundCycles st' = new ++ foundCycles st /\ Forall (isCycle g) new) /\
    Forall (fun r => exists c, c ∈ children /\ resultWalk g c (Some r)
                               /\ r.1 ∈ inProgress st) results /\
    (foundCycles st' = foundCycles st -> results = [] ->
     finishedInOrder g (visited st) ->
     finishedInOrder g (visited st') /\ forall c, c ∈ children -> c ∈ visited st').
Proof using Hf.
  revert st. induction children as [|c children IH]; intros st Hfuel.
  - exists [], st. split_and!; [done..| | |].
    + by exists [].
    + apply Forall_nil_2.
    + intros _ _ ?. split; [done|]. by intros ? ?%elem_of_nil.
  - destruct Hfuel as [?|Hfuel]; [done|].
    destruct (Hf c st Hfuel) as (res & st1 & Hgo & [HP HV (new1 & HF1 & Hnew1) Hw Hs Hc]).
    cbn [flatMapGo]. rewrite Hgo. cbn [bind fst snd].
    destruct (IH st1) as (results & st' & Hrest & HP' & HV' & (new2 & HF2 & Hnew2)
                          & Hres & Hclean).
    { right. eapply Nat.le_lt_trans; [|done]. apply subseteq_size.
      unfold unseen. rewrite HP. set_solver. }
    rewrite Hrest. cbn [bind fst snd].
    exists (option_list res ++ results), st'. split_and!; [done| | | | |].
    + by rewrite HP'.
    + set_solver.
    + exists (new2 ++ new1). split; [by rewrite HF2, HF1, app_assoc|].
      by apply Forall_app.
    + apply Forall_app. split.
      * destruct res as [[m path]|]; [|apply Forall_nil_2].
        apply Forall_singleton. exists c. split_and!; [left|done|by eapply Hs].
      * eapply Forall_impl; [done|]. intros r (c' & Hc' & Hw' & Hr').
        exists c'. split_and!; [by right|done|by rewrite <-HP].
    + intros HFeq Hnil Hfin.
      assert (new1 = [] /\ new2 = []) as [-> ->].
      { rewrite HF2, HF1, app_assoc in HFeq. apply app_eq_self_l in HFeq.
        by apply app_eq_nil in HFeq as [-> ->]. }
      apply app_eq_nil in Hnil as [Hres1 ->].
      assert (res = None) as -> by by destruct res.
      destruct (Hc HF1 eq_refl Hfin) as [Hfin1 Hc1].
      destruct (Hclean HF2 eq_refl Hfin1) as [Hfin' Hcs].
      split; [done|]. intros c' [->|?]%elem_of_cons; [set_solver|auto].
Qed.
End flatMapGo.

Lemma go_spec fuel g node st :
  size (unseen g st) < fuel ->
  exists res st', go fuel g node st = Ok (res, st') /\ goPost g st node res st'.
Proof.
  revert node st. induction fuel as [|fuel IH]; intros node st Hfuel; [lia|].
  cbn [go].
  destruct (decide (node ∈ inProgress st)) as [HinP|HninP].
  { exists (Some (node, [])), st. split; [done|]. split; [done..| | | |].
    - by exists [].
    - done.
    - by intros m path [= <- <-].
    - done. }
  destruct (decide (node ∈ visited st)) as [HinV|HninV].
  { exists None, st. split; [done|]. split; [done..| | | |]; [by exists []|done..]. }
  set (st1 := mkCycleSearch (visited st) ({[node]} ∪ inProgress st) (foundCycles st)).
  set (children := exportee <$> exports (nodeOf g node)).
  destruct (flatMapGo_spec g fuel (go fuel g) (fun c st => IH c st) children st1)
    as (results & st2 & Hflat & HP2 & HV2 & (new & HF2 & Hnew) & Hres & Hclean).
  { destruct (decide (node ∈ targets g)) as [Hng|Hng].
    - right. assert (unseen g st1 ⊂ unseen g st) as Hsub%subset_size; [|lia].
      unfold unseen, st1. cbn [visited inProgress].
      split; [set_solver|]. intros Hsub.
      assert (node ∈ (list_to_set (targets g) : gset ImportTarget)
                     ∖ (visited st ∪ inProgress st)) as Hn.
      { rewrite elem_of_difference, elem_of_list_to_set. set_solver. }
      apply Hsub in Hn. set_solver.
    - left. unfold children, nodeOf.
      apply lookupNode_None in Hng. by rewrite Hng. }
  rewrite Hflat. cbn [bind fst snd].
  set (st3 := mkCycleSearch ({[node]} ∪ visited st2) (inProgress st2 ∖ {[node]})
                (foundCycles st2)).
  assert (inProgress st3 = inProgress st) as HP3.
  { unfold st3. cbn [inProgress]. rewrite HP2. unfold st1. cbn [inProgress].
    set_solver. }
  assert (visited st ⊆ visited st3) as HV3.
  { unfold st3, st1 in *. cbn [visited] in *. set_solver. }
  destruct results as [|[md path] results'].
  - exists None, st3. split; [done|]. split; [done|done| |done|done|].
    + by exists new.
    + intros HFeq _ Hfin. unfold st3 in *. cbn [foundCycles visited] in *.
      destruct (Hclean HFeq eq_refl Hfin) as [(l2 & Hnd & Hmem & Hrank) Hchildren].
      split; [|set_solver].
      eapply finishedInOrder_add; [done..|].
      intros c Hc. by apply Hchildren, edgeTo_child.
  - apply Forall_cons in Hres as [(c & Hc & [Hhead Hwalk] & Hmd) _].
    cbn [fst] in Hmd. apply edgeTo_child in Hc.
    destruct (decide (md = node)) as [->|Hne].
    + eexists None, _. split; [done|].
      split; cbn [foundCycles visited inProgress]; [done|done| |done|done|].
      * exists ((node :: path) :: new). unfold st3. cbn [foundCycles].
        rewrite HF2. split; [done|].
        apply Forall_cons. split; [|done].
        cbn [closedChain]. rewrite <-app_comm_cons.
        by eapply chain_cons_head.
      * intros HFeq. exfalso. unfold st3 in HFeq. cbn [foundCycles] in HFeq.
        rewrite HF2 in HFeq.
        by apply (app_eq_self_l ((node :: path) :: new)) in HFeq.
    + exists (Some (md, node :: path)), st3. split; [done|].
      split; [done|done| | | |done].
      * by exists new.
      * split; [done|]. rewrite <-app_comm_cons. by eapply chain_cons_head.
      * intros m path' [= <- <-]. unfold st1 in Hmd. cbn [inProgress] in Hmd.
        set_solver.
Qed.

Lemma goAll_spec fuel g nodes st :
  size (unseen g st) < fuel -> inProgress st = ∅ ->
  exists st',
    goAll fuel g nodes st = Ok st' /\
    inProgress st' = ∅ /\
    visited st ⊆ visited st' /\
    (exists new, foundCycles st' = new ++ foundCycles st /\ Forall (isCycle g) new) /\
    (foundCycles st' = foundCycles st -> finishedInOrder g (visited st) ->
     finishedInOrder g (visited st') /\ forall n, n ∈ nodes -> ntarget n ∈ visited st').
Proof.
  revert st. induction nodes as [|n nodes IH]; intros st Hfuel HP.
  - exists st. split_and!; [done..| |].
    + by exists [].
    + intros _ ?. split; [done|]. by intros ? ?%elem_of_nil.
  - destruct (go_spec fuel g (ntarget n) st Hfuel)
      as (res & st1 & Hgo & [HP1 HV1 (new1 & HF1 & Hnew1) _ Hsome Hclean1]).
    assert (res = None) as ->.
    { destruct res as [[m path]|]; [|done].
      specialize (Hsome m path eq_refl). rewrite HP in Hsome. set_solver. }
    cbn [goAll]. rewrite Hgo. cbn [bind fst snd].
    destruct (IH st1) as (st' & Hrest & HP' & HV' & (new2 & HF2 & Hnew2) & Hclean).
    { eapply Nat.le_lt_trans; [|done]. apply subseteq_size.
      unfold unseen. rewrite HP1. set_solver. }
    { by rewrite HP1. }
    exists st'. split_and!; [done|done|set_solver| |].
    + exists (new2 ++ new1). split; [by rewrite HF2, HF1, app_assoc|].
      by apply Forall_app.
    + intros HFeq Hfin.
      assert (new1 = [] /\ new2 = []) as [-> ->].
      { rewrite HF2, HF1, app_assoc in HFeq. apply app_eq_self_l in HFeq.
        by apply app_eq_nil in HFeq as [-> ->]. }
      destruct (Hclean1 HF1 eq_refl Hfin) as [Hfin1 Hn1].
      destruct (Hclean HF2 Hfin1) as [Hfin' Hns].
      split; [done|]. intros n' [->|?]%elem_of_cons; [set_solver|auto].
Qed.

(** [findCycles] returns; every cycle it reports is a genuine cycle of the
    graph; and when it reports none, the graph has none. *)
Lemma findCycles_spec g :
  exists cycles,
    findCycles g = Ok cycles /\
    Forall (isCycle g) cycles /\
    (cycles = [] -> acyclic g).
Proof.
  unfold findCycles.
  destruct (goAll_spec (S (length g)) g g (mkCycleSearch ∅ ∅ []))
    as (st' & Hgo & _ & _ & (new & HF & Hnew) & Hclean).
  { unfold unseen. cbn [visited inProgress].
    eapply Nat.le_lt_trans; [apply subseteq_size|].
    - apply subseteq_difference_l. reflexivity.
    - pose proof (size_list_to_set_le (targets g)) as Hle.
      unfold targets in Hle at 2. rewrite length_fmap in Hle. lia. }
  { done. }
  rewrite Hgo. cbn [bind]. exists (foundCycles st'). split; [done|].
  cbn [foundCycles] in HF. rewrite app_nil_r in HF. rewrite HF. split; [done|].
  intros ->. cbn [foundCycles] in Hclean.
  destruct Hclean as [(l & Hnd & Hmem & Hrank) Hall]; [by rewrite HF| |].
  { exists []. split_and!; [apply NoDup_nil_2| |by intros ? ? ?%elem_of_nil].
    intros t. cbn [visited]. rewrite elem_of_nil. set_solver. }
  apply (ranked_acyclic g l Hnd). intros a b Hab. apply Hrank; [|done].
  apply Hmem. apply edgeTo_in_graph in Hab.
  apply list_elem_of_fmap in Hab as (n & -> & Hn). by apply Hall.
Qed.

(** * Properties of [run]: the resolved exports *)

Lemma run_Ok_inv `{CompilerContext} `{HashOrder} h ms l h' :
  run h ms = Ok (l, h') ->
  exists tops h1,
    findCycles (buildGraph h ms) = Ok [] /\
    topsort (buildGraph h ms) = Ok tops /\
    resolveExports tops h = Ok h1 /\
    resolveExportedSymbols (moduleTargets (ntarget <$> tops)) h1 = Ok h' /\
    l = lastOccurrences (ntarget <$> tops).
Proof.
  unfold run.
  destruct (findCycles (buildGraph h ms)) as [[|c cs]| |]; cbn [bind]; [|done..].
  destruct (topsort (buildGraph h ms)) as [tops| |]; cbn [bind]; [|done..].
  destruct (resolveExports tops h) as [h1| |] eqn:E1; cbn [bind]; [|done..].
  destruct (resolveExportedSymbols _ h1) as [h2| |] eqn:E2; cbn [bind]; [|done..].
  intros [= <- <-]. exists tops, h1. by split_and!.
Qed.

Lemma buildGraph_NoDup `{HashOrder} h ms : NoDup (targets (buildGraph h ms)).
Proof.
  unfold buildGraph, targets. rewrite iterate_perm. apply buildNodes_NoDup.
Qed.

Lemma targets_buildGraph `{HashOrder} h ms t :
  t ∈ targets (buildGraph h ms) <-> t ∈ targets (buildNodes h ms).
Proof. unfold buildGraph, targets. by rewrite iterate_perm. Qed.

Lemma nodeOf_Permutation g g' t :
  NoDup (targets g) -> g ≡ₚ g' -> nodeOf g' t = nodeOf g t.
Proof.
  intros Hg Hp. assert (NoDup (targets g')) as Hg'.
  { unfold targets. by rewrite <-Hp. }
  unfold nodeOf. destruct (lookupNode t g) as [n|] eqn:E.
  - apply lookupNode_Some in E as [Hn <-].
    rewrite lookupNode_NoDup; [done|done|by rewrite <-Hp].
  - apply lookupNode_None in E.
    assert (lookupNode t g' = None) as ->; [|done].
    apply lookupNode_None. unfold targets in *. by rewrite <-Hp.
Qed.

Lemma nodeOf_buildGraph `{HashOrder} h ms t :
  nodeOf (buildGraph h ms) t = nodeOf (buildNodes h ms) t.
Proof.
  unfold buildGraph. apply nodeOf_Permutation; [apply buildNodes_NoDup|].
  symmetry. apply iterate_perm.
Qed.

Lemma explicitlyExported_edgesOf h m :
  (fun edge => mkExportedModule (exportee edge) (exportsAs edge) (esymbols edge))
    <$> edgesOf h m = declaredExports h m.
Proof.
  unfold edgesOf. rewrite <-list_fmap_compose.
  rewrite <-(list_fmap_id (declaredExports h m)) at 2.
  apply list_fmap_ext. by intros _ [] _.
Qed.

(** The explicit exports of a node of the graph are the declarations of its
    module if it is an input module, and none otherwise. *)
Lemma explicitlyExported_buildGraph `{HashOrder} h ms t :
  explicitlyExported (nodeOf (buildGraph h ms) t) =
  if decide (t ∈ ResolvedModule <$> ms)
  then declaredExports h (target_module t) else [].
Proof.
  unfold explicitlyExported. rewrite nodeOf_buildGraph, buildNodes_exports.
  case_decide; [apply explicitlyExported_edgesOf|done].
Qed.

Lemma unified_nil `{HashOrder} : unified [] = [].
Proof.
  unfold unified.
  pose proof (iterate_perm groups_iter (groupBy target [])) as Hp.
  apply Permutation_nil_r in Hp. by rewrite Hp.
Qed.

Lemma resolveNodes_NoDup `{HashOrder} nodes exps0 exps :
  NoDup exps0.*1 -> resolveNodes exps0 nodes = Ok exps -> NoDup exps.*1.
Proof.
  revert exps0. induction nodes as [|n nodes IH]; intros exps0 Hnd;
    cbn [resolveNodes].
  - by intros [= <-].
  - destruct (resolveNode exps0 n) as [exps1| |] eqn:E1; cbn [bind]; [|done..].
    apply resolveNode_Ok in E1 as [_ ->]. apply IH. by apply NoDup_aupdate.
Qed.

Lemma storeExports_present entries h h' m exs :
  storeExports entries h = Ok h' -> (ResolvedModule m, exs) ∈ entries ->
  is_Some (h !! m).
Proof.
  intros Hst Hin. destruct (h !! m) as [b|] eqn:E; [eauto|].
  rewrite storeExports_missing in Hst; [done|].
  intros Hall. destruct (Hall m exs Hin) as [b Hb]. congruence.
Qed.

Lemma resolveExports_heap `{HashOrder} tops h h1 :
  NoDup (targets tops) -> resolveExports tops h = Ok h1 ->
  exists exps,
    resolveNodes [] tops = Ok exps /\
    (forall n, n ∈ tops ->
       alookup (ntarget n) exps = Some (resolvedRecords (resolvedIn_map exps) n)) /\
    (forall t, t ∈ exps.*1 <-> t ∈ targets tops) /\
    (forall m, ResolvedModule m ∈ targets tops ->
       is_Some (h !! m) /\
       resolvedExportsOf h1 m = resolvedIn_map exps (ResolvedModule m)) /\
    (forall m, getDirectlyExportedModules <$> h1 !! m
               = getDirectlyExportedModules <$> h !! m).
Proof.
  intros Hnd. unfold resolveExports.
  destruct (resolveNodes [] tops) as [exps| |] eqn:Eres; cbn [bind]; [|done..].
  intros Hst. exists exps.
  pose proof (resolveNodes_NoDup _ _ _ (NoDup_nil_2 : NoDup ([] : ExportsMap).*1) Eres)
    as Hkeys.
  pose proof (resolveNodes_spec tops [] exps Hnd (fun _ _ => eq_refl) Eres)
    as (_ & Hnodes & Hmem).
  assert (NoDup (iterate exports_iter exps).*1) as Hkeys'.
  { by rewrite iterate_perm. }
  pose proof (storeExports_Ok _ _ _ Hkeys' Hst) as Hh1.
  assert (forall m, alookup (ResolvedModule m) (iterate exports_iter exps)
                    = alookup (ResolvedModule m) exps) as Hperm.
  { intros m. symmetry. apply alookup_Permutation; [done|].
    symmetry. apply iterate_perm. }
  split_and!; [done|done| | |].
  - intros t. rewrite Hmem, fmap_nil, elem_of_nil. naive_solver.
  - intros m Hm.
    assert (is_Some (alookup (ResolvedModule m) exps)) as [exs Hexs].
    { apply alookup_is_Some, Hmem. by right. }
    assert (is_Some (h !! m)) as [b Hb].
    { eapply (storeExports_present _ _ _ m exs); [done|].
      rewrite iterate_perm. by apply alookup_Some_elem. }
    split; [by eauto|].
    unfold resolvedExportsOf, getBindings, resolvedIn_map.
    by rewrite (Hh1 m), Hperm, Hexs, Hb.
  - intros m. rewrite (Hh1 m), Hperm.
    destruct (alookup (ResolvedModule m) exps); [|done].
    by destruct (h !! m).
Qed.

(** The resolved exports of every input module satisfy the equation of the
    resolver, read on the heap [run] returns. *)
Lemma run_resolvedExports `{CompilerContext} `{HashOrder} h ms l h' m :
  run h ms = Ok (l, h') -> m ∈ ms ->
  resolvedExportsOf h' m = resolvedFrom (resolvedOf h') (declaredExports h m).
Proof.
  intros (tops & h1 & _ & Htop & Hres & Hsym & _)%run_Ok_inv Hm.
  pose proof (buildGraph_NoDup h ms) as Hg.
  pose proof (topsort_Permutation _ _ Hg Htop) as Hperm.
  assert (NoDup (targets tops)) as Htops.
  { unfold targets. by rewrite Hperm. }
  apply resolveExports_heap in Hres as (exps & _ & Hnodes & _ & Hmods & _); [|done].
  apply resolveExportedSymbols_sameExports in Hsym.
  assert (forall t, t ∈ targets (buildGraph h ms) ->
            nodeOf (buildGraph h ms) t ∈ tops) as Hnode.
  { intros t Ht. rewrite Hperm. by apply nodeOf_elem. }
  assert (forall t, t ∈ targets (buildGraph h ms) ->
            resolvedIn_map exps t =
            resolvedRecords (resolvedIn_map exps) (nodeOf (buildGraph h ms) t))
    as Hrec.
  { intros t Ht. unfold resolvedIn_map at 1.
    rewrite <-(ntarget_nodeOf (buildGraph h ms) t) at 1.
    by rewrite (Hnodes _ (Hnode t Ht)). }
  assert (forall t, t ∈ targets (buildGraph h ms) ->
            resolvedOf h' t = resolvedIn_map exps t) as Hof.
  { intros t Ht. destruct t as [m'| | |]; cbn [resolvedOf];
      try (rewrite Hrec by done; unfold resolvedRecords;
           rewrite explicitlyExported_buildGraph, decide_False;
           [by rewrite unified_nil|];
           by intros (? & ? & _)%list_elem_of_fmap).
    rewrite (sameExports_resolvedExportsOf _ _ _ Hsym).
    apply Hmods. unfold targets. rewrite Hperm. done. }
  assert (ResolvedModule m ∈ targets (buildGraph h ms)) as HmG.
  { apply targets_buildGraph, buildNodes_targets. left.
    by apply list_elem_of_fmap_2. }
  rewrite (sameExports_resolvedExportsOf _ _ _ Hsym).
  destruct (Hmods m) as [_ ->]; [unfold targets; by rewrite Hperm|].
  rewrite Hrec by done. unfold resolvedRecords, resolvedFrom.
  rewrite explicitlyExported_buildGraph, decide_True
    by by apply list_elem_of_fmap_2.
  cbn [target_module]. f_equal. f_equal. apply transitiveOf_ext.
  intros ex Hex. symmetry. apply Hof.
  apply targets_buildGraph, buildNodes_targets. right.
  exists m. split; [done|]. by apply list_elem_of_fmap_2.
Qed.

(** * Resolved exports: intersection, aliases, merging *)

Lemma elem_of_resolvedFrom `{HashOrder} resolved decls r :
  r ∈ resolvedFrom resolved decls <->
  exists t, t ∈ target <$> (decls ++ transitiveOf resolved decls) /\
    r = unifyGroup
          (t, filter (fun ex => target ex = t) decls
              ++ filter (fun ex => target ex = t) (transitiveOf resolved decls)).
Proof.
  unfold resolvedFrom. rewrite elem_of_unified.
  by setoid_rewrite filter_app.
Qed.

Lemma transitiveOf_exportedAs resolved decls r :
  r ∈ transitiveOf resolved decls -> exportedAs r = None.
Proof. by intros (ex & p & _ & _ & ->)%elem_of_transitiveOf. Qed.

Lemma collectFirstName_transitive resolved decls t :
  collectFirstName (filter (fun ex => target ex = t) (transitiveOf resolved decls))
  = None.
Proof.
  apply collectFirstName_None. intros ex [_ Hex]%list_elem_of_filter.
  by eapply transitiveOf_exportedAs.
Qed.

(** C3.  After a run, the resolved exports of an input module [B] are its
    declared exports unified with transitive records, and every transitive
    record comes from one declared export [d] of [B] and one record [p] of
    the already-resolved exports of [d]'s target: it names [p]'s target and
    each of its symbols lies both in the symbol set [d] declares and in the
    symbol set [p] exposes.  Hence every symbol of every record in [B]'s
    resolved exports is a symbol one of [B]'s own declarations lists: when
    [B] exports [X] from [A] and [A] exposes [X] and [Y], what [B]
    re-exports of [A]'s content holds [X] but never [Y]. *)
Theorem transitive_exports_intersect `{CompilerContext} `{HashOrder}
    (h : Heap) (modules : list Module) (l : list Module) (h' : Heap) (B : Module) :
  run h modules = Ok (l, h') -> B ∈ modules ->
  exists transitive,
    resolvedExportsOf h' B = unified (declaredExports h B ++ transitive) /\
    (forall r, r ∈ transitive ->
      exists d p,
        d ∈ declaredExports h B /\ p ∈ resolvedOf h' (target d) /\
        target r = target p /\
        forall s, s ∈ symbols r -> s ∈ symbols d /\ s ∈ symbols p) /\
    (forall r s, r ∈ resolvedExportsOf h' B -> s ∈ symbols r ->
       exists d, d ∈ declaredExports h B /\ s ∈ symbols d).
Proof.
  intros Hrun HB. exists (transitiveOf (resolvedOf h') (declaredExports h B)).
  pose proof (run_resolvedExports h modules l h' B Hrun HB) as Heq.
  split_and!; [done| |].
  - intros r (d & p & Hd & Hp & ->)%elem_of_transitiveOf.
    exists d, p. split_and!; [done..|].
    cbn [symbols]. apply elem_of_intersect.
  - intros r s. rewrite Heq. intros (t & _ & ->)%elem_of_resolvedFrom.
    intros (ex & Hex & Hs)%elem_of_unifyGroup_symbols.
    apply elem_of_app in Hex as [Hex|Hex]; apply list_elem_of_filter in Hex as [_ Hex].
    + by exists ex.
    + apply elem_of_transitiveOf in Hex as (d & p & Hd & _ & ->).
      exists d. split; [done|]. cbn [symbols] in Hs.
      by apply elem_of_intersect in Hs as [? _].
Qed.

(** C4.  After a run, the alias of every record in the resolved exports of
    an input module [B] is the first alias among [B]'s own declared exports
    of that record's target.  Records that reach [B] only transitively
    therefore carry no alias, whatever alias the exportee gave them, and a
    record has an alias only if a direct export of the same target supplies
    it. *)
Theorem transitive_exports_drop_alias `{CompilerContext} `{HashOrder}
    (h : Heap) (modules : list Module) (l : list Module) (h' : Heap) (B : Module) :
  run h modules = Ok (l, h') -> B ∈ modules ->
  Forall (fun r =>
            exportedAs r =
            collectFirstName
              (filter (fun d => target d = target r) (declaredExports h B)))
         (resolvedExportsOf h' B).
Proof.
  intros Hrun HB. apply Forall_forall. intros r.
  rewrite (run_resolvedExports h modules l h' B Hrun HB).
  intros (t & _ & ->)%elem_of_resolvedFrom.
  unfold unifyGroup. cbn [exportedAs target fst snd].
  rewrite collectFirstName_app, collectFirstName_transitive.
  by destruct (collectFirstName _).
Qed.

Import Examples.

Example restricted_resolved :
  resolvedExportsOf (heapAfter (H := exampleContext) (H0 := insertion_order)
                       restricted [A; B]) B
  = [mkExportedModule (ResolvedModule A) None ["X"];
     mkExportedModule T None ["X"]].
Proof. vm_compute. reflexivity. Qed.

Lemma transitive_exports_intersect_witness :
  exists transitive,
    resolvedExportsOf (heapAfter (H := exampleContext) (H0 := insertion_order)
                         restricted [A; B]) B
    = unified (H := insertion_order) (declaredExports restricted B ++ transitive) /\
    (forall r, r ∈ transitive ->
      exists d p,
        d ∈ declaredExports restricted B /\
        p ∈ resolvedOf (heapAfter (H := exampleContext) (H0 := insertion_order)
                          restricted [A; B]) (target d) /\
        target r = target p /\
        forall s, s ∈ symbols r -> s ∈ symbols d /\ s ∈ symbols p) /\
    (forall r s,
       r ∈ resolvedExportsOf (heapAfter (H := exampleContext) (H0 := insertion_order)
                                restricted [A; B]) B ->
       s ∈ symbols r ->
       exists d, d ∈ declaredExports restricted B /\ s ∈ symbols d).
Proof.
  apply (@transitive_exports_intersect exampleContext insertion_order
           restricted [A; B]
           (orderAfter (H := exampleContext) (H0 := insertion_order) restricted [A; B])).
  - vm_compute. reflexivity.
  - right. left.
Defined.

Example aliased_resolved :
  resolvedExportsOf (heapAfter (H := exampleContext) (H0 := insertion_order)
                       aliased [A; B]) A
  = [mkExportedModule T (Some "T2") ["X"]] /\
  resolvedExportsOf (heapAfter (H := exampleContext) (H0 := insertion_order)
                       aliased [A; B]) B
  = [mkExportedModule (ResolvedModule A) None ["X"];
     mkExportedModule T None ["X"]].
Proof. split; vm_compute; reflexivity. Qed.

Lemma transitive_exports_drop_alias_witness :
  Forall (fun r =>
            exportedAs r =
            collectFirstName
              (filter (fun d => target d = target r) (declaredExports aliased B)))
         (resolvedExportsOf (heapAfter (H := exampleContext) (H0 := insertion_order)
                               aliased [A; B]) B).
Proof.
  apply (@transitive_exports_drop_alias exampleContext insertion_order
           aliased [A; B]
           (orderAfter (H := exampleContext) (H0 := insertion_order) aliased [A; B])).
  - vm_compute. reflexivity.
  - right. left.
Defined.

(** C6, as stated, fails: [buildGraph] keeps one edge for each declaration.
    A module that declares the same export of [A] twice gets two edges with
    the same exporter, exportee and rename. *)
Lemma buildGraph_keeps_duplicate_edges :
  ~ edgesMerged (buildGraph (H := insertion_order) duplicated [A; B]).
Proof.
  intros Hm. unfold edgesMerged in Hm. rewrite Forall_forall in Hm.
  specialize (Hm (nodeOf (buildGraph (H := insertion_order) duplicated [A; B])
                         (ResolvedModule B))).
  assert (NoDup [edgeKey (mkEdge (ResolvedModule B) ["X"] None (ResolvedModule A));
                 edgeKey (mkEdge (ResolvedModule B) ["Y"] None (ResolvedModule A))])
    as Hnd.
  { apply Hm. vm_compute. right. left. }
  apply NoDup_cons in Hnd as [Hnd _]. apply Hnd. left.
Qed.

Lemma exports_buildGraph `{HashOrder} h ms m :
  m ∈ ms ->
  exports (nodeOf (buildGraph h ms) (ResolvedModule m)) = edgesOf h m.
Proof.
  intros Hm. rewrite nodeOf_buildGraph, buildNodes_exports, decide_True; [done|].
  by apply list_elem_of_fmap_2.
Qed.

(** C6, amended.  The graph holds one edge for each export declaration of
    an input module, in the order of the declarations and unmerged.  The
    merge happens on the resolved exports: after a run the resolved exports
    of an input module [B] hold at most one record for each target, and the
    symbols of a record are, without repetition, exactly the symbols of
    [B]'s declared exports and transitive records of that target. *)
Theorem resolved_exports_merged `{CompilerContext} `{HashOrder}
    (h : Heap) (modules : list Module) (l : list Module) (h' : Heap) (B : Module) :
  run h modules = Ok (l, h') -> B ∈ modules ->
  exports (nodeOf (buildGraph h modules) (ResolvedModule B))
    = edgeOf (ResolvedModule B) <$> declaredExports h B /\
  NoDup (target <$> resolvedExportsOf h' B) /\
  Forall (fun r =>
            NoDup (symbols r) /\
            forall s, s ∈ symbols r <->
              exists x, x ∈ declaredExports h B
                              ++ transitiveOf (resolvedOf h') (declaredExports h B) /\
                        target x = target r /\ s ∈ symbols x)
         (resolvedExportsOf h' B).
Proof.
  intros Hrun HB. rewrite (run_resolvedExports h modules l h' B Hrun HB).
  split_and!.
  - by apply exports_buildGraph.
  - apply NoDup_unified_targets.
  - apply Forall_forall. intros r (t & _ & ->)%elem_of_unified. split.
    + rewrite unifyGroup_symbols. apply NoDup_distinct.
    + intros s. rewrite elem_of_unifyGroup_symbols.
      setoid_rewrite list_elem_of_filter. cbn [target unifyGroup fst].
      naive_solver.
Qed.

Example duplicated_resolved :
  resolvedExportsOf (heapAfter (H := exampleContext) (H0 := insertion_order)
                       duplicated [A; B]) B
  = [mkExportedModule (ResolvedModule A) None ["X"; "Y"]].
Proof. vm_compute. reflexivity. Qed.

Lemma resolved_exports_merged_witness :
  exports (nodeOf (buildGraph (H := insertion_order) duplicated [A; B])
                  (ResolvedModule B))
    = edgeOf (ResolvedModule B) <$> declaredExports duplicated B /\
  NoDup (target <$> resolvedExportsOf
                      (heapAfter (H := exampleContext) (H0 := insertion_order)
                         duplicated [A; B]) B) /\
  Forall (fun r =>
            NoDup (symbols r) /\
            forall s, s ∈ symbols r <->
              exists x, x ∈ declaredExports duplicated B
                              ++ transitiveOf
                                   (resolvedOf
                                      (heapAfter (H := exampleContext)
                                         (H0 := insertion_order) duplicated [A; B]))
                                   (declaredExports duplicated B) /\
                        target x = target r /\ s ∈ symbols x)
         (resolvedExportsOf (heapAfter (H := exampleContext) (H0 := insertion_order)
                               duplicated [A; B]) B).
Proof.
  apply (@resolved_exports_merged exampleContext insertion_order
           duplicated [A; B]
           (orderAfter (H := exampleContext) (H0 := insertion_order)
              duplicated [A; B])).
  - vm_compute. reflexivity.
  - right. left.
Defined.

(** C7, as stated, fails: [A] exposes [X] through its export of [T], and [B]
    exports from [A] with an empty symbol list; the record for [T] that
    reaches [B] has no symbols, not the symbols [A] exposes. *)
Lemma empty_symbols_do_not_export_all :
  resolvedExportsOf (heapAfter (H := exampleContext) (H0 := insertion_order)
                       unrestricted [A; B]) A
  = [mkExportedModule T None ["X"]] /\
  resolvedExportsOf (heapAfter (H := exampleContext) (H0 := insertion_order)
                       unrestricted [A; B]) B
  = [mkExportedModule (ResolvedModule A) None [];
     mkExportedModule T None []] /\
  ~ emptyExportsAll (mkExportedModule (ResolvedModule A) None [])
      [mkExportedModule T None ["X"]].
Proof.
  split_and!; [vm_compute; reflexivity..|].
  intros Hall. specialize (Hall eq_refl). vm_compute in Hall. done.
Qed.

(** C7, amended.  An export declared with an empty symbol list re-exports
    no symbol: each transitive record it contributes has an empty symbol
    list, whatever the exportee exposes; and when every export declaration
    of an input module [B] has an empty symbol list, every record of [B]'s
    resolved exports after a run has an empty symbol list. *)
Theorem empty_symbols_export_nothing `{CompilerContext} `{HashOrder}
    (h : Heap) (modules : list Module) (l : list Module) (h' : Heap) (B : Module) :
  run h modules = Ok (l, h') -> B ∈ modules ->
  Forall (fun d =>
            symbols d = [] ->
            Forall (fun r => symbols r = [])
                   (transitiveThrough d (resolvedOf h' (target d))))
         (declaredExports h B) /\
  (Forall (fun d => symbols d = []) (declaredExports h B) ->
   Forall (fun r => symbols r = []) (resolvedExportsOf h' B)).
Proof.
  intros Hrun HB. split.
  - apply Forall_forall. intros d _ Hd. apply Forall_forall.
    unfold transitiveThrough. intros r (p & -> & _)%list_elem_of_fmap.
    cbn [symbols]. by rewrite Hd.
  - rewrite (run_resolvedExports h modules l h' B Hrun HB).
    rewrite !Forall_forall. intros Hall r (t & _ & ->)%elem_of_resolvedFrom.
    destruct (symbols (unifyGroup _)) as [|s ss] eqn:E; [done|].
    assert (s ∈ symbols (unifyGroup
              (t, filter (fun ex => target ex = t) (declaredExports h B) ++
                  filter (fun ex => target ex = t)
                    (transitiveOf (resolvedOf h') (declaredExports h B)))))
      as Hs by (rewrite E; left).
    apply elem_of_unifyGroup_symbols in Hs as (x & Hx & Hsx).
    apply elem_of_app in Hx as [[_ Hx]%list_elem_of_filter|[_ Hx]%list_elem_of_filter].
    + rewrite (Hall x Hx) in Hsx. by apply elem_of_nil in Hsx.
    + apply elem_of_transitiveOf in Hx as (d & p & Hd & _ & ->).
      cbn [symbols] in Hsx. rewrite (Hall d Hd) in Hsx.
      by apply elem_of_nil in Hsx.
Qed.

Lemma empty_symbols_export_nothing_witness :
  Forall (fun d =>
            symbols d = [] ->
            Forall (fun r => symbols r = [])
                   (transitiveThrough d
                      (resolvedOf (heapAfter (H := exampleContext)
                                     (H0 := insertion_order) unrestricted [A; B])
                                  (target d))))
         (declaredExports unrestricted B) /\
  (Forall (fun d => symbols d = []) (declaredExports unrestricted B) ->
   Forall (fun r => symbols r = [])
          (resolvedExportsOf (heapAfter (H := exampleContext)
                                (H0 := insertion_order) unrestricted [A; B]) B)).
Proof.
  apply (@empty_symbols_export_nothing exampleContext insertion_order
           unrestricted [A; B]
           (orderAfter (H := exampleContext) (H0 := insertion_order)
              unrestricted [A; B])).
  - vm_compute. reflexivity.
  - right. left.
Defined.

(** * Export cycles: [run] and [runSort] *)

Lemma edgeTo_buildGraph `{HashOrder} h ms a b :
  edgeTo (buildGraph h ms) a b <->
  exists m, m ∈ ms /\ a = ResolvedModule m /\
            exists d, d ∈ declaredExports h m /\ target d = b.
Proof.
  unfold edgeTo. rewrite nodeOf_buildGraph, buildNodes_exports. split.
  - intros (e & He & <-). case_decide as Ha; [|by apply elem_of_nil in He].
    apply list_elem_of_fmap in Ha as (m & -> & Hm). cbn [target_module] in He.
    unfold edgesOf in He. apply list_elem_of_fmap in He as (d & -> & Hd).
    exists m. split_and!; [done..|]. by exists d.
  - intros (m & Hm & -> & d & Hd & <-). exists (edgeOf (ResolvedModule m) d).
    split; [|done]. rewrite decide_True by by apply list_elem_of_fmap_2.
    unfold edgesOf. by apply list_elem_of_fmap_2.
Qed.

Lemma declares_edgeTo `{HashOrder} h ms a b :
  a ∈ ms -> declares h a b ->
  edgeTo (buildGraph h ms) (ResolvedModule a) (ResolvedModule b).
Proof. intros Ha Hd. apply edgeTo_buildGraph. by exists a. Qed.

Lemma chain_fmap {A B} (R : A -> A -> Prop) (R' : B -> B -> Prop) (f : A -> B) l :
  (forall a b, a ∈ l -> R a b -> R' (f a) (f b)) ->
  chain R l -> chain R' (f <$> l).
Proof.
  induction l as [|a l IH]; [done|]. destruct l as [|b l]; [done|].
  intros Hf [Hab Hl]. rewrite !fmap_cons. split.
  - apply Hf; [left|done].
  - rewrite <-fmap_cons. apply IH; [|done]. intros x y Hx. apply Hf. by right.
Qed.

Lemma exportCycle_isCycle `{HashOrder} h ms c :
  exportCycle h ms c -> isCycle (buildGraph h ms) (ResolvedModule <$> c).
Proof.
  intros [Hin Hc]. destruct c as [|a c]; [done|].
  rewrite fmap_cons. cbn [closedChain] in *.
  rewrite <-fmap_cons.
  assert ((ResolvedModule <$> a :: c) ++ [ResolvedModule a]
          = ResolvedModule <$> ((a :: c) ++ [a])) as -> by by rewrite fmap_app.
  eapply chain_fmap; [|done].
  intros x y Hx. apply declares_edgeTo.
  apply elem_of_app in Hx as [?| ->%list_elem_of_singleton]; apply Hin; [done|left].
Qed.

Lemma chain_edges_are_declared `{HashOrder} h ms l :
  chain (edgeTo (buildGraph h ms)) l ->
  (forall x, last l = Some x -> exists m, m ∈ ms /\ x = ResolvedModule m) ->
  chain (declares h) (target_module <$> l) /\
  forall x, x ∈ l -> exists m, m ∈ ms /\ x = ResolvedModule m.
Proof.
  induction l as [|a l IH]; [by split; [|intros ? ?%elem_of_nil]|].
  destruct l as [|b l].
  - intros _ Hlast. split; [done|].
    intros x ->%list_elem_of_singleton. by apply Hlast.
  - intros [Hab Hl] Hlast. destruct (IH Hl) as [Hchain Hmods].
    { intros x Hx. apply Hlast. by rewrite last_cons_cons. }
    apply edgeTo_buildGraph in Hab as (m & Hm & -> & d & Hd & Hb).
    destruct (Hmods b) as (m' & Hm' & ->); [left|]. split.
    + rewrite !fmap_cons. cbn [target_module]. split.
      * by exists d.
      * by rewrite !fmap_cons in Hchain.
    + intros x [->|Hx]%elem_of_cons; [by exists m|by apply Hmods].
Qed.

Lemma isCycle_exportCycle `{HashOrder} h ms c :
  isCycle (buildGraph h ms) c -> exportCycle h ms (target_module <$> c).
Proof.
  destruct c as [|a c]; [done|]. cbn [closedChain]. intros Hc.
  assert (exists m, m ∈ ms /\ a = ResolvedModule m) as Ha.
  { destruct c as [|b c]; cbn [app] in Hc; destruct Hc as [Hab _];
      apply edgeTo_buildGraph in Hab as (m & ? & ? & _); by exists m. }
  destruct (chain_edges_are_declared h ms _ Hc) as [Hchain Hmods].
  { intros x. rewrite last_snoc. by intros [= <-]. }
  split.
  - intros m (x & -> & Hx)%list_elem_of_fmap.
    destruct (Hmods x) as (m' & Hm' & ->); [|done].
    apply elem_of_app. by left.
  - rewrite fmap_cons. cbn [closedChain]. rewrite <-fmap_cons.
    by rewrite fmap_app in Hchain.
Qed.

Lemma exportCycle_tc `{HashOrder} h ms c :
  exportCycle h ms c -> exists a, tc (edgeTo (buildGraph h ms)) a a.
Proof.
  intros Hc%exportCycle_isCycle. apply isCycle_tc in Hc as (a & _ & Ha). eauto.
Qed.

(** C2.  When the export declarations of the modules contain a cycle, [run]
    throws [ExportCycleException], and the modules the exception carries
    form a genuine cycle: they are modules of the input, each declares an
    export of the next one, and the last one declares an export of the
    first. *)
Theorem run_reports_export_cycle `{CompilerContext} `{HashOrder}
    (h : Heap) (modules : list Module) (c : list Module) :
  exportCycle h modules c ->
  exists cycle,
    run h modules = Throw (ExportCycleException cycle) /\
    exportCycle h modules cycle.
Proof.
  intros [a Ha]%exportCycle_tc. unfold run.
  destruct (findCycles_spec (buildGraph h modules)) as (cycles & -> & Hgen & Hac).
  cbn [bind]. destruct cycles as [|cycle cycles].
  - exfalso. by apply (Hac eq_refl a).
  - exists (target_module <$> cycle). split; [done|].
    apply Forall_cons in Hgen as [Hcycle _]. by apply isCycle_exportCycle.
Qed.

(** C10.  When the export declarations of a duplicate-free list of modules
    contain a cycle, [runSort] returns no module list: the search for a node
    of degree zero comes up empty while nodes remain, and the [.get] on it
    throws [NoSuchElementException], not the export-cycle error. *)
Theorem runSort_fails_on_cycle `{HashOrder}
    (h : Heap) (modules : list Module) (c : list Module) :
  NoDup modules -> exportCycle h modules c ->
  runSort h modules = Throw NoSuchElementException_NoneGet.
Proof.
  intros Hnd [a Ha]%exportCycle_tc. unfold runSort.
  by rewrite (topsort_cyclic _ a (buildGraph_wf h modules Hnd) Ha).
Qed.

Lemma threeCycle_exportCycle : exportCycle threeCycle [A; B; C] [A; B; C].
Proof.
  split.
  - by intros m Hm.
  - cbn [closedChain app chain]. split_and!; [| | |done].
    + eexists. split; [left|reflexivity].
    + eexists. split; [left|reflexivity].
    + eexists. split; [left|reflexivity].
Defined.

Example threeCycle_run :
  run (H := exampleContext) (H0 := insertion_order) threeCycle [A; B; C]
  = Throw (ExportCycleException [A; B; C]).
Proof. vm_compute. reflexivity. Qed.

Lemma run_reports_export_cycle_witness :
  exists cycle,
    run (H := exampleContext) (H0 := insertion_order) threeCycle [A; B; C]
      = Throw (ExportCycleException cycle) /\
    exportCycle threeCycle [A; B; C] cycle.
Proof.
  apply (@run_reports_export_cycle exampleContext insertion_order
           threeCycle [A; B; C] [A; B; C]).
  exact threeCycle_exportCycle.
Defined.

Lemma runSort_fails_on_cycle_witness :
  runSort (H := insertion_order) threeCycle [A; B; C]
  = Throw NoSuchElementException_NoneGet.
Proof.
  apply (@runSort_fails_on_cycle insertion_order threeCycle [A; B; C] [A; B; C]).
  - by apply (bool_decide_unpack _).
  - exact threeCycle_exportCycle.
Defined.

(** * The order of the returned modules *)

Section keepLast.
Context {A : Type} `{EqDecision A}.
Implicit Types l seen : list A.

Lemma distinctFrom_snoc seen l x :
  distinctFrom seen (l ++ [x])
  = distinctFrom seen l ++ (if decide (x ∈ seen \/ x ∈ l) then [] else [x]).
Proof.
  revert seen. induction l as [|y l IH]; intros seen; cbn [app distinctFrom].
  - destruct (decide (x ∈ seen)).
    + rewrite decide_True by by left. done.
    + rewrite decide_False; [done|]. intros [?|?%elem_of_nil]; done.
  - destruct (decide (y ∈ seen)).
    + rewrite IH. f_equal. apply decide_ext. rewrite elem_of_cons.
      split; [naive_solver|]. intros [?|[->|?]]; auto.
    + rewrite IH, <-app_comm_cons. f_equal. f_equal. apply decide_ext.
      rewrite !elem_of_cons. naive_solver.
Qed.

Lemma lastOccurrences_keepLast l : reverse (distinct (reverse l)) = keepLast l.
Proof.
  induction l as [|x l IH]; [reflexivity|].
  rewrite reverse_cons. unfold distinct in *. rewrite distinctFrom_snoc.
  cbn [keepLast]. destruct (decide (x ∈ l)) as [Hx|Hx].
  - rewrite decide_True by (right; by apply elem_of_reverse).
    by rewrite app_nil_r.
  - rewrite decide_False.
    + by rewrite reverse_app, IH.
    + intros [?%elem_of_nil|Hr]; [done|]. by rewrite elem_of_reverse in Hr.
Qed.

Lemma elem_of_keepLast l x : x ∈ keepLast l <-> x ∈ l.
Proof.
  induction l as [|y l IH]; [reflexivity|]. cbn [keepLast].
  case_decide; rewrite ?elem_of_cons, IH; naive_solver.
Qed.

Lemma NoDup_keepLast l : NoDup (keepLast l).
Proof.
  induction l as [|y l IH]; [apply NoDup_nil_2|]. cbn [keepLast].
  case_decide; [done|]. apply NoDup_cons. by rewrite elem_of_keepLast.
Qed.

Lemma keepLast_NoDup l : NoDup l -> keepLast l = l.
Proof.
  induction l as [|y l IH]; [done|]. rewrite NoDup_cons. intros [Hy Hl].
  cbn [keepLast]. rewrite decide_False by done. f_equal. by apply IH.
Qed.
End keepLast.

Lemma lastOccurrences_modulesOf tops :
  lastOccurrences (ntarget <$> tops) = keepLast (modulesOf tops).
Proof. unfold lastOccurrences. apply lastOccurrences_keepLast. Qed.

(** What [run] returns: the modules of the topologically sorted nodes, each
    module once, at the position of its last occurrence. *)
Lemma run_returns_last_occurrences `{CompilerContext} `{HashOrder} h ms l h' :
  run h ms = Ok (l, h') ->
  exists tops,
    topsort (buildGraph h ms) = Ok tops /\
    l = keepLast (modulesOf tops) /\
    NoDup l /\
    forall m, m ∈ l <-> m ∈ modulesOf tops.
Proof.
  intros (tops & h1 & _ & Htop & _ & _ & ->)%run_Ok_inv.
  exists tops. rewrite lastOccurrences_modulesOf.
  split_and!; [done|done|apply NoDup_keepLast|]. intros m. apply elem_of_keepLast.
Qed.

(** [runSort] returns the same list of modules. *)
Lemma runSort_returns_last_occurrences `{HashOrder} h ms l :
  runSort h ms = Ok l ->
  exists tops,
    topsort (buildGraph h ms) = Ok tops /\
    l = keepLast (modulesOf tops) /\ NoDup l.
Proof.
  unfold runSort. destruct (topsort (buildGraph h ms)) as [tops| |]; cbn [bind];
    [|done..].
  intros [= <-]. exists tops. rewrite lastOccurrences_modulesOf.
  split_and!; [done|done|apply NoDup_keepLast].
Qed.

Lemma occursBefore_lookup {A} (l : list A) a b :
  occursBefore l a b <-> exists i j, l !! i = Some a /\ l !! j = Some b /\ i < j.
Proof.
  split.
  - intros (l1 & l2 & l3 & ->). exists (length l1), (length l1 + S (length l2)).
    split_and!; [by apply list_lookup_middle| |lia].
    rewrite lookup_app_r by lia.
    replace (length l1 + S (length l2) - length l1) with (S (length l2)) by lia.
    cbn [lookup list_lookup]. by apply list_lookup_middle.
  - intros (i & j & Hi & Hj & Hlt).
    apply list_elem_of_split_length in Hi as (l1 & l2' & -> & ->).
    rewrite lookup_app_r in Hj by lia.
    destruct (j - length l1) as [|k] eqn:Ek; [lia|]. cbn [lookup list_lookup] in Hj.
    apply list_elem_of_split_length in Hj as (l2 & l3 & -> & _).
    by exists l1, l2, l3.
Qed.

Ltac refute_order H :=
  apply occursBefore_lookup in H as (?i & ?j & ?Hi & ?Hj & ?Hlt);
  repeat match goal with
         | Hl : (_ :: _) !! ?i = Some _ |- _ =>
             destruct i as [|i]; cbn [lookup list_lookup] in Hl; simplify_eq
         | Hl : [] !! _ = Some _ |- _ => by rewrite lookup_nil in Hl
         end;
  try lia.

(** * [topsort] under every iteration order *)

Section any_order.
Context {K V : Type} `{EqDecision K}.
Implicit Types l : list (K * V).

Lemma aremove_absent k l : k ∉ l.*1 -> aremove k l = l.
Proof.
  intros Hk. unfold aremove. induction l as [|[k' v'] l IH]; [done|].
  rewrite fmap_cons, not_elem_of_cons in Hk. destruct Hk as [Hne Hk].
  rewrite filter_cons_True by done. f_equal. by apply IH.
Qed.

Lemma aupdate_Permutation_cons k v l :
  NoDup l.*1 -> aupdate k v l ≡ₚ (k, v) :: aremove k l.
Proof.
  induction l as [|[k' v'] l IH]; intros Hnd; [done|].
  rewrite fmap_cons in Hnd. apply NoDup_cons in Hnd as [Hk' Hnd].
  cbn [aupdate]. unfold aremove. case_decide as Hk.
  - subst k'. rewrite filter_cons_False by (cbn; tauto).
    fold (aremove k l). by rewrite aremove_absent.
  - rewrite filter_cons_True by done. fold (aremove k l).
    rewrite IH by done. apply Permutation_swap.
Qed.

Lemma aupdate_Permutation k v l l' :
  NoDup l.*1 -> l ≡ₚ l' -> aupdate k v l ≡ₚ aupdate k v l'.
Proof.
  intros Hnd Hp. rewrite !aupdate_Permutation_cons; [|by rewrite <-Hp|done].
  unfold aremove. by rewrite Hp.
Qed.

Lemma aremove_Permutation k l l' : l ≡ₚ l' -> aremove k l ≡ₚ aremove k l'.
Proof. intros Hp. unfold aremove. by rewrite Hp. Qed.
End any_order.

Lemma decrementExporters_any_order edges d d' q :
  d ≡ₚ d' -> NoDup d.*1 ->
  sameUpToOrder (decrementExporters edges d q) (decrementExporters edges d' q).
Proof.
  revert d d' q. induction edges as [|e edges IH]; intros d d' q Hp Hnd.
  - done.
  - cbn [decrementExporters].
    rewrite <-(alookup_Permutation d d' (exporter e)) by done.
    destruct (alookup (exporter e) d) as [v|]; [|done].
    apply IH; [by apply aupdate_Permutation|by apply NoDup_aupdate].
Qed.

Lemma drainQueue_any_order fuel g g' d d' q result :
  (forall t, nodeOf g t = nodeOf g' t) ->
  d ≡ₚ d' -> NoDup d.*1 ->
  sameUpToOrder (drainQueue fuel g d q result) (drainQueue fuel g' d' q result).
Proof.
  intros Hg. revert d d' q result.
  induction fuel as [|fuel IH]; intros d d' q result Hp Hnd;
    destruct q as [|item q]; cbn [drainQueue]; try done.
  rewrite <-Hg.
  pose proof (decrementExporters_any_order (exportedBy (nodeOf g item))
                (aremove item d) (aremove item d') q
                (aremove_Permutation item d d' Hp) (NoDup_aremove item d Hnd)) as Hs.
  destruct (decrementExporters _ (aremove item d) q) as [[d1 q1]| |];
    destruct (decrementExporters _ (aremove item d') q) as [[d1' q1']| |];
    cbn [sameUpToOrder bind fst snd] in *; try done.
  destruct Hs as (Hp1 & Hnd1 & ->). by apply IH.
Qed.

Lemma possibleSorts_complete `{HashOrder} fuel g g' d d' result :
  (forall t, nodeOf g t = nodeOf g' t) ->
  d ≡ₚ d' -> NoDup d.*1 ->
  topsortLoop fuel g d result ∈ possibleSorts fuel g' d' result.
Proof.
  intros Hg. revert d d' result.
  induction fuel as [|fuel IH]; intros d d' result Hp Hnd.
  - destruct d as [|x d].
    + apply Permutation_nil_l in Hp; subst d'. cbn. apply list_elem_of_singleton. done.
    + destruct d' as [|x' d']; [by apply Permutation_nil_r in Hp|].
      cbn. by apply list_elem_of_singleton.
  - destruct d as [|x d].
    + apply Permutation_nil_l in Hp; subst d'. cbn. by apply list_elem_of_singleton.
    + destruct d' as [|x' d']; [by apply Permutation_nil_r in Hp|].
      cbn [topsortLoop possibleSorts].
      destruct (List.find _ (iterate degrees_iter (x :: d))) as [entry|] eqn:Ef.
      * apply find_some in Ef as [Hin Hz].
        apply bool_decide_eq_true in Hz. apply list_elem_of_In in Hin.
        rewrite iterate_perm, Hp in Hin.
        assert (entry ∈ filter (fun kv => kv.2 = 0%Z) (x' :: d')) as Hzs
          by by apply list_elem_of_filter.
        destruct (filter _ (x' :: d')) as [|z zs] eqn:Ez; [by apply elem_of_nil in Hzs|].
        apply list_elem_of_bind. exists entry. split; [|done].
        pose proof (drainQueue_any_order (length (x :: d)) g g' (x :: d) (x' :: d')
                      [entry.1] result Hg Hp Hnd) as Hs.
        rewrite <-(Permutation_length Hp).
        destruct (drainQueue _ g (x :: d) _ result) as [[d1 r1]| |];
          destruct (drainQueue _ g' (x' :: d') _ result) as [[d1' r1']| |];
          cbn [sameUpToOrder bind fst snd] in *; try done.
        -- destruct Hs as (Hp1 & Hnd1 & ->). by apply IH.
        -- subst. by apply list_elem_of_singleton.
        -- by apply list_elem_of_singleton.
      * assert (filter (fun kv => kv.2 = 0%Z) (x' :: d') = []) as ->.
        { apply filter_none. intros kv Hkv Hz. rewrite <-Hp in Hkv.
          rewrite <-(iterate_perm degrees_iter) in Hkv. apply list_elem_of_In in Hkv.
          apply (find_none _ _ Ef) in Hkv. by apply bool_decide_eq_false in Hkv. }
        by apply list_elem_of_singleton.
Qed.

Lemma initialDegrees_Permutation g g' :
  g ≡ₚ g' -> NoDup (targets g) -> initialDegrees g ≡ₚ initialDegrees g'.
Proof.
  intros Hp Hnd.
  assert (NoDup (targets g')) as Hnd' by (unfold targets in *; by rewrite <-Hp).
  assert (forall g0 kv, NoDup (targets g0) ->
            kv ∈ initialDegrees g0 <->
            exists n, n ∈ g0 /\ kv = (ntarget n, Z.of_nat (length (exports n)))) as Hchar.
  { intros g0 [k v] Hg0. split.
    - intros Hkv.
      assert (k ∈ targets g0) as Hk.
      { apply initialDegrees_keys. apply list_elem_of_fmap. by exists (k, v). }
      apply list_elem_of_fmap in Hk as (n & -> & Hn). exists n. split; [done|].
      f_equal. pose proof (initialDegrees_lookup g0 n Hg0 Hn) as Hl.
      apply (alookup_NoDup _ _ _ (initialDegrees_NoDup g0)) in Hkv. congruence.
    - intros (n & Hn & [= -> ->]). apply alookup_Some_elem.
      by apply initialDegrees_lookup. }
  apply NoDup_Permutation.
  - eapply NoDup_fmap_1, initialDegrees_NoDup.
  - eapply NoDup_fmap_1, initialDegrees_NoDup.
  - intros kv. rewrite !Hchar by done. by setoid_rewrite Hp.
Qed.

(** Whatever the iteration orders, [topsort] returns one of [possibleSorts]
    of the graph in insertion order. *)
Lemma topsort_possibleSorts `{HashOrder} g g' :
  g ≡ₚ g' -> NoDup (targets g) ->
  topsort g ∈ possibleSorts (length g') g' (initialDegrees g') [].
Proof.
  intros Hp Hnd. unfold topsort. rewrite (Permutation_length Hp).
  apply possibleSorts_complete.
  - intros t. symmetry. by apply nodeOf_Permutation.
  - by apply initialDegrees_Permutation.
  - apply initialDegrees_NoDup.
Qed.

(** * [run] on acyclic module sets *)

Lemma tc_chain {A} (R : A -> A -> Prop) a b :
  tc R a b -> exists l, chain R (a :: l ++ [b]).
Proof.
  induction 1 as [a b Hab|a b c Hab _ [l Hl]].
  - exists []. by split.
  - exists (b :: l). by split.
Qed.

Lemma no_exportCycle_acyclic `{HashOrder} h ms :
  (forall c, ~ exportCycle h ms c) -> acyclic (buildGraph h ms).
Proof.
  intros Hno a [l Hl]%tc_chain. apply (Hno (target_module <$> (a :: l))).
  apply isCycle_exportCycle. cbn [closedChain]. by rewrite <-app_comm_cons.
Qed.

Lemma acyclic_no_exportCycle `{HashOrder} h ms c :
  acyclic (buildGraph h ms) -> ~ exportCycle h ms c.
Proof. intros Hac [a Ha]%exportCycle_tc. by apply (Hac a). Qed.

Lemma resolveNodes_targets `{HashOrder} (Q : ImportTarget -> Prop) nodes exps0 exps :
  resolveNodes exps0 nodes = Ok exps ->
  (forall t v r, alookup t exps0 = Some v -> r ∈ v -> Q (target r)) ->
  (forall n ex, n ∈ nodes -> ex ∈ explicitlyExported n -> Q (target ex)) ->
  forall t v r, alookup t exps = Some v -> r ∈ v -> Q (target r).
Proof.
  revert exps0. induction nodes as [|n nodes IH]; intros exps0; cbn [resolveNodes].
  - by intros [= <-].
  - destruct (resolveNode exps0 n) as [exps1| |] eqn:E1; cbn [bind]; [|done..].
    apply resolveNode_Ok in E1 as [Hall ->]. intros Hrest H0 Hnodes.
    eapply IH; [done| |].
    + intros t v r. rewrite alookup_aupdate. case_decide as Ht; [|by apply H0].
      intros [= <-] Hr. apply unified_target_elem in Hr.
      apply list_elem_of_fmap in Hr as (x & -> & Hx).
      apply elem_of_app in Hx as [Hx|Hx].
      * eapply Hnodes; [left|done].
      * apply elem_of_transitiveOf in Hx as (ex & p & Hex & Hp & ->).
        cbn [target]. unfold resolvedIn_map in Hp.
        destruct (alookup (target ex) exps0) as [v'|] eqn:Ev;
          [|by apply elem_of_nil in Hp].
        by eapply H0.
    + intros n' ex Hn'. apply Hnodes. by right.
Qed.

Lemma topoSorted_resolveNodes `{HashOrder} tops :
  topoSorted tops -> exists exps, resolveNodes [] tops = Ok exps.
Proof.
  intros Hs. apply resolveNodes_total. intros l1 n l2 ex Hsplit Hex. right.
  unfold explicitlyExported in Hex.
  apply list_elem_of_fmap in Hex as (e & -> & He). cbn [target].
  by eapply Hs.
Qed.

Lemma reExportedSymbols_total `{CompilerContext} `{HashOrder} h resolved :
  (forall ex m, ex ∈ resolved -> target ex = ResolvedModule m -> is_Some (h !! m)) ->
  exists syms, reExportedSymbols h resolved = Ok syms.
Proof.
  induction resolved as [|ex rest IH]; intros Hall; cbn [reExportedSymbols]; [eauto|].
  assert (exists syms, targetExportedSymbols h (target ex) = Ok syms) as [syms ->].
  { unfold targetExportedSymbols, getBindings.
    destruct (target ex) as [m| | |] eqn:Et; eauto.
    destruct (Hall ex m) as [b ->]; [left|done|]. eauto. }
  cbn [bind]. destruct IH as [more ->]; [|cbn [bind]; eauto].
  intros ex' m Hex'. apply Hall. by right.
Qed.

Lemma resolveExportedSymbols_total `{CompilerContext} `{HashOrder} ms h :
  (forall m, m ∈ ms -> is_Some (h !! m)) ->
  (forall m b ex m', m ∈ ms -> h !! m = Some b -> ex ∈ resolvedExports b ->
     target ex = ResolvedModule m' -> is_Some (h !! m')) ->
  exists h', resolveExportedSymbols ms h = Ok h'.
Proof.
  revert h. induction ms as [|m ms IH]; intros h Hms Hres;
    cbn [resolveExportedSymbols]; [eauto|].
  destruct (Hms m) as [b Hb]; [left|].
  assert (exists h1, resolveModuleSymbols h m = Ok h1) as [h1 Hh1].
  { unfold resolveModuleSymbols, getBindings. rewrite Hb.
    destruct (reExportedSymbols_total h (resolvedExports b)) as [syms ->];
      [|cbn [bind]; eauto].
    intros ex m' Hex. eapply Hres; [left|done..]. }
  rewrite Hh1. cbn [bind].
  pose proof (resolveModuleSymbols_sameExports _ _ _ Hh1) as Hsame.
  assert (forall m', is_Some (h !! m') <-> is_Some (h1 !! m')) as Hdom.
  { intros m'. destruct (Hsame m') as [Hd _].
    destruct (h1 !! m'), (h !! m'); split; intros [? ?]; by simplify_eq/=. }
  apply IH.
  - intros m' Hm'. apply Hdom, Hms. by right.
  - intros m0 b0 ex m' Hm0 Hb0 Hex Htarget. apply Hdom.
    destruct (Hsame m0) as [_ Hr]. rewrite Hb0 in Hr.
    destruct (h !! m0) as [b0'|] eqn:Eb0; [|done]. cbn in Hr.
    injection Hr as Hr. eapply (Hres m0); [by right|done| |done]. by rewrite <-Hr.
Qed.

Lemma elem_of_moduleTargets ts m : m ∈ moduleTargets ts <-> ResolvedModule m ∈ ts.
Proof.
  unfold moduleTargets. rewrite list_elem_of_bind. split.
  - intros ([] & Hm & Ht); try by apply elem_of_nil in Hm.
    by apply list_elem_of_singleton in Hm as ->.
  - intros Ht. exists (ResolvedModule m). split; [left|done].
Qed.

(** [run] on a duplicate-free list of modules whose export declarations
    contain no cycle, all of whose graph modules have a bindings map:
    [run] returns; the nodes it sorted are the nodes of the graph with
    every exportee before its exporter; the list it returns holds the
    modules of the sorted nodes, each at its last occurrence.  When every
    export declaration targets a module, the returned list respects every
    declared export. *)
Lemma run_acyclic `{CompilerContext} `{HashOrder} h ms :
  NoDup ms -> bindingsPresent h ms -> (forall c, ~ exportCycle h ms c) ->
  exists l h' tops,
    run h ms = Ok (l, h') /\
    topsort (buildGraph h ms) = Ok tops /\
    tops ≡ₚ buildGraph h ms /\ topoSorted tops /\
    l = keepLast (modulesOf tops) /\
    (moduleTargetsOnly h ms -> exportsRespected h ms l).
Proof.
  intros Hnd Hpres Hno. unfold run.
  destruct (findCycles_spec (buildGraph h ms)) as (cycles & -> & Hgen & _).
  cbn [bind]. destruct cycles as [|c cycles].
  2:{ apply Forall_cons in Hgen as [Hc%isCycle_exportCycle _]. by apply Hno in Hc. }
  destruct (topsort_acyclic (buildGraph h ms) (buildGraph_wf h ms Hnd)
              (no_exportCycle_acyclic h ms Hno)) as (tops & Htop & Hperm & Hsorted).
  rewrite Htop. cbn [bind].
  assert (NoDup (targets tops)) as Htops.
  { unfold targets. rewrite Hperm. apply buildGraph_NoDup. }
  assert (forall t, t ∈ targets tops <-> t ∈ targets (buildGraph h ms)) as Hmem.
  { intros t. unfold targets. by rewrite Hperm. }
  assert (exists h1, resolveExports tops h = Ok h1) as [h1 Hh1].
  { unfold resolveExports.
    destruct (topoSorted_resolveNodes tops Hsorted) as [exps Eres].
    rewrite Eres. cbn [bind]. apply storeExports_total.
    intros m exs Hin. apply Hpres, Hmem.
    pose proof (resolveNodes_spec tops [] exps Htops (fun _ _ => eq_refl) Eres)
      as (_ & _ & Hkeys).
    rewrite iterate_perm in Hin.
    apply (list_elem_of_fmap_2 fst) in Hin. apply Hkeys in Hin as [Hin|Hin]; [|done].
    by rewrite fmap_nil in Hin; apply elem_of_nil in Hin. }
  rewrite Hh1. cbn [bind].
  pose proof (resolveExports_heap _ _ _ Htops Hh1)
    as (exps & Eres & Hnodes & Hkeys & Hmods & Hdecl).
  assert (forall m, is_Some (h !! m) -> is_Some (h1 !! m)) as Hdom.
  { intros m [b Hb]. specialize (Hdecl m). rewrite Hb in Hdecl.
    destruct (h1 !! m); [eauto|done]. }
  destruct (resolveExportedSymbols_total (moduleTargets (ntarget <$> tops)) h1)
    as [h2 Hh2].
  { intros m Hm%elem_of_moduleTargets. apply Hdom, Hpres, Hmem. done. }
  { intros m b ex m' Hm%elem_of_moduleTargets Hb Hex Htarget.
    apply Hdom, Hpres. rewrite <-Htarget.
    destruct (Hmods m Hm) as [_ Hrm].
    unfold resolvedExportsOf, getBindings in Hrm. rewrite Hb in Hrm. cbn in Hrm.
    rewrite Hrm in Hex. unfold resolvedIn_map in Hex.
    destruct (alookup (ResolvedModule m) exps) as [v|] eqn:Ev;
      [|by apply elem_of_nil in Hex].
    eapply (resolveNodes_targets (fun t => t ∈ targets (buildGraph h ms)));
      [exact Eres| | |exact Ev|exact Hex].
    - done.
    - intros n ex' Hn Hex'. unfold explicitlyExported in Hex'.
      apply list_elem_of_fmap in Hex' as (e & -> & He). cbn [target].
      rewrite Hperm in Hn.
      by eapply (wf_exportee _ (buildGraph_wf h ms Hnd)). }
  rewrite Hh2. cbn [bind]. eexists _, h2, tops.
  split_and!; [done..|apply lastOccurrences_modulesOf|].
  intros Honly. rewrite lastOccurrences_modulesOf.
  assert (forall t, t ∈ targets tops -> t = ResolvedModule (target_module t)) as Hmod.
  { intros t Ht%Hmem%targets_buildGraph%buildNodes_targets.
    destruct Ht as [(m & -> & _)%list_elem_of_fmap|(m & Hm & Ht)]; [done|].
    apply list_elem_of_fmap in Ht as (d & -> & Hd).
    destruct (Honly m d Hm Hd) as [m' ->]. done. }
  assert (NoDup (modulesOf tops)) as Hmods_nd.
  { unfold modulesOf. fold (targets tops).
    apply (NoDup_fmap_1 ResolvedModule). rewrite <-list_fmap_compose.
    rewrite (list_fmap_ext _ id (targets tops)), list_fmap_id; [done|].
    intros i t Ht%list_elem_of_lookup_2. cbn. symmetry. by apply Hmod. }
  rewrite keepLast_NoDup by done.
  intros exp d Hexp Hd Hne.
  assert (nodeOf (buildGraph h ms) (ResolvedModule exp) ∈ tops) as Hin.
  { rewrite Hperm. apply nodeOf_elem, targets_buildGraph, buildNodes_targets.
    left. by apply list_elem_of_fmap_2. }
  apply list_elem_of_split in Hin as (l1 & l2 & Hsplit).
  assert (target d ∈ targets l1) as Hd1.
  { apply (Hsorted l1 _ l2 (edgeOf (ResolvedModule exp) d) Hsplit).
    rewrite exports_buildGraph by done. unfold edgesOf.
    by apply list_elem_of_fmap_2. }
  apply (list_elem_of_fmap_2 target_module) in Hd1.
  apply list_elem_of_split in Hd1 as (k1 & k2 & Hk).
  exists k1, k2, (modulesOf l2). unfold modulesOf. rewrite Hsplit.
  rewrite !fmap_app, !fmap_cons. fold (targets l1). rewrite Hk.
  rewrite ntarget_nodeOf. cbn [target_module]. by rewrite <-app_assoc.
Qed.

(** A module of the graph whose bindings map is [null]: [buildGraph] reads
    no exports for it, and [resolveExports] fails with a
    [NullPointerException] when it stores the resolved exports of the
    module. *)
Lemma run_null_bindings `{CompilerContext} `{HashOrder} h ms m :
  NoDup ms -> (forall c, ~ exportCycle h ms c) ->
  ResolvedModule m ∈ targets (buildGraph h ms) -> h !! m = None ->
  run h ms = Throw NullPointerException.
Proof.
  intros Hnd Hno Hm Hnull. unfold run.
  destruct (findCycles_spec (buildGraph h ms)) as (cycles & -> & Hgen & _).
  cbn [bind]. destruct cycles as [|c cycles].
  2:{ apply Forall_cons in Hgen as [Hc%isCycle_exportCycle _]. by apply Hno in Hc. }
  destruct (topsort_acyclic (buildGraph h ms) (buildGraph_wf h ms Hnd)
              (no_exportCycle_acyclic h ms Hno)) as (tops & Htop & Hperm & Hsorted).
  rewrite Htop. cbn [bind].
  assert (NoDup (targets tops)) as Htops.
  { unfold targets. rewrite Hperm. apply buildGraph_NoDup. }
  unfold resolveExports.
  destruct (topoSorted_resolveNodes tops Hsorted) as [exps Eres].
  rewrite Eres. cbn [bind].
  rewrite storeExports_missing; [done|].
  intros Hall.
  pose proof (resolveNodes_spec tops [] exps Htops (fun _ _ => eq_refl) Eres)
    as (_ & _ & Hkeys).
  assert (ResolvedModule m ∈ exps.*1) as Hk.
  { apply Hkeys. right. unfold targets in *. by rewrite Hperm. }
  apply list_elem_of_fmap in Hk as ([t exs] & Ht & Hin). cbn [fst] in Ht. subst t.
  rewrite <-(iterate_perm exports_iter) in Hin.
  apply Hall in Hin. rewrite Hnull in Hin. by destruct Hin.
Qed.

Example run_null_bindings_example :
  run (H := exampleContext) (H0 := insertion_order) ∅ [A]
  = Throw NullPointerException.
Proof. vm_compute. reflexivity. Qed.

(** * The module order on [typeExport] *)

Lemma typeExport_no_cycle c : ~ exportCycle typeExport [A; B; C] c.
Proof.
  apply (acyclic_no_exportCycle (H := insertion_order)).
  destruct (findCycles_spec (buildGraph (H := insertion_order) typeExport [A; B; C]))
    as (cycles & Hf & _ & Hac).
  apply Hac. vm_compute in Hf. by injection Hf as <-.
Qed.

Lemma typeExport_bindingsPresent `{HashOrder} : bindingsPresent typeExport [A; B; C].
Proof.
  intros m Hm%targets_buildGraph. vm_compute in Hm.
  repeat (apply elem_of_cons in Hm as [Hm|Hm]; [simplify_eq; by eexists|]).
  by apply elem_of_nil in Hm.
Qed.

(** Whatever the iteration orders, [topsort] puts the nodes of [typeExport]
    in one of two orders: [A], [B], [T], [C] or [T], [C], [A], [B]. *)
Lemma typeExport_sorts `{HashOrder} tops :
  topsort (buildGraph typeExport [A; B; C]) = Ok tops ->
  targets tops = [ResolvedModule A; ResolvedModule B; T; ResolvedModule C] \/
  targets tops = [T; ResolvedModule C; ResolvedModule A; ResolvedModule B].
Proof.
  intros Htop.
  pose proof (topsort_possibleSorts (buildGraph typeExport [A; B; C])
                (buildNodes typeExport [A; B; C]) (iterate_perm _ _)
                (buildGraph_NoDup _ _)) as Hin.
  rewrite Htop in Hin.
  set (ps := possibleSorts _ _ _ _) in Hin. vm_compute in ps. subst ps.
  repeat (apply elem_of_cons in Hin as [Hin|Hin];
          [injection Hin as ->; vm_compute; auto|]).
  by apply elem_of_nil in Hin.
Qed.

Lemma typeExport_not_respected l :
  l = [B; A; C] \/ l = [C; A; B] -> ~ exportsRespected typeExport [A; B; C] l.
Proof.
  intros [->| ->] Hr.
  - assert (occursBefore [B; A; C] A B) as Hb.
    { apply (Hr B (mkExportedModule (ResolvedModule A) None ["A"]));
        [by apply (bool_decide_unpack _)|left|done]. }
    refute_order Hb.
  - assert (occursBefore [C; A; B] A C) as Hb.
    { apply (Hr C (mkExportedModule T None ["T"]));
        [by apply (bool_decide_unpack _)|left|done]. }
    refute_order Hb.
Qed.

Lemma typeExport_run `{CompilerContext} `{HashOrder} :
  exists l h' tops,
    run typeExport [A; B; C] = Ok (l, h') /\
    topsort (buildGraph typeExport [A; B; C]) = Ok tops /\
    topoSorted tops /\
    l = keepLast (modulesOf tops) /\
    (l = [B; A; C] \/ l = [C; A; B]).
Proof.
  destruct (run_acyclic typeExport [A; B; C])
    as (l & h' & tops & Hrun & Htop & _ & Hsorted & Hl & _).
  - by apply (bool_decide_unpack _).
  - apply typeExport_bindingsPresent.
  - apply typeExport_no_cycle.
  - exists l, h', tops. split_and!; [done..|].
    subst l. unfold modulesOf. fold (targets tops).
    destruct (typeExport_sorts tops Htop) as [-> | ->]; vm_compute; auto.
Qed.

Example typeExport_insertion_order :
  fst <$> returned (run (H := exampleContext) (H0 := insertion_order)
                      typeExport [A; B; C]) = Some [B; A; C].
Proof. vm_compute. reflexivity. Qed.

Example typeExport_reverse_nodes_order :
  fst <$> returned (run (H := exampleContext) (H0 := reverse_nodes_order)
                      typeExport [A; B; C]) = Some [C; A; B].
Proof. vm_compute. reflexivity. Qed.

(** C1, at the input where it fails.  [B] exports the module [A] and [C]
    exports the type [T] of [A]; the export declarations contain no cycle.
    Whatever the iteration orders of the hash maps, [run] returns, and the
    list it returns is [B], [A], [C], with [B] before the module [A] it
    exports, or [C], [A], [B], with [C] before the module [A] whose type it
    exports: in neither list does every exported module precede its
    exporter. *)
Theorem run_breaks_module_order `{CompilerContext} `{HashOrder} :
  (forall c, ~ exportCycle typeExport [A; B; C] c) /\
  declares typeExport B A /\
  exists l h',
    run typeExport [A; B; C] = Ok (l, h') /\
    (l = [B; A; C] \/ l = [C; A; B]) /\
    ~ exportsRespected typeExport [A; B; C] l.
Proof.
  split_and!.
  - apply typeExport_no_cycle.
  - eexists. split; [left|reflexivity].
  - destruct typeExport_run as (l & h' & tops & Hrun & _ & _ & _ & Hl).
    exists l, h'. split_and!; [done..|]. by apply typeExport_not_respected.
Qed.

(** C9, at the input where it fails.  Whatever the iteration orders, the
    nodes of [typeExport] are sorted with every exportee before its
    exporter, and [run] and [runSort] return the modules of the sorted nodes
    with each module once, at its last occurrence.  The sorted nodes are
    [A], [B], [T], [C] or [T], [C], [A], [B]; the module [A] of the nodes
    [A] and [T] is kept at the later of the two, and the list that is left
    does not respect the export declarations. *)
Theorem last_occurrence_breaks_order `{CompilerContext} `{HashOrder} :
  exists tops l h',
    topsort (buildGraph typeExport [A; B; C]) = Ok tops /\
    topoSorted tops /\
    run typeExport [A; B; C] = Ok (l, h') /\
    runSort typeExport [A; B; C] = Ok l /\
    l = keepLast (modulesOf tops) /\
    NoDup l /\
    (modulesOf tops = [A; B; A; C] /\ l = [B; A; C] \/
     modulesOf tops = [A; C; A; B] /\ l = [C; A; B]) /\
    ~ exportsRespected typeExport [A; B; C] l.
Proof.
  destruct typeExport_run as (l & h' & tops & Hrun & Htop & Hsorted & Hl & Hcases).
  exists tops, l, h'. split_and!; [done..| |done| | |].
  - unfold runSort. rewrite Htop. cbn [bind].
    by rewrite lastOccurrences_modulesOf, Hl.
  - rewrite Hl. apply NoDup_keepLast.
  - unfold modulesOf in *. fold (targets tops) in *.
    destruct (typeExport_sorts tops Htop) as [Ht|Ht]; rewrite Ht in *;
      [left|right]; by vm_compute.
  - by apply typeExport_not_respected.
Qed.

(** * Privacy

    Export resolution reads no privacy flag.  The private modules are given
    by a marking [isPrivate] that stands beside the heap; [run] does not
    take it. *)




(** The same run, read off the heap it leaves. *)
Example run_alone_ignores_privacy :
  resolvedExportsOf (heapAfter (H := exampleContext) (H0 := insertion_order)
                       exportsPrivate [P; A]) A
  = [mkExportedModule (ResolvedModule P) (Some "P2") ["P"]].
Proof. vm_compute. reflexivity. Qed.


(** * The cycles that [findCycles] reports are simple *)

Section flatMapGo_simple.
Context (f : ImportTarget -> CycleSearch
             -> Result (option (ImportTarget * list ImportTarget) * CycleSearch)).
Hypothesis Hf : forall c st res st', f c st = Ok (res, st') -> simplePaths st res st'.

Lemma flatMapGo_simple children st results st' :
  flatMapGo f children st = Ok (results, st') ->
  inProgress st' = inProgress st /\
  (exists new, foundCycles st' = new ++ foundCycles st /\ Forall NoDup new) /\
  Forall (fun r => NoDup r.2 /\ forall x, x ∈ r.2 -> x ∉ inProgress st) results.
Proof using Hf.
  revert st results st'. induction children as [|c children IH];
    intros st results st'; cbn [flatMapGo].
  - intros [= <- <-]. split_and!; [done|by exists []|apply Forall_nil_2].
  - destruct (f c st) as [[res st1]| |] eqn:Ec; cbn [bind fst snd]; [|done..].
    destruct (flatMapGo f children st1) as [[rs st2]| |] eqn:Er;
      cbn [bind fst snd]; [|done..].
    intros [= <- <-].
    destruct (Hf c st res st1 Ec) as (HP1 & (new1 & HF1 & Hnew1) & Hpath).
    destruct (IH st1 rs st2 Er) as (HP2 & (new2 & HF2 & Hnew2) & Hrs).
    split_and!.
    + by rewrite HP2.
    + exists (new2 ++ new1). split; [by rewrite HF2, HF1, app_assoc|].
      by apply Forall_app.
    + apply Forall_app. split.
      * destruct res as [[m path]|]; [|apply Forall_nil_2].
        apply Forall_singleton. by apply (Hpath m path).
      * eapply Forall_impl; [done|]. intros r [Hnd Hx]. split; [done|].
        intros x Hin. rewrite <-HP1. by apply Hx.
Qed.
End flatMapGo_simple.

Lemma go_simple fuel g node st res st' :
  go fuel g node st = Ok (res, st') -> simplePaths st res st'.
Proof.
  revert node st res st'. induction fuel as [|fuel IH]; intros node st res st';
    cbn [go].
  - destruct (decide (node ∈ inProgress st)) as [HinP|HninP].
    { intros [= <- <-]. split_and!; [done|by exists []|].
      intros m path [= <- <-]. split; [apply NoDup_nil_2|by intros ? ?%elem_of_nil]. }
    destruct (decide (node ∈ visited st)); [|done].
    intros [= <- <-]. split_and!; [done|by exists []|done].
  - destruct (decide (node ∈ inProgress st)) as [HinP|HninP].
    { intros [= <- <-]. split_and!; [done|by exists []|].
      intros m path [= <- <-]. split; [apply NoDup_nil_2|by intros ? ?%elem_of_nil]. }
    destruct (decide (node ∈ visited st)).
    { intros [= <- <-]. split_and!; [done|by exists []|done]. }
    set (st1 := mkCycleSearch (visited st) ({[node]} ∪ inProgress st) (foundCycles st)).
    destruct (flatMapGo (go fuel g) (exportee <$> exports (nodeOf g node)) st1)
      as [[results st2]| |] eqn:Eflat; cbn [bind fst snd]; [|done..].
    destruct (flatMapGo_simple (go fuel g) (fun c st res st' => IH c st res st')
                _ st1 results st2 Eflat) as (HP2 & (new & HF2 & Hnew) & Hres).
    unfold st1 in HP2, HF2, Hres. cbn [inProgress foundCycles] in HP2, HF2, Hres.
    assert (inProgress st2 ∖ {[node]} = inProgress st) as HP3.
    { rewrite HP2. apply set_eq. intros x. set_solver. }
    destruct results as [|[md path] results'].
    + intros [= <- <-]. cbn [inProgress foundCycles]. split_and!; [done| |done].
      by exists new.
    + apply Forall_cons in Hres as [[Hnd Hx] _]. cbn [snd] in Hnd, Hx.
      assert (node ∉ path) as Hnode.
      { intros Hin%Hx. apply Hin. set_solver. }
      destruct (decide (md = node)) as [->|Hne].
      * intros [= <- <-]. cbn [inProgress foundCycles visited].
        split_and!; [done| |done].
        exists ((node :: path) :: new). split; [by rewrite HF2|].
        apply Forall_cons. split; [|done]. by apply NoDup_cons.
      * intros [= <- <-]. cbn [inProgress foundCycles]. split_and!; [done| |].
        -- by exists new.
        -- intros m p [= <- <-]. split; [by apply NoDup_cons|].
           intros x [->|Hin]%elem_of_cons; [done|].
           specialize (Hx x Hin). set_solver.
Qed.

Lemma goAll_simple fuel g nodes st st' :
  goAll fuel g nodes st = Ok st' ->
  exists new, foundCycles st' = new ++ foundCycles st /\ Forall NoDup new.
Proof.
  revert st. induction nodes as [|n nodes IH]; intros st; cbn [goAll].
  - intros [= <-]. by exists [].
  - destruct (go fuel g (ntarget n) st) as [[res st1]| |] eqn:Ego;
      cbn [bind fst snd]; [|done..].
    intros Hrest.
    destruct (go_simple _ _ _ _ _ _ Ego) as (_ & (new1 & HF1 & Hnew1) & _).
    destruct (IH st1 Hrest) as (new2 & HF2 & Hnew2).
    exists (new2 ++ new1). split; [by rewrite HF2, HF1, app_assoc|].
    by apply Forall_app.
Qed.

Lemma findCycles_simple g cycles :
  findCycles g = Ok cycles -> Forall NoDup cycles.
Proof.
  unfold findCycles.
  destruct (goAll _ g g _) as [st'| |] eqn:Ego; cbn [bind]; [|done..].
  intros [= <-].
  destruct (goAll_simple _ _ _ _ _ Ego) as (new & -> & Hnew).
  cbn [foundCycles]. by rewrite app_nil_r.
Qed.

(** * The graph that [buildGraph] returns *)

(** X1.  The nodes of the graph: one node for each input module and one for each
    target of an export declaration of an input module, no target twice.
    With no input module the graph is empty. *)
Theorem buildGraph_nodes `{HashOrder} (h : Heap) (modules : list Module) :
  NoDup (targets (buildGraph h modules)) /\
  (forall t, t ∈ targets (buildGraph h modules) <->
     (exists m, m ∈ modules /\ t = ResolvedModule m) \/
     (exists m d, m ∈ modules /\ d ∈ declaredExports h m /\ t = target d)) /\
  (modules = [] -> buildGraph h modules = []).
Proof.
  split_and!.
  - apply buildGraph_NoDup.
  - intros t. rewrite targets_buildGraph, buildNodes_targets.
    rewrite list_elem_of_fmap. setoid_rewrite list_elem_of_fmap.
    split.
    + intros [(m & -> & Hm)|(m & Hm & d & -> & Hd)]; [left|right]; eauto.
    + intros [(m & Hm & ->)|(m & d & Hm & Hd & ->)]; [left|right]; eauto.
  - intros ->. apply Permutation_nil_r. unfold buildGraph. by rewrite iterate_perm.
Qed.

(** X2.  The edges of the graph: the node of an input module carries one edge
    for each of its export declarations, in the order of the declarations,
    with the declaration's symbols, alias and target; every other node, made
    for an export target that is no input module, carries no edge.  A module
    whose bindings map is [null] declares nothing and its node carries no
    edge. *)
Theorem buildGraph_exports `{HashOrder} (h : Heap) (modules : list Module) :
  Forall (fun N =>
            exports N =
            match ntarget N with
            | ResolvedModule m =>
                if decide (m ∈ modules)
                then (fun d => mkEdge (ResolvedModule m) (symbols d) (exportedAs d)
                                 (target d)) <$> declaredExports h m
                else []
            | _ => []
            end /\
            (forall m, ntarget N = ResolvedModule m -> h !! m = None ->
                       exports N = []))
         (buildGraph h modules).
Proof.
  apply Forall_forall. intros N HN.
  assert (N = nodeOf (buildNodes h modules) (ntarget N)) as HNeq.
  { apply buildNodes_elem. by apply elem_of_buildGraph. }
  assert (exports N =
          match ntarget N with
          | ResolvedModule m =>
              if decide (m ∈ modules)
              then (fun d => mkEdge (ResolvedModule m) (symbols d) (exportedAs d)
                               (target d)) <$> declaredExports h m
              else []
          | _ => []
          end) as Hexp.
  { rewrite HNeq at 1. rewrite buildNodes_exports.
    destruct (ntarget N) as [m| | |] eqn:Et.
    - cbn [target_module]. destruct (decide (m ∈ modules)) as [Hm|Hm].
      + rewrite decide_True by by apply list_elem_of_fmap_2. done.
      + rewrite decide_False; [done|].
        intros (m' & [= ->] & Hm')%list_elem_of_fmap. done.
    - rewrite decide_False; [done|]. by intros (m' & [=] & _)%list_elem_of_fmap.
    - rewrite decide_False; [done|]. by intros (m' & [=] & _)%list_elem_of_fmap.
    - rewrite decide_False; [done|]. by intros (m' & [=] & _)%list_elem_of_fmap. }
  split; [done|]. intros m Hm Hnull. rewrite Hexp, Hm.
  case_decide; [|done]. unfold declaredExports, getBindings. by rewrite Hnull.
Qed.

(** * [findCycles] on any node list *)

Lemma isCycle_not_acyclic g c : isCycle g c -> ~ acyclic g.
Proof. intros (a & _ & Ha)%isCycle_tc Hac. by apply (Hac a). Qed.

(** X3.  [findCycles] always returns; every chain it reports is a closed walk
    along export edges and names no node twice; it reports no chain exactly
    when the graph has no cycle. *)
Theorem findCycles_decides_acyclic (g : list Node) :
  exists cycles,
    findCycles g = Ok cycles /\
    Forall (isCycle g) cycles /\
    Forall NoDup cycles /\
    (cycles = [] <-> acyclic g).
Proof.
  destruct (findCycles_spec g) as (cycles & Hf & Hgen & Hac).
  exists cycles. split_and!; [done..|by apply (findCycles_simple g)|].
  split; [done|].
  intros Hacyclic. destruct cycles as [|c cycles]; [done|].
  apply Forall_cons in Hgen as [Hc _]. by apply isCycle_not_acyclic in Hc.
Qed.

(** A search that reports no cycle shows that the declarations have none. *)
Lemma no_exportCycle_by_search h ms :
  findCycles (buildGraph (H := insertion_order) h ms) = Ok [] ->
  forall c, ~ exportCycle h ms c.
Proof.
  intros Hf c. apply (acyclic_no_exportCycle (H := insertion_order)).
  destruct (findCycles_spec (buildGraph (H := insertion_order) h ms))
    as (cycles & Hf' & _ & Hac).
  apply Hac. congruence.
Qed.

(** * [topsort] on the graph of an acyclic module set *)

(** X4.  On the graph of a duplicate-free module list whose export declarations
    contain no cycle, [topsort] returns every node of the graph exactly once,
    and whatever a node exports stands before it. *)
Theorem topsort_sorts_acyclic_graph `{HashOrder} (h : Heap) (modules : list Module) :
  NoDup modules -> (forall c, ~ exportCycle h modules c) ->
  exists tops,
    topsort (buildGraph h modules) = Ok tops /\
    tops ≡ₚ buildGraph h modules /\
    NoDup tops /\
    forall l1 n l2 e, tops = l1 ++ n :: l2 -> e ∈ exports n ->
      exists x, x ∈ l1 /\ ntarget x = exportee e.
Proof.
  intros Hnd Hno.
  destruct (topsort_acyclic (buildGraph h modules) (buildGraph_wf h modules Hnd)
              (no_exportCycle_acyclic h modules Hno)) as (tops & Htop & Hperm & Hsorted).
  exists tops. split_and!; [done..| |].
  - apply (NoDup_fmap_1 ntarget). fold (targets tops). unfold targets.
    rewrite Hperm. apply buildGraph_NoDup.
  - intros l1 n l2 e Hsplit He.
    specialize (Hsorted l1 n l2 e Hsplit He).
    apply list_elem_of_fmap in Hsorted as (x & Hx & Hin). exists x. by split.
Qed.

Lemma topsort_sorts_acyclic_graph_witness :
  exists tops,
    topsort (H := insertion_order)
      (buildGraph (H := insertion_order) restricted [A; B]) = Ok tops /\
    tops ≡ₚ buildGraph (H := insertion_order) restricted [A; B] /\
    NoDup tops /\
    forall l1 n l2 e, tops = l1 ++ n :: l2 -> e ∈ exports n ->
      exists x, x ∈ l1 /\ ntarget x = exportee e.
Proof.
  apply (@topsort_sorts_acyclic_graph insertion_order restricted [A; B]).
  - by apply (bool_decide_unpack _).
  - apply no_exportCycle_by_search. vm_compute. reflexivity.
Defined.

Import MoreExamples.

(** * What [run] and [runSort] return *)

Lemma bindingsPresent_declared `{HashOrder} h ms :
  (forall m, m ∈ ms -> is_Some (h !! m)) ->
  (forall m d m', m ∈ ms -> d ∈ declaredExports h m ->
     target d = ResolvedModule m' -> is_Some (h !! m')) ->
  bindingsPresent h ms.
Proof.
  intros Hin Hout m [Hm|Hm]%targets_buildGraph%buildNodes_targets.
  - apply list_elem_of_fmap in Hm as (m' & [= ->] & Hm'). by apply Hin.
  - destruct Hm as (m' & Hm' & (d & Hd & Hin')%list_elem_of_fmap).
    by eapply Hout.
Qed.

Lemma graph_module `{HashOrder} h ms m :
  (m ∈ ms \/ exists m' d, m' ∈ ms /\ d ∈ declaredExports h m' /\
                          target d = ResolvedModule m) ->
  ResolvedModule m ∈ targets (buildGraph h ms).
Proof.
  intros Hm. apply targets_buildGraph, buildNodes_targets.
  destruct Hm as [Hm|(m' & d & Hm' & Hd & Ht)].
  - left. by apply list_elem_of_fmap_2.
  - right. exists m'. split; [done|]. rewrite <-Ht. by apply list_elem_of_fmap_2.
Qed.

(** The modules of the graph: the input modules and the modules of their
    export targets. *)
Lemma modulesOf_graph `{HashOrder} h ms tops m :
  tops ≡ₚ buildGraph h ms ->
  m ∈ modulesOf tops <->
  m ∈ ms \/ exists m' d, m' ∈ ms /\ d ∈ declaredExports h m' /\
                         target_module (target d) = m.
Proof.
  intros Hperm. unfold modulesOf. rewrite Hperm. fold (targets (buildGraph h ms)).
  rewrite list_elem_of_fmap. setoid_rewrite targets_buildGraph.
  setoid_rewrite buildNodes_targets. split.
  - intros (t & -> & [Ht|(m' & Hm' & Ht)]).
    + apply list_elem_of_fmap in Ht as (m' & -> & Hm'). by left.
    + apply list_elem_of_fmap in Ht as (d & -> & Hd). right. eauto.
  - intros [Hm|(m' & d & Hm' & Hd & <-)].
    + exists (ResolvedModule m). split; [done|]. left. by apply list_elem_of_fmap_2.
    + exists (target d). split; [done|]. right. exists m'. split; [done|].
      by apply list_elem_of_fmap_2.
Qed.

(** When every export declaration targets a module, the modules of a sorted
    node list respect every declared export. *)
Lemma sorted_modules_respect_exports `{HashOrder} h ms tops :
  tops ≡ₚ buildGraph h ms -> topoSorted tops -> moduleTargetsOnly h ms ->
  exportsRespected h ms (keepLast (modulesOf tops)).
Proof.
  intros Hperm Hsorted Honly.
  assert (forall t, t ∈ targets tops <-> t ∈ targets (buildGraph h ms)) as Hmem.
  { intros t. unfold targets. by rewrite Hperm. }
  assert (NoDup (targets tops)) as Htops.
  { unfold targets. rewrite Hperm. apply buildGraph_NoDup. }
  assert (forall t, t ∈ targets tops -> t = ResolvedModule (target_module t)) as Hmod.
  { intros t Ht%Hmem%targets_buildGraph%buildNodes_targets.
    destruct Ht as [(m & -> & _)%list_elem_of_fmap|(m & Hm & Ht)]; [done|].
    apply list_elem_of_fmap in Ht as (d & -> & Hd).
    destruct (Honly m d Hm Hd) as [m' ->]. done. }
  assert (NoDup (modulesOf tops)) as Hmods_nd.
  { unfold modulesOf. fold (targets tops).
    apply (NoDup_fmap_1 ResolvedModule). rewrite <-list_fmap_compose.
    rewrite (list_fmap_ext _ id (targets tops)), list_fmap_id; [done|].
    intros i t Ht%list_elem_of_lookup_2. cbn. symmetry. by apply Hmod. }
  rewrite keepLast_NoDup by done.
  intros exp d Hexp Hd Hne.
  assert (nodeOf (buildGraph h ms) (ResolvedModule exp) ∈ tops) as Hin.
  { rewrite Hperm. apply nodeOf_elem, targets_buildGraph, buildNodes_targets.
    left. by apply list_elem_of_fmap_2. }
  apply list_elem_of_split in Hin as (l1 & l2 & Hsplit).
  assert (target d ∈ targets l1) as Hd1.
  { apply (Hsorted l1 _ l2 (edgeOf (ResolvedModule exp) d) Hsplit).
    rewrite exports_buildGraph by done. unfold edgesOf.
    by apply list_elem_of_fmap_2. }
  apply (list_elem_of_fmap_2 target_module) in Hd1.
  apply list_elem_of_split in Hd1 as (k1 & k2 & Hk).
  exists k1, k2, (modulesOf l2). unfold modulesOf. rewrite Hsplit.
  rewrite !fmap_app, !fmap_cons. fold (targets l1). rewrite Hk.
  rewrite ntarget_nodeOf. cbn [target_module]. by rewrite <-app_assoc.
Qed.

(** X5.  [run] on a duplicate-free module list without export cycle, when every
    input module and every exported module has a bindings map: [run]
    returns.  When, in addition, every export declaration targets a module,
    every exported module stands before its exporter in the returned
    list. *)
Theorem run_sorts_acyclic_input `{CompilerContext} `{HashOrder}
    (h : Heap) (modules : list Module) :
  NoDup modules ->
  (forall c, ~ exportCycle h modules c) ->
  (forall m, m ∈ modules -> is_Some (h !! m)) ->
  (forall m d m', m ∈ modules -> d ∈ declaredExports h m ->
     target d = ResolvedModule m' -> is_Some (h !! m')) ->
  exists l h',
    run h modules = Ok (l, h') /\
    (moduleTargetsOnly h modules -> exportsRespected h modules l).
Proof.
  intros Hnd Hno Hin Hout.
  destruct (run_acyclic h modules Hnd (bindingsPresent_declared h modules Hin Hout) Hno)
    as (l & h' & tops & Hrun & _ & Hperm & Hsorted & -> & _).
  exists (keepLast (modulesOf tops)), h'. split; [done|].
  by apply sorted_modules_respect_exports.
Qed.

Lemma threeChain_moduleTargetsOnly : moduleTargetsOnly threeChain [A; B; C].
Proof.
  intros m d Hm Hd.
  repeat (apply elem_of_cons in Hm as [->|Hm];
          [vm_compute in Hd;
           repeat (apply elem_of_cons in Hd as [->|Hd]; [by eexists|]);
           by apply elem_of_nil in Hd|]).
  by apply elem_of_nil in Hm.
Qed.

Lemma run_sorts_acyclic_input_witness :
  exists l h',
    run (H := exampleContext) (H0 := insertion_order) threeChain [A; B; C]
      = Ok (l, h') /\
    exportsRespected threeChain [A; B; C] l.
Proof.
  destruct (@run_sorts_acyclic_input exampleContext insertion_order threeChain
              [A; B; C]) as (l & h' & Hrun & Hresp).
  - by apply (bool_decide_unpack _).
  - apply no_exportCycle_by_search. vm_compute. reflexivity.
  - intros m Hm. repeat (apply elem_of_cons in Hm as [->|Hm]; [by eexists|]).
    by apply elem_of_nil in Hm.
  - intros m d m' Hm Hd Ht.
    destruct (threeChain_moduleTargetsOnly m d Hm Hd) as [m'' Hm''].
    rewrite Ht in Hm''. injection Hm'' as ->.
    repeat (apply elem_of_cons in Hm as [->|Hm];
            [vm_compute in Hd;
             repeat (apply elem_of_cons in Hd as [->|Hd];
                     [injection Ht as <-; by eexists|]);
             by apply elem_of_nil in Hd|]).
    by apply elem_of_nil in Hm.
  - exists l, h'. split; [done|]. apply Hresp, threeChain_moduleTargetsOnly.
Defined.

(** X7.  The list [run] returns holds every input module and every module of an
    export target of an input module, each once, and no other module;
    [runSort] returns the same list. *)
Theorem run_returns_graph_modules `{CompilerContext} `{HashOrder}
    (h : Heap) (modules : list Module) (l : list Module) (h' : Heap) :
  run h modules = Ok (l, h') ->
  NoDup l /\
  (forall m, m ∈ l <->
     m ∈ modules \/
     exists m' d, m' ∈ modules /\ d ∈ declaredExports h m' /\
                  target_module (target d) = m) /\
  runSort h modules = Ok l.
Proof.
  intros Hrun.
  destruct (run_returns_last_occurrences h modules l h' Hrun)
    as (tops & Htop & -> & Hnd & Hmem).
  split_and!; [done| |].
  - intros m. rewrite Hmem. apply modulesOf_graph.
    apply topsort_Permutation; [apply buildGraph_NoDup|done].
  - unfold runSort. rewrite Htop. cbn [bind]. by rewrite lastOccurrences_modulesOf.
Qed.

Lemma run_returns_graph_modules_witness :
  NoDup [B; A; C] /\
  (forall m, m ∈ [B; A; C] <->
     m ∈ [A; B; C] \/
     exists m' d, m' ∈ [A; B; C] /\ d ∈ declaredExports typeExport m' /\
                  target_module (target d) = m) /\
  runSort (H := insertion_order) typeExport [A; B; C] = Ok [B; A; C].
Proof.
  apply (@run_returns_graph_modules exampleContext insertion_order typeExport
           [A; B; C] [B; A; C]
           (heapAfter (H := exampleContext) (H0 := insertion_order)
              typeExport [A; B; C])).
  vm_compute. reflexivity.
Defined.

(** X9.  A module of the graph (an input module, or a module that an input
    module exports) whose bindings map is [null], in a duplicate-free module
    list without export cycle: [run] fails with a [NullPointerException],
    while [runSort], which stores nothing, returns a list. *)
Theorem run_fails_on_null_bindings `{CompilerContext} `{HashOrder}
    (h : Heap) (modules : list Module) (m : Module) :
  NoDup modules ->
  (forall c, ~ exportCycle h modules c) ->
  (m ∈ modules \/
   exists m' d, m' ∈ modules /\ d ∈ declaredExports h m' /\
                target d = ResolvedModule m) ->
  h !! m = None ->
  run h modules = Throw NullPointerException /\
  exists l, runSort h modules = Ok l.
Proof.
  intros Hnd Hno Hm Hnull. split.
  - apply (run_null_bindings h modules m); [done|done| |done].
    by apply graph_module.
  - destruct (topsort_acyclic (buildGraph h modules) (buildGraph_wf h modules Hnd)
                (no_exportCycle_acyclic h modules Hno)) as (tops & Htop & _).
    unfold runSort. rewrite Htop. cbn [bind]. eauto.
Qed.

Lemma run_fails_on_null_bindings_witness :
  run (H := exampleContext) (H0 := insertion_order) typeExport [A; B; P]
    = Throw NullPointerException /\
  exists l, runSort (H := insertion_order) typeExport [A; B; P] = Ok l.
Proof.
  apply (@run_fails_on_null_bindings exampleContext insertion_order typeExport
           [A; B; P] P).
  - by apply (bool_decide_unpack _).
  - apply no_exportCycle_by_search. vm_compute. reflexivity.
  - left. by apply (bool_decide_unpack _).
  - reflexivity.
Defined.

(** X8.  [runSort] on a duplicate-free module list without export cycle
    returns, whether or not the modules have bindings maps; the list holds
    each module of the graph once, and when every export declaration
    targets a module, every exported module stands before its exporter. *)
Theorem runSort_sorts_acyclic_input `{HashOrder} (h : Heap) (modules : list Module) :
  NoDup modules ->
  (forall c, ~ exportCycle h modules c) ->
  exists l,
    runSort h modules = Ok l /\
    NoDup l /\
    (forall m, m ∈ l <->
       m ∈ modules \/
       exists m' d, m' ∈ modules /\ d ∈ declaredExports h m' /\
                    target_module (target d) = m) /\
    (moduleTargetsOnly h modules -> exportsRespected h modules l).
Proof.
  intros Hnd Hno.
  destruct (topsort_acyclic (buildGraph h modules) (buildGraph_wf h modules Hnd)
              (no_exportCycle_acyclic h modules Hno)) as (tops & Htop & Hperm & Hsorted).
  exists (keepLast (modulesOf tops)). split_and!.
  - unfold runSort. rewrite Htop. cbn [bind]. by rewrite lastOccurrences_modulesOf.
  - apply NoDup_keepLast.
  - intros m. rewrite elem_of_keepLast. by apply modulesOf_graph.
  - by apply sorted_modules_respect_exports.
Qed.

Lemma runSort_sorts_acyclic_input_witness :
  exists l,
    runSort (H := insertion_order) threeChain [C; B; A] = Ok l /\
    NoDup l /\
    (forall m, m ∈ l <->
       m ∈ [C; B; A] \/
       exists m' d, m' ∈ [C; B; A] /\ d ∈ declaredExports threeChain m' /\
                    target_module (target d) = m) /\
    (moduleTargetsOnly threeChain [C; B; A] ->
     exportsRespected threeChain [C; B; A] l).
Proof.
  apply (@runSort_sorts_acyclic_input insertion_order threeChain [C; B; A]).
  - by apply (bool_decide_unpack _).
  - apply no_exportCycle_by_search. vm_compute. reflexivity.
Defined.

(** *** What a run leaves alone *)

Lemma resolveModuleSymbols_lookup `{CompilerContext} `{HashOrder} h m h' m' :
  resolveModuleSymbols h m = Ok h' ->
  (m' <> m -> h' !! m' = h !! m') /\
  getDirectlyExportedModules <$> h' !! m' = getDirectlyExportedModules <$> h !! m' /\
  definedEntities <$> h' !! m' = definedEntities <$> h !! m' /\
  resolvedExports <$> h' !! m' = resolvedExports <$> h !! m'.
Proof.
  unfold resolveModuleSymbols, getBindings.
  destruct (h !! m) as [b|] eqn:Eb; [|done].
  destruct (reExportedSymbols h (resolvedExports b)) as [re| |]; cbn [bind]; [|done..].
  intros [= <-]. destruct (decide (m' = m)) as [->|Hne].
  - rewrite lookup_insert_eq, Eb. done.
  - rewrite lookup_insert_ne by done. done.
Qed.

Lemma resolveExportedSymbols_lookup `{CompilerContext} `{HashOrder} ms h h' m' :
  resolveExportedSymbols ms h = Ok h' ->
  (m' ∉ ms -> h' !! m' = h !! m') /\
  getDirectlyExportedModules <$> h' !! m' = getDirectlyExportedModules <$> h !! m' /\
  definedEntities <$> h' !! m' = definedEntities <$> h !! m' /\
  resolvedExports <$> h' !! m' = resolvedExports <$> h !! m'.
Proof.
  revert h. induction ms as [|m ms IH]; intros h; cbn [resolveExportedSymbols].
  - by intros [= <-].
  - destruct (resolveModuleSymbols h m) as [h1| |] eqn:E1; cbn [bind]; [|done..].
    intros Hrest. destruct (IH h1 Hrest) as (Hf & Hd & He & Hr).
    destruct (resolveModuleSymbols_lookup h m h1 m' E1) as (Hf1 & Hd1 & He1 & Hr1).
    split_and!; [|congruence..].
    intros [Hne Hnin]%not_elem_of_cons. rewrite Hf by done. by apply Hf1.
Qed.

Lemma resolveExports_lookup `{HashOrder} tops h h1 m :
  NoDup (targets tops) -> resolveExports tops h = Ok h1 ->
  (ResolvedModule m ∉ targets tops -> h1 !! m = h !! m) /\
  getDirectlyExportedModules <$> h1 !! m = getDirectlyExportedModules <$> h !! m /\
  definedEntities <$> h1 !! m = definedEntities <$> h !! m /\
  exportedSymbols <$> h1 !! m = exportedSymbols <$> h !! m.
Proof.
  intros Hnd. unfold resolveExports.
  destruct (resolveNodes [] tops) as [exps| |] eqn:Eres; cbn [bind]; [|done..].
  intros Hstore.
  pose proof (resolveNodes_NoDup tops [] exps (NoDup_nil_2) Eres) as Hexps.
  pose proof (resolveNodes_spec tops [] exps Hnd (fun _ _ => eq_refl) Eres)
    as (_ & _ & Hkeys).
  assert (NoDup (iterate exports_iter exps).*1) as Hnd'
    by by rewrite iterate_perm.
  pose proof (storeExports_Ok _ _ _ Hnd' Hstore m) as Hm.
  destruct (alookup (ResolvedModule m) (iterate exports_iter exps)) as [exs|] eqn:El.
  - rewrite Hm. split_and!; [|by destruct (h !! m)..].
    intros Hnin. exfalso. apply Hnin.
    apply alookup_Some_elem in El. rewrite iterate_perm in El.
    apply (list_elem_of_fmap_2 fst) in El. apply Hkeys in El as [El|El]; [|done].
    by rewrite fmap_nil in El; apply elem_of_nil in El.
  - by rewrite Hm.
Qed.

(** X12.  A run writes nothing but [resolvedExports] and [exportedSymbols]: the
    export declarations and the defined entities of every module stay as
    they were, no bindings map appears or disappears, and a module that is
    neither an input module nor the target of an export declaration keeps
    its bindings map as it was, also when one of its entities is
    exported. *)
Theorem run_writes_only_resolutions `{CompilerContext} `{HashOrder}
    (h : Heap) (modules : list Module) (l : list Module) (h' : Heap) (m : Module) :
  run h modules = Ok (l, h') ->
  (is_Some (h' !! m) <-> is_Some (h !! m)) /\
  getDirectlyExportedModules <$> h' !! m = getDirectlyExportedModules <$> h !! m /\
  definedEntities <$> h' !! m = definedEntities <$> h !! m /\
  (m ∉ modules ->
   (forall m' d, m' ∈ modules -> d ∈ declaredExports h m' ->
      target d <> ResolvedModule m) ->
   h' !! m = h !! m).
Proof.
  intros Hrun.
  destruct (run_Ok_inv h modules l h' Hrun)
    as (tops & h1 & _ & Htop & Hres & Hsym & _).
  pose proof (topsort_Permutation _ _ (buildGraph_NoDup h modules) Htop) as Hperm.
  assert (NoDup (targets tops)) as Htops.
  { unfold targets. rewrite Hperm. apply buildGraph_NoDup. }
  destruct (resolveExports_lookup tops h h1 m Htops Hres) as (Hf1 & Hd1 & He1 & _).
  destruct (resolveExportedSymbols_lookup _ h1 h' m Hsym) as (Hf2 & Hd2 & He2 & _).
  assert (getDirectlyExportedModules <$> h' !! m
          = getDirectlyExportedModules <$> h !! m) as Hd by congruence.
  split_and!; [|done|congruence|].
  - rewrite <-!(fmap_is_Some getDirectlyExportedModules). by rewrite Hd.
  - intros Hnin Hnot.
    assert (ResolvedModule m ∉ targets tops) as Hnt.
    { unfold targets. rewrite Hperm. fold (targets (buildGraph h modules)).
      intros [Hin|Hin]%targets_buildGraph%buildNodes_targets.
      - apply list_elem_of_fmap in Hin as (m' & [= ->] & Hm'). done.
      - destruct Hin as (m' & Hm' & (d & Hd' & Hin)%list_elem_of_fmap).
        by apply (Hnot m' d). }
    rewrite Hf2, Hf1; [done..|].
    intros Hin%elem_of_moduleTargets. done.
Qed.

Lemma run_writes_only_resolutions_witness :
  (is_Some (heapAfter (H := exampleContext) (H0 := insertion_order)
              typeExport [C] !! A)
   <-> is_Some (typeExport !! A)) /\
  getDirectlyExportedModules
    <$> heapAfter (H := exampleContext) (H0 := insertion_order) typeExport [C] !! A
  = getDirectlyExportedModules <$> typeExport !! A /\
  definedEntities
    <$> heapAfter (H := exampleContext) (H0 := insertion_order) typeExport [C] !! A
  = definedEntities <$> typeExport !! A /\
  heapAfter (H := exampleContext) (H0 := insertion_order) typeExport [C] !! A
  = typeExport !! A.
Proof.
  destruct (@run_writes_only_resolutions exampleContext insertion_order typeExport
              [C]
              (orderAfter (H := exampleContext) (H0 := insertion_order)
                 typeExport [C])
              (heapAfter (H := exampleContext) (H0 := insertion_order)
                 typeExport [C]) A)
    as (H1 & H2 & H3 & H4).
  - vm_compute. reflexivity.
  - split_and!; [done..|]. apply H4.
    + by apply (bool_decide_unpack _).
    + intros m' d ->%list_elem_of_singleton Hd. vm_compute in Hd.
      apply list_elem_of_singleton in Hd as ->. done.
Defined.

(** *** The outcomes of a run *)

Lemma missing_bindings_found (h : Heap) (ts : list ImportTarget) :
  (forall m, ResolvedModule m ∈ ts -> is_Some (h !! m)) \/
  (exists m, ResolvedModule m ∈ ts /\ h !! m = None).
Proof.
  induction ts as [|t ts [IH|(m & Hm & Hnull)]].
  - left. by intros m Hm%elem_of_nil.
  - destruct t as [m| | |];
      try (left; intros m' [[=]|Hm']%elem_of_cons; by apply IH).
    destruct (h !! m) as [b|] eqn:Eb.
    + left. intros m' [[= ->]|Hm']%elem_of_cons; [by rewrite Eb|by apply IH].
    + right. exists m. split; [left|done].
  - right. exists m. split; [by right|done].
Qed.

(** X10.  The outcomes of [run] on a duplicate-free module list are three.  It
    returns, when the declarations have no cycle and every module of the
    graph has a bindings map; it throws [ExportCycleException] with a
    genuine cycle, when the declarations have one; it throws
    [NullPointerException], when the declarations have no cycle and a
    module of the graph has no bindings map.  It never fails on a missing
    key or on an empty [find]. *)
Theorem run_outcomes `{CompilerContext} `{HashOrder} (h : Heap) (modules : list Module) :
  NoDup modules ->
  (exists l h', run h modules = Ok (l, h') /\
     (forall c, ~ exportCycle h modules c) /\
     (forall m, ResolvedModule m ∈ targets (buildGraph h modules) ->
        is_Some (h !! m))) \/
  (exists c, run h modules = Throw (ExportCycleException c) /\
     exportCycle h modules c) \/
  (run h modules = Throw NullPointerException /\
   (forall c, ~ exportCycle h modules c) /\
   exists m, ResolvedModule m ∈ targets (buildGraph h modules) /\ h !! m = None).
Proof.
  intros Hnd.
  destruct (findCycles_spec (buildGraph h modules)) as (cycles & Hf & Hgen & Hac).
  destruct cycles as [|cycle cycles].
  - assert (forall c, ~ exportCycle h modules c) as Hno.
    { intros c. by apply acyclic_no_exportCycle, Hac. }
    destruct (missing_bindings_found h (targets (buildGraph h modules)))
      as [Hpres|(m & Hm & Hnull)].
    + left.
      destruct (run_acyclic h modules Hnd Hpres Hno) as (l & h' & _ & Hrun & _).
      exists l, h'. done.
    + right. right. split_and!; [|done|by exists m].
      by apply (run_null_bindings h modules m).
  - right. left. exists (target_module <$> cycle). split.
    + unfold run. by rewrite Hf.
    + apply Forall_cons in Hgen as [Hcycle _]. by apply isCycle_exportCycle.
Qed.

Lemma run_outcomes_witness :
  (exists l h',
     run (H := exampleContext) (H0 := insertion_order) threeCycle [A; B; C]
       = Ok (l, h') /\
     (forall c, ~ exportCycle threeCycle [A; B; C] c) /\
     (forall m, ResolvedModule m
                  ∈ targets (buildGraph (H := insertion_order) threeCycle [A; B; C]) ->
        is_Some (threeCycle !! m))) \/
  (exists c,
     run (H := exampleContext) (H0 := insertion_order) threeCycle [A; B; C]
       = Throw (ExportCycleException c) /\
     exportCycle threeCycle [A; B; C] c) \/
  (run (H := exampleContext) (H0 := insertion_order) threeCycle [A; B; C]
     = Throw NullPointerException /\
   (forall c, ~ exportCycle threeCycle [A; B; C] c) /\
   exists m, ResolvedModule m
               ∈ targets (buildGraph (H := insertion_order) threeCycle [A; B; C]) /\
             threeCycle !! m = None).
Proof.
  apply (@run_outcomes exampleContext insertion_order threeCycle [A; B; C]).
  by apply (bool_decide_unpack _).
Defined.

(** *** Which exports the returned order respects *)

Lemma keepLast_app_r {A} `{EqDecision A} (l1 l : list A) :
  exists p, keepLast (l1 ++ l) = p ++ keepLast l.
Proof.
  induction l1 as [|x l1 [p IH]]; [by exists []|].
  cbn [app keepLast]. case_decide; [by exists p|].
  exists (x :: p). by rewrite IH.
Qed.

Lemma keepLast_once_before {A} `{EqDecision A} (l1 l2 : list A) a b :
  a ∉ l2 -> b ∈ l2 -> occursBefore (keepLast (l1 ++ a :: l2)) a b.
Proof.
  intros Ha Hb. destruct (keepLast_app_r l1 (a :: l2)) as [p ->].
  cbn [keepLast]. rewrite decide_False by done.
  apply elem_of_keepLast, list_elem_of_split in Hb as (k1 & k2 & ->).
  by exists p, k1, k2.
Qed.

(** X6.  The returned order respects the export of a whole module: when an
    input module declares an export of the module [exported], and no
    declaration of an input module targets an entity of [exported], then
    [exported] stands before the exporter in the list that [run]
    returns. *)
Theorem run_respects_module_exports `{CompilerContext} `{HashOrder}
    (h : Heap) (modules : list Module) (l : list Module) (h' : Heap)
    (exporter exported : Module) (d : ExportedModule) :
  NoDup modules ->
  run h modules = Ok (l, h') ->
  exporter ∈ modules ->
  d ∈ declaredExports h exporter ->
  target d = ResolvedModule exported ->
  (forall m d', m ∈ modules -> d' ∈ declaredExports h m ->
     target_module (target d') = exported -> target d' = ResolvedModule exported) ->
  occursBefore l exported exporter.
Proof.
  intros Hnd Hrun Hexp Hd Htarget Hwhole.
  destruct (run_returns_last_occurrences h modules l h' Hrun)
    as (tops & Htop & -> & _ & _).
  destruct (topsort_wf (buildGraph h modules) (buildGraph_wf h modules Hnd))
    as [(tops' & Htop' & Hperm & Hsorted)|[Hthrow _]]; [|congruence].
  rewrite Htop in Htop'. injection Htop' as <-.
  assert (NoDup (targets tops)) as Htops.
  { unfold targets. rewrite Hperm. apply buildGraph_NoDup. }
  assert (nodeOf (buildGraph h modules) (ResolvedModule exporter) ∈ tops) as Hin.
  { rewrite Hperm. apply nodeOf_elem, graph_module. by left. }
  apply list_elem_of_split in Hin as (l1 & l2 & Hsplit).
  assert (ResolvedModule exported ∈ targets l1) as Hd1.
  { rewrite <-Htarget.
    apply (Hsorted l1 _ l2 (edgeOf (ResolvedModule exporter) d) Hsplit).
    rewrite exports_buildGraph by done. unfold edgesOf.
    by apply list_elem_of_fmap_2. }
  apply list_elem_of_split in Hd1 as (t1 & t2 & Ht).
  unfold modulesOf. fold (targets tops).
  assert (targets tops
          = t1 ++ ResolvedModule exported :: (t2 ++ ResolvedModule exporter :: targets l2))
    as Hts.
  { rewrite Hsplit, targets_app, targets_cons, Ht, ntarget_nodeOf.
    by rewrite <-app_assoc. }
  rewrite Hts, fmap_app, fmap_cons. cbn [target_module].
  apply keepLast_once_before.
  - intros (t & Hmod & Hint)%list_elem_of_fmap.
    assert (t ∈ targets (buildGraph h modules)) as Hg.
    { unfold targets. rewrite <-Hperm. fold (targets tops). rewrite Hts.
      apply elem_of_app. right. by right. }
    assert (t = ResolvedModule exported) as ->.
    { apply targets_buildGraph, buildNodes_targets in Hg as [Hg|(m & Hm & Hg)].
      - apply list_elem_of_fmap in Hg as (m & -> & _). cbn in Hmod. by subst.
      - apply list_elem_of_fmap in Hg as (d' & -> & Hd').
        by apply (Hwhole m d'). }
    rewrite Hts in Htops. apply NoDup_app in Htops as (_ & _ & Hrest).
    apply NoDup_cons in Hrest as [Hrest _]. done.
  - rewrite fmap_app, fmap_cons. apply elem_of_app. right. left.
Qed.

Lemma run_respects_module_exports_witness :
  occursBefore
    (orderAfter (H := libraryContext) (H0 := insertion_order) library [C; B; A; P])
    B C.
Proof.
  apply (@run_respects_module_exports libraryContext insertion_order library
           [C; B; A; P]
           (orderAfter (H := libraryContext) (H0 := insertion_order)
              library [C; B; A; P])
           (heapAfter (H := libraryContext) (H0 := insertion_order)
              library [C; B; A; P])
           C B (mkExportedModule (ResolvedModule B) None ["T"; "f"; "zz"])).
  - by apply (bool_decide_unpack _).
  - vm_compute. reflexivity.
  - left.
  - by apply (bool_decide_unpack _).
  - reflexivity.
  - intros m d' Hm Hd' Hmod.
    repeat (apply elem_of_cons in Hm as [->|Hm];
            [vm_compute in Hd';
             repeat (apply elem_of_cons in Hd' as [->|Hd']; [by vm_compute in Hmod|]);
             by apply elem_of_nil in Hd'|]).
    by apply elem_of_nil in Hm.
Defined.

(** * The cycle that [run] reports *)

Lemma isCycle_modules `{HashOrder} h ms c x :
  isCycle (buildGraph h ms) c -> x ∈ c -> exists m, x = ResolvedModule m.
Proof.
  destruct c as [|a c]; [done|]. cbn [closedChain]. intros Hc Hx.
  assert (exists m, m ∈ ms /\ a = ResolvedModule m) as Ha.
  { destruct c as [|b c]; cbn [app] in Hc; destruct Hc as [Hab _];
      apply edgeTo_buildGraph in Hab as (m & ? & ? & _); by exists m. }
  destruct (chain_edges_are_declared h ms _ Hc) as [_ Hmods].
  { intros y. rewrite last_snoc. by intros [= <-]. }
  destruct (Hmods x) as (m & _ & ->); [|by exists m].
  apply elem_of_app. by left.
Qed.

(** X11.  When [run] on a duplicate-free module list throws
    [ExportCycleException], the module chain the exception carries is not
    empty, names no module twice, and is a cycle of the export
    declarations. *)
Theorem reported_cycle_simple `{CompilerContext} `{HashOrder}
    (h : Heap) (modules : list Module) (c : list Module) :
  NoDup modules ->
  run h modules = Throw (ExportCycleException c) ->
  c <> [] /\ NoDup c /\ exportCycle h modules c.
Proof.
  intros Hnd Hrun.
  destruct (findCycles_spec (buildGraph h modules)) as (cycles & Hf & Hgen & Hac).
  pose proof (findCycles_simple _ _ Hf) as Hsimple.
  destruct cycles as [|cycle cycles].
  - exfalso.
    assert (forall c, ~ exportCycle h modules c) as Hno.
    { intros c'. by apply acyclic_no_exportCycle, Hac. }
    destruct (missing_bindings_found h (targets (buildGraph h modules)))
      as [Hpres|(m & Hm & Hnull)].
    + destruct (run_acyclic h modules Hnd Hpres Hno) as (l & h' & _ & Hok & _).
      congruence.
    + rewrite (run_null_bindings h modules m Hnd Hno Hm Hnull) in Hrun. done.
  - unfold run in Hrun. rewrite Hf in Hrun. cbn [bind] in Hrun.
    injection Hrun as <-.
    apply Forall_cons in Hgen as [Hcycle _].
    apply Forall_cons in Hsimple as [Hnodup _].
    split_and!.
    + destruct cycle; [done|]. by rewrite fmap_cons.
    + apply NoDup_fmap_2_strong; [|done].
      intros x y Hx Hy Heq.
      destruct (isCycle_modules h modules cycle x Hcycle Hx) as [mx ->].
      destruct (isCycle_modules h modules cycle y Hcycle Hy) as [my ->].
      cbn in Heq. by subst.
    + by apply isCycle_exportCycle.
Qed.

Lemma reported_cycle_simple_witness :
  [A; B; C] <> [] /\ NoDup [A; B; C] /\ exportCycle threeCycle [A; B; C] [A; B; C].
Proof.
  apply (@reported_cycle_simple exampleContext insertion_order threeCycle
           [A; B; C] [A; B; C]).
  - by apply (bool_decide_unpack _).
  - vm_compute. reflexivity.
Defined.

(** * More about the resolved exports *)

Lemma elem_of_intersect_2 {A} `{EqDecision A} (xs ys : list A) x :
  x ∈ xs -> x ∈ ys -> x ∈ intersect xs ys.
Proof.
  revert ys. induction xs as [|y xs IH]; intros ys Hx Hy; [done|].
  cbn [intersect]. apply elem_of_cons in Hx as [->|Hx].
  - rewrite decide_True by done. left.
  - destruct (decide (y ∈ ys)) as [Hyy|Hyy].
    + destruct (decide (x = y)) as [->|Hne]; [left|]. right. apply IH; [done|].
      clear -Hy Hne. induction ys as [|z ys IH]; [done|]. cbn [removeFirst].
      apply elem_of_cons in Hy as [->|Hy].
      * rewrite decide_False by done. left.
      * case_decide; [done|]. right. by apply IH.
    + by apply IH.
Qed.

Lemma elem_of_targets_unified `{HashOrder} all t :
  t ∈ target <$> unified all <-> t ∈ target <$> all.
Proof.
  rewrite list_elem_of_fmap. split.
  - intros (r & -> & Hr). by apply unified_target_elem.
  - intros Ht. eexists. split; [|apply elem_of_unified; eauto]. done.
Qed.

(** X13.  The symbols of the resolved exports, exactly: after a run, the resolved
    exports of an input module [B] expose the symbol [s] of the target [t]
    exactly when [B] declares an export of [t] that lists [s], or [B]
    declares an export that lists [s] and whose target has, in its own
    resolved exports, a record of [t] that lists [s]. *)
Theorem resolved_exports_symbols `{CompilerContext} `{HashOrder}
    (h : Heap) (modules : list Module) (l : list Module) (h' : Heap)
    (B : Module) (t : ImportTarget) (s : string) :
  run h modules = Ok (l, h') -> B ∈ modules ->
  ((exists r, r ∈ resolvedExportsOf h' B /\ target r = t /\ s ∈ symbols r) <->
   (exists d, d ∈ declaredExports h B /\ target d = t /\ s ∈ symbols d) \/
   (exists d p, d ∈ declaredExports h B /\ p ∈ resolvedOf h' (target d) /\
                target p = t /\ s ∈ symbols d /\ s ∈ symbols p)).
Proof.
  intros Hrun HB. rewrite (run_resolvedExports h modules l h' B Hrun HB). split.
  - intros (r & Hr & <- & Hs).
    apply elem_of_resolvedFrom in Hr as (t & _ & ->). cbn [target fst].
    apply elem_of_unifyGroup_symbols in Hs as (ex & Hex & Hs).
    apply elem_of_app in Hex as [Hex|Hex];
      apply list_elem_of_filter in Hex as [Ht Hex].
    + left. by exists ex.
    + right. apply elem_of_transitiveOf in Hex as (d & p & Hd & Hp & ->).
      cbn [target symbols] in *. apply elem_of_intersect in Hs as [Hsd Hsp].
      by exists d, p.
  - intros Hsrc.
    assert (exists ex, ex ∈ declaredExports h B
                          ++ transitiveOf (resolvedOf h') (declaredExports h B)
                       /\ target ex = t /\ s ∈ symbols ex) as (ex & Hex & Ht & Hs).
    { destruct Hsrc as [(d & Hd & Ht & Hs)|(d & p & Hd & Hp & Ht & Hsd & Hsp)].
      - exists d. split_and!; [|done..]. apply elem_of_app. by left.
      - eexists. split_and!.
        + apply elem_of_app. right. apply elem_of_transitiveOf. by exists d, p.
        + done.
        + cbn [symbols]. by apply elem_of_intersect_2. }
    exists (unifyGroup (t, filter (fun ex => target ex = t)
                             (declaredExports h B
                              ++ transitiveOf (resolvedOf h') (declaredExports h B)))).
    split_and!.
    + unfold resolvedFrom. apply elem_of_unified. exists t. split; [|done].
      rewrite <-Ht. by apply list_elem_of_fmap_2.
    + done.
    + apply elem_of_unifyGroup_symbols. exists ex. split; [|done].
      by apply list_elem_of_filter.
Qed.

Lemma resolved_exports_symbols_witness :
  (exists r,
     r ∈ resolvedExportsOf (heapAfter (H := exampleContext) (H0 := insertion_order)
                              restricted [A; B]) B /\
     target r = T /\ "X" ∈ symbols r) <->
  (exists d, d ∈ declaredExports restricted B /\ target d = T /\ "X" ∈ symbols d) \/
  (exists d p,
     d ∈ declaredExports restricted B /\
     p ∈ resolvedOf (heapAfter (H := exampleContext) (H0 := insertion_order)
                       restricted [A; B]) (target d) /\
     target p = T /\ "X" ∈ symbols d /\ "X" ∈ symbols p).
Proof.
  apply (@resolved_exports_symbols exampleContext insertion_order restricted [A; B]
           (orderAfter (H := exampleContext) (H0 := insertion_order) restricted [A; B])).
  - vm_compute. reflexivity.
  - by apply (bool_decide_unpack _).
Defined.

(** *** The targets of the resolved exports *)

Lemma resolveNodes_reach `{HashOrder} (R : relation ImportTarget) nodes exps0 exps :
  (forall a b c, R a b -> R b c -> R a c) ->
  resolveNodes exps0 nodes = Ok exps ->
  (forall t v r, alookup t exps0 = Some v -> r ∈ v -> R t (target r)) ->
  (forall n ex, n ∈ nodes -> ex ∈ explicitlyExported n -> R (ntarget n) (target ex)) ->
  forall t v r, alookup t exps = Some v -> r ∈ v -> R t (target r).
Proof.
  intros Htrans. revert exps0.
  induction nodes as [|n nodes IH]; intros exps0; cbn [resolveNodes].
  - by intros [= <-].
  - destruct (resolveNode exps0 n) as [exps1| |] eqn:E1; cbn [bind]; [|done..].
    apply resolveNode_Ok in E1 as [Hall ->]. intros Hrest H0 Hnodes.
    eapply IH; [done| |].
    + intros t v r. rewrite alookup_aupdate. case_decide as Ht; [|by apply H0].
      intros [= <-] Hr. subst t. apply unified_target_elem in Hr.
      apply list_elem_of_fmap in Hr as (x & -> & Hx).
      apply elem_of_app in Hx as [Hx|Hx].
      * eapply Hnodes; [left|done].
      * apply elem_of_transitiveOf in Hx as (ex & p & Hex & Hp & ->).
        cbn [target]. unfold resolvedIn_map in Hp.
        destruct (alookup (target ex) exps0) as [v'|] eqn:Ev;
          [|by apply elem_of_nil in Hp].
        eapply Htrans; [eapply Hnodes; [left|done]|]. by eapply H0.
    + intros n' ex Hn'. apply Hnodes. by right.
Qed.

Lemma tc_first_step {A} (R : relation A) a b : tc R a b -> exists c, R a c.
Proof. destruct 1; eauto. Qed.

(** X14.  The targets of the resolved exports, exactly: after a run, the resolved
    exports of an input module [B] hold a record of the target [t] exactly
    when [t] is reached from [B] along one or more export edges of the
    graph. *)
Theorem resolved_exports_reach `{CompilerContext} `{HashOrder}
    (h : Heap) (modules : list Module) (l : list Module) (h' : Heap)
    (B : Module) (t : ImportTarget) :
  run h modules = Ok (l, h') -> B ∈ modules ->
  (t ∈ target <$> resolvedExportsOf h' B <->
   tc (edgeTo (buildGraph h modules)) (ResolvedModule B) t).
Proof.
  intros Hrun HB. split.
  - destruct (run_Ok_inv h modules l h' Hrun)
      as (tops & h1 & _ & Htop & Hres & Hsym & _).
    pose proof (topsort_Permutation _ _ (buildGraph_NoDup h modules) Htop) as Hperm.
    assert (NoDup (targets tops)) as Htops.
    { unfold targets. rewrite Hperm. apply buildGraph_NoDup. }
    destruct (resolveExports_heap tops h h1 Htops Hres)
      as (exps & Eres & _ & _ & Hmods & _).
    assert (ResolvedModule B ∈ targets tops) as HBt.
    { unfold targets. rewrite Hperm. fold (targets (buildGraph h modules)).
      apply graph_module. by left. }
    destruct (Hmods B HBt) as [_ HrB].
    rewrite (sameExports_resolvedExportsOf h1 h' B
               (resolveExportedSymbols_sameExports _ _ _ Hsym)), HrB.
    intros (r & -> & Hr)%list_elem_of_fmap. unfold resolvedIn_map in Hr.
    destruct (alookup (ResolvedModule B) exps) as [v|] eqn:Ev;
      [|by apply elem_of_nil in Hr].
    eapply (resolveNodes_reach (tc (edgeTo (buildGraph h modules))));
      [|exact Eres| | |exact Ev|exact Hr].
    + intros a b c Hab Hbc. by etrans.
    + done.
    + intros n ex Hn Hex. apply tc_once. unfold explicitlyExported in Hex.
      apply list_elem_of_fmap in Hex as (e & -> & He). cbn [target].
      exists e. split; [|done].
      rewrite nodeOf_NoDup; [done|apply buildGraph_NoDup|by rewrite <-Hperm].
  - intros Htc. remember (ResolvedModule B) as x eqn:Hx.
    revert B HB Hx. induction Htc as [x t Hxt|x y t Hxy Hyt IH]; intros B HB ->.
    + apply edgeTo_buildGraph in Hxt as (m & Hm & [= <-] & d & Hd & <-).
      rewrite (run_resolvedExports h modules l h' B Hrun HB).
      unfold resolvedFrom. apply elem_of_targets_unified.
      rewrite fmap_app. apply elem_of_app. left. by apply list_elem_of_fmap_2.
    + apply edgeTo_buildGraph in Hxy as (m & Hm & [= <-] & d & Hd & <-).
      destruct (tc_first_step _ _ _ Hyt) as [c Hc].
      apply edgeTo_buildGraph in Hc as (m' & Hm' & Hy & _).
      specialize (IH m' Hm' Hy).
      apply list_elem_of_fmap in IH as (p & -> & Hp).
      rewrite (run_resolvedExports h modules l h' B Hrun HB).
      unfold resolvedFrom. apply elem_of_targets_unified.
      rewrite fmap_app. apply elem_of_app. right.
      apply list_elem_of_fmap.
      exists (mkExportedModule (target p) None (intersect (symbols d) (symbols p))).
      split; [done|]. apply elem_of_transitiveOf. exists d, p.
      split_and!; [done| |done]. rewrite Hy. done.
Qed.

Lemma resolved_exports_reach_witness :
  T ∈ target <$> resolvedExportsOf
                   (heapAfter (H := exampleContext) (H0 := insertion_order)
                      restricted [A; B]) B <->
  tc (edgeTo (buildGraph (H := insertion_order) restricted [A; B]))
     (ResolvedModule B) T.
Proof.
  apply (@resolved_exports_reach exampleContext insertion_order restricted [A; B]
           (orderAfter (H := exampleContext) (H0 := insertion_order) restricted [A; B])).
  - vm_compute. reflexivity.
  - by apply (bool_decide_unpack _).
Defined.

(** * The exported symbols *)

Lemma denotes_app t1 t2 s r : denotes (t1 ++ t2) s r <-> denotes t1 s r \/ denotes t2 s r.
Proof. unfold denotes. setoid_rewrite elem_of_app. naive_solver. Qed.

Lemma denotes_Permutation t1 t2 s r : t1 ≡ₚ t2 -> denotes t1 s r <-> denotes t2 s r.
Proof. intros Hp. unfold denotes. by setoid_rewrite Hp. Qed.

(** Grouping by name and flattening keeps what each name denotes. *)
Lemma denotes_grouped all s r :
  denotes ((fun grp : string * list (string * list ImportTarget) =>
              (grp.1, distinct (grp.2 ≫= snd))) <$> groupBy fst all) s r
  <-> denotes all s r.
Proof.
  unfold denotes. split.
  - intros (rs & Hin & Hr).
    apply list_elem_of_fmap in Hin as ([k items] & [= -> ->] & Hg).
    apply elem_of_groupBy in Hg as [_ ->]. cbn [fst snd] in Hr.
    apply elem_of_distinct, list_elem_of_bind in Hr as ([s' rs] & Hr & Hin).
    apply list_elem_of_filter in Hin as [Hs Hin]. cbn in Hs, Hr. subst s'. eauto.
  - intros (rs & Hin & Hr).
    exists (distinct (filter (fun x : string * list ImportTarget => x.1 = s) all ≫= snd)).
    split.
    + apply list_elem_of_fmap. eexists (s, _). split; [done|].
      apply elem_of_groupBy. split; [|done]. by apply (list_elem_of_fmap_2 fst) in Hin.
    + apply elem_of_distinct, list_elem_of_bind. exists (s, rs). split; [done|].
      by apply list_elem_of_filter.
Qed.

Lemma denotes_ownEntities b m s r :
  denotes (ownEntities b m) s r <->
  exists e, e ∈ definedEntities b /\ canExport e = true /\ ename e = s /\
            r = resolvedIn e m.
Proof.
  unfold denotes, ownEntities. split.
  - intros (rs & Hin & Hr).
    apply list_elem_of_fmap in Hin as (e & [= -> ->] & He).
    apply list_elem_of_filter in He as [Hc He].
    apply list_elem_of_singleton in Hr. eauto.
  - intros (e & He & Hc & <- & ->). eexists. split.
    + apply list_elem_of_fmap. exists e. split; [done|]. by apply list_elem_of_filter.
    + by apply list_elem_of_singleton.
Qed.

Lemma denotes_exportedModules `{CompilerContext} b m s r :
  denotes (exportedModules b m) s r <->
  exists ex, ex ∈ resolvedExports b /\ exportedAs ex = Some s /\
             target_module (target ex) <> m /\
             symbols ex = [getName (target_module (target ex))] /\
             r = target ex.
Proof.
  unfold denotes, exportedModules. split.
  - intros (rs & Hin & Hr).
    apply list_elem_of_bind in Hin as (ex & Hin & Hex).
    destruct (exportedAs ex) as [a|] eqn:Ea; [|by apply elem_of_nil in Hin].
    destruct (symbols ex) as [|s1 [|s2 rest]] eqn:Es;
      rewrite ?andb_false_r in Hin; try by apply elem_of_nil in Hin.
    destruct (negb _ && _) eqn:Ec; [|by apply elem_of_nil in Hin].
    apply list_elem_of_singleton in Hin as [= -> ->].
    apply list_elem_of_singleton in Hr as ->.
    apply andb_true_iff in Ec as [Hthis Hname].
    apply negb_true_iff, bool_decide_eq_false in Hthis.
    apply bool_decide_eq_true in Hname. subst s1.
    exists ex. by rewrite Es.
  - intros (ex & Hex & Ha & Hne & Hs & ->). exists [target ex]. split; [|left].
    apply list_elem_of_bind. exists ex. split; [|done].
    rewrite Ha, Hs. rewrite bool_decide_eq_false_2 by done.
    rewrite bool_decide_eq_true_2 by done. cbn. left.
Qed.

Lemma targetExportedSymbols_Ok `{CompilerContext} h t syms :
  targetExportedSymbols h t = Ok syms -> syms = targetSymbols h t.
Proof.
  unfold targetExportedSymbols, targetSymbols, exportedSymbolsOf.
  destruct t as [m| | |]; try by intros [= <-].
  destruct (getBindings h m); [|done]. by intros [= <-].
Qed.

Lemma denotes_reExportedSymbols `{CompilerContext} `{HashOrder} h resolved syms s r :
  reExportedSymbols h resolved = Ok syms ->
  denotes syms s r <->
  exists ex, ex ∈ resolved /\ s ∈ symbols ex /\
             denotes (targetSymbols h (target ex)) s r.
Proof.
  revert syms. induction resolved as [|ex rest IH]; intros syms;
    cbn [reExportedSymbols].
  - intros [= <-]. split.
    + by intros (rs & Hin%elem_of_nil & _).
    + by intros (ex & Hin%elem_of_nil & _).
  - destruct (targetExportedSymbols h (target ex)) as [tbl| |] eqn:Et;
      cbn [bind]; [|done..].
    apply targetExportedSymbols_Ok in Et as ->.
    destruct (reExportedSymbols h rest) as [more| |]; cbn [bind]; [|done..].
    intros [= <-]. rewrite denotes_app, (IH more eq_refl).
    rewrite (denotes_Permutation _ _ s r (iterate_perm symbols_iter _)).
    split.
    + intros [(rs & Hin & Hr)|(ex' & Hex' & Hs & Hd)].
      * apply list_elem_of_filter in Hin as [Hs Hin]. cbn [fst] in Hs.
        rewrite iterate_perm in Hin. exists ex. split_and!; [left|done|].
        by exists rs.
      * exists ex'. split_and!; [by right|done..].
    + intros (ex' & [->|Hex']%elem_of_cons & Hs & Hd).
      * left. destruct Hd as (rs & Hin & Hr). exists rs. split; [|done].
        apply list_elem_of_filter. split; [done|]. by rewrite iterate_perm.
      * right. by exists ex'.
Qed.

(** One step of [resolveExportedSymbols]: what the new table of the module
    denotes, in terms of the heap the step starts from. *)
Lemma resolveModuleSymbols_denotes `{CompilerContext} `{HashOrder} h m h1 s r :
  resolveModuleSymbols h m = Ok h1 ->
  (denotes (exportedSymbolsOf h1 m) s r <->
   (exists e, e ∈ definedEntitiesOf h m /\ canExport e = true /\ ename e = s /\
              r = resolvedIn e m) \/
   (exists ex, ex ∈ resolvedExportsOf h m /\ exportedAs ex = Some s /\
               target_module (target ex) <> m /\
               symbols ex = [getName (target_module (target ex))] /\
               r = target ex) \/
   (exists ex, ex ∈ resolvedExportsOf h m /\ s ∈ symbols ex /\
               denotes (targetSymbols h (target ex)) s r)).
Proof.
  unfold resolveModuleSymbols, exportedSymbolsOf, definedEntitiesOf,
    resolvedExportsOf, getBindings.
  destruct (h !! m) as [b|] eqn:Eb; [|done].
  destruct (reExportedSymbols h (resolvedExports b)) as [re| |] eqn:Ere;
    cbn [bind]; [|done..].
  intros [= <-]. rewrite lookup_insert_eq. cbn [from_option setExportedSymbols
    exportedSymbols].
  rewrite denotes_grouped, !denotes_app, denotes_ownEntities,
    denotes_exportedModules, (denotes_reExportedSymbols _ _ _ s r Ere).
  done.
Qed.

(** *** The order in which the tables are computed *)

(** Every record that [resolveNodes] stores for a node targets a node
    resolved before it. *)
Lemma resolveNodes_before `{HashOrder} nodes exps0 exps :
  NoDup (targets nodes) ->
  (forall n, n ∈ nodes -> ntarget n ∉ exps0.*1) ->
  (forall t v r, alookup t exps0 = Some v -> r ∈ v -> target r ∈ exps0.*1) ->
  resolveNodes exps0 nodes = Ok exps ->
  forall l1 n l2 r, nodes = l1 ++ n :: l2 ->
    r ∈ resolvedIn_map exps (ntarget n) ->
    target r ∈ exps0.*1 \/ target r ∈ targets l1.
Proof.
  revert exps0. induction nodes as [|x nodes IH];
    intros exps0 Hnd Hfresh Hclosed Hres l1 n l2 r Hsplit Hr.
  { destruct l1; discriminate. }
  cbn [resolveNodes] in Hres.
  destruct (resolveNode exps0 x) as [exps1| |] eqn:E1; cbn [bind] in Hres; [|done..].
  apply resolveNode_Ok in E1 as [Hall ->].
  rewrite targets_cons in Hnd. apply NoDup_cons in Hnd as [Hx Hnd].
  set (recs := resolvedRecords (resolvedIn_map exps0) x) in *.
  assert (forall r, r ∈ recs -> target r ∈ exps0.*1) as Hrecs.
  { intros r' Hr'. apply unified_target_elem in Hr'.
    apply list_elem_of_fmap in Hr' as (y & -> & Hy).
    apply elem_of_app in Hy as [Hy|Hy].
    - by apply alookup_is_Some, Hall.
    - apply elem_of_transitiveOf in Hy as (ex & p & Hex & Hp & ->).
      cbn [target]. unfold resolvedIn_map in Hp.
      destruct (alookup (target ex) exps0) as [v'|] eqn:Ev;
        [|by apply elem_of_nil in Hp].
      by eapply Hclosed. }
  assert (forall n', n' ∈ nodes -> ntarget n' ∉ (aupdate (ntarget x) recs exps0).*1)
    as Hfresh1.
  { intros n' Hn' [Hk|Hk]%elem_of_aupdate_keys.
    - apply Hx. rewrite <-Hk. by apply elem_of_targets.
    - apply (Hfresh n'); [by right|done]. }
  assert (forall t v r, alookup t (aupdate (ntarget x) recs exps0) = Some v ->
            r ∈ v -> target r ∈ (aupdate (ntarget x) recs exps0).*1) as Hclosed1.
  { intros t v r'. rewrite alookup_aupdate. case_decide.
    - intros [= <-] Hr'. apply elem_of_aupdate_keys. right. by apply Hrecs.
    - intros Hl Hr'. apply elem_of_aupdate_keys. right. by eapply Hclosed. }
  destruct l1 as [|y l1]; cbn [app] in Hsplit; injection Hsplit as -> ->.
  - left. apply Hrecs.
    assert (forall n', n' ∈ l2 ->
              alookup (ntarget n') (aupdate (ntarget n) recs exps0) = None) as Hf.
    { intros n' Hn'. by apply alookup_None, Hfresh1. }
    destruct (resolveNodes_spec _ _ _ Hnd Hf Hres) as (Hkeep & _ & _).
    unfold resolvedIn_map in Hr.
    rewrite (Hkeep (ntarget n) recs) in Hr; [done|].
    by rewrite alookup_aupdate, decide_True.
  - destruct (IH _ Hnd Hfresh1 Hclosed1 Hres l1 n l2 r eq_refl Hr) as [Hk|Hk].
    + apply elem_of_aupdate_keys in Hk as [->|Hk]; [|by left].
      right. rewrite targets_cons. left.
    + right. rewrite targets_cons. by right.
Qed.

Lemma targetExportedSymbols_ext `{CompilerContext} h h2 t :
  (forall m, t = ResolvedModule m -> h2 !! m = h !! m) ->
  targetExportedSymbols h2 t = targetExportedSymbols h t.
Proof.
  intros Hsame. destruct t as [m| | |]; try done.
  unfold targetExportedSymbols, getBindings. by rewrite Hsame.
Qed.

Lemma reExportedSymbols_ext `{CompilerContext} `{HashOrder} h h2 resolved :
  (forall ex m, ex ∈ resolved -> target ex = ResolvedModule m -> h2 !! m = h !! m) ->
  reExportedSymbols h2 resolved = reExportedSymbols h resolved.
Proof.
  induction resolved as [|ex rest IH]; intros Hsame; [done|].
  cbn [reExportedSymbols].
  rewrite (targetExportedSymbols_ext h h2 (target ex)).
  - rewrite IH; [done|]. intros ex' m Hex'. apply Hsame. by right.
  - intros m. apply Hsame. left.
Qed.

(** A table that was computed from a heap is computed again, unchanged,
    from any heap that agrees with it on the module and on the modules its
    resolved exports target. *)
Lemma resolveModuleSymbols_settled `{CompilerContext} `{HashOrder} h m h1 h2 :
  resolveModuleSymbols h m = Ok h1 ->
  h2 !! m = h1 !! m ->
  (forall ex m', ex ∈ resolvedExportsOf h m -> target ex = ResolvedModule m' ->
     h2 !! m' = h !! m') ->
  resolveModuleSymbols h2 m = Ok h2.
Proof.
  unfold resolveModuleSymbols, resolvedExportsOf, getBindings.
  destruct (h !! m) as [b|] eqn:Eb; [|done]. cbn [from_option].
  destruct (reExportedSymbols h (resolvedExports b)) as [re| |] eqn:Ere;
    cbn [bind]; [|done..].
  intros [= <-]. rewrite lookup_insert_eq. intros Hm Hsame.
  rewrite Hm. cbn [setExportedSymbols resolvedExports].
  rewrite (reExportedSymbols_ext h h2 _ Hsame), Ere. cbn [bind].
  f_equal. apply insert_id. rewrite Hm. done.
Qed.

Lemma moduleTargets_cons t ts :
  moduleTargets (t :: ts)
  = match t with ResolvedModule m => [m] | _ => [] end ++ moduleTargets ts.
Proof. done. Qed.

(** When the tables are computed in an order in which no record of a module
    targets a module whose table is computed with it or after it, every
    table, computed again from the final heap, comes out unchanged. *)
Lemma resolveExportedSymbols_settled `{CompilerContext} `{HashOrder} ts h1 h' :
  NoDup ts ->
  resolveExportedSymbols (moduleTargets ts) h1 = Ok h' ->
  (forall l1 m l2 ex m', ts = l1 ++ ResolvedModule m :: l2 ->
     ex ∈ resolvedExportsOf h1 m -> target ex = ResolvedModule m' ->
     ResolvedModule m' ∉ ResolvedModule m :: l2) ->
  forall m, ResolvedModule m ∈ ts -> resolveModuleSymbols h' m = Ok h'.
Proof.
  revert h1. induction ts as [|t ts IH]; intros h1 Hnd Hres Hord m Hm.
  { by apply elem_of_nil in Hm. }
  apply NoDup_cons in Hnd as [Ht Hnd]. rewrite moduleTargets_cons in Hres.
  assert (forall h2, resolveExportedSymbols (moduleTargets ts) h2 = Ok h' ->
            (forall x, resolvedExportsOf h2 x = resolvedExportsOf h1 x) ->
            forall m, ResolvedModule m ∈ ts -> resolveModuleSymbols h' m = Ok h')
    as Htail.
  { intros h2 Hres2 Hsame m2 Hm2. apply (IH h2 Hnd Hres2); [|done].
    intros l1 x l2 ex m' -> Hex Hex'. rewrite Hsame in Hex.
    by apply (Hord (t :: l1) x l2 ex m'). }
  destruct t as [m0| | |];
    try (apply elem_of_cons in Hm as [[=]|Hm]; by apply (Htail h1)).
  cbn [app resolveExportedSymbols] in Hres.
  destruct (resolveModuleSymbols h1 m0) as [h2| |] eqn:E0; cbn [bind] in Hres;
    [|done..].
  apply elem_of_cons in Hm as [[= ->]|Hm].
  - assert (forall x, ResolvedModule x ∉ ts -> h' !! x = h2 !! x) as Hframe.
    { intros x Hx.
      destruct (resolveExportedSymbols_lookup _ h2 h' x Hres) as [Hf _].
      apply Hf. by rewrite elem_of_moduleTargets. }
    apply (resolveModuleSymbols_settled h1 m0 h2 h' E0).
    + by apply Hframe.
    + intros ex m' Hex Hex'.
      pose proof (Hord [] m0 ts ex m' eq_refl Hex Hex') as Hnin.
      apply not_elem_of_cons in Hnin as [Hne Hnin].
      rewrite Hframe by done.
      destruct (resolveModuleSymbols_lookup h1 m0 h2 m' E0) as [Hf _].
      apply Hf. congruence.
  - apply (Htail h2 Hres); [|done]. intros x.
    apply sameExports_resolvedExportsOf.
    by eapply resolveModuleSymbols_sameExports.
Qed.

(** *** After a run *)

(** After a run, the table of every module of the graph is the one that
    [resolveExportedSymbols] computes for it from the final heap. *)
Lemma run_symbols_settled `{CompilerContext} `{HashOrder} h ms l h' m :
  run h ms = Ok (l, h') ->
  ResolvedModule m ∈ targets (buildGraph h ms) ->
  resolveModuleSymbols h' m = Ok h'.
Proof.
  intros Hrun Hm.
  destruct (run_Ok_inv h ms l h' Hrun) as (tops & h1 & _ & Htop & Hres & Hsym & _).
  pose proof (topsort_Permutation _ _ (buildGraph_NoDup h ms) Htop) as Hperm.
  assert (NoDup (targets tops)) as Htops.
  { unfold targets. rewrite Hperm. apply buildGraph_NoDup. }
  destruct (resolveExports_heap tops h h1 Htops Hres)
    as (exps & Eres & _ & _ & Hmods & _).
  apply (resolveExportedSymbols_settled (targets tops) h1 h' Htops Hsym).
  - intros l1 x l2 ex m' Hsplit Hex Hex'.
    pose proof Hsplit as Hsplit'. unfold targets in Hsplit'.
    apply fmap_app_inv in Hsplit' as (k1 & k2' & -> & Hk2 & Hk).
    symmetry in Hk2. apply fmap_cons_inv in Hk2 as (n & k2 & Hn & -> & ->).
    assert (ResolvedModule x ∈ targets tops) as Hx.
    { rewrite Hsplit. apply elem_of_app. right. left. }
    destruct (Hmods x Hx) as [_ Hrx]. rewrite Hrx, Hn in Hex.
    destruct (resolveNodes_before tops [] exps Htops
                ltac:(intros ? ?; rewrite fmap_nil; apply not_elem_of_nil)
                ltac:(done) Eres k1 n k2 ex Hk Hex) as [Hin|Hin].
    { by rewrite fmap_nil in Hin; apply elem_of_nil in Hin. }
    rewrite Hex' in Hin. fold (targets k1) in Hsplit.
    rewrite Hsplit in Htops. apply NoDup_app in Htops as (_ & Hdisj & _).
    by apply Hdisj.
  - unfold targets. rewrite Hperm. done.
Qed.

Lemma run_definedEntitiesOf `{CompilerContext} `{HashOrder} h ms l h' m :
  run h ms = Ok (l, h') -> definedEntitiesOf h' m = definedEntitiesOf h m.
Proof.
  intros Hrun.
  destruct (run_Ok_inv h ms l h' Hrun) as (tops & h1 & _ & Htop & Hres & Hsym & _).
  assert (NoDup (targets tops)) as Htops.
  { unfold targets. rewrite (topsort_Permutation _ _ (buildGraph_NoDup h ms) Htop).
    apply buildGraph_NoDup. }
  destruct (resolveExports_lookup tops h h1 m Htops Hres) as (_ & _ & He1 & _).
  destruct (resolveExportedSymbols_lookup _ h1 h' m Hsym) as (_ & _ & He2 & _).
  unfold definedEntitiesOf, getBindings.
  destruct (h' !! m), (h1 !! m), (h !! m); simplify_eq/=; congruence.
Qed.

(** X16.  What the exported symbols denote, exactly: after a run, in the table of
    an input module [m] the name [s] has the resolution [r] exactly when
    - [m] defines an entity named [s] that can be exported, and [r] is that
      entity in [m]; or
    - the resolved exports of [m] hold a record with the alias [s], the
      target [r] in another module, and the name of that module as its
      only symbol; or
    - the resolved exports of [m] hold a record that lists [s], and [s] has
      the resolution [r] in the exported symbols of the record's target. *)
Theorem exported_symbols_sources `{CompilerContext} `{HashOrder}
    (h : Heap) (modules : list Module) (l : list Module) (h' : Heap)
    (m : Module) (s : string) (r : ImportTarget) :
  run h modules = Ok (l, h') -> m ∈ modules ->
  (denotes (exportedSymbolsOf h' m) s r <->
   (exists e, e ∈ definedEntitiesOf h m /\ canExport e = true /\ ename e = s /\
              r = resolvedIn e m) \/
   (exists ex, ex ∈ resolvedExportsOf h' m /\ exportedAs ex = Some s /\
               target_module (target ex) <> m /\
               symbols ex = [getName (target_module (target ex))] /\
               r = target ex) \/
   (exists ex, ex ∈ resolvedExportsOf h' m /\ s ∈ symbols ex /\
               denotes (targetSymbols h' (target ex)) s r)).
Proof.
  intros Hrun Hm.
  assert (resolveModuleSymbols h' m = Ok h') as Hfix.
  { apply (run_symbols_settled h modules l h' m Hrun). apply graph_module. by left. }
  rewrite (resolveModuleSymbols_denotes h' m h' s r Hfix).
  by rewrite (run_definedEntitiesOf h modules l h' m Hrun).
Qed.

Lemma resolveModuleSymbols_table `{CompilerContext} `{HashOrder} h m h1 :
  resolveModuleSymbols h m = Ok h1 ->
  exists all,
    exportedSymbolsOf h1 m
    = (fun grp : string * list (string * list ImportTarget) =>
         (grp.1, distinct (grp.2 ≫= snd))) <$> groupBy fst all.
Proof.
  unfold resolveModuleSymbols, exportedSymbolsOf, getBindings.
  destruct (h !! m) as [b|] eqn:Eb; [|done].
  destruct (reExportedSymbols h (resolvedExports b)) as [re| |] eqn:Ere;
    cbn [bind]; [|done..].
  intros [= <-]. rewrite lookup_insert_eq. cbn [from_option setExportedSymbols
    exportedSymbols]. eauto.
Qed.

(** X17.  The shape of the exported symbols: after a run, the table of an input
    module lists every name once, and no resolution twice under one name. *)
Theorem exported_symbols_distinct `{CompilerContext} `{HashOrder}
    (h : Heap) (modules : list Module) (l : list Module) (h' : Heap) (m : Module) :
  run h modules = Ok (l, h') -> m ∈ modules ->
  NoDup (exportedSymbolsOf h' m).*1 /\
  Forall (fun entry => NoDup entry.2) (exportedSymbolsOf h' m).
Proof.
  intros Hrun Hm.
  assert (resolveModuleSymbols h' m = Ok h') as Hfix.
  { apply (run_symbols_settled h modules l h' m Hrun). apply graph_module. by left. }
  destruct (resolveModuleSymbols_table h' m h' Hfix) as [all ->]. split.
  - rewrite <-list_fmap_compose.
    rewrite (list_fmap_ext _ fst (groupBy fst all)) by done.
    apply NoDup_groupBy_keys.
  - apply Forall_fmap, Forall_forall. intros grp _. cbn. apply NoDup_distinct.
Qed.

(** *** Running twice *)

Lemma buildNodes_ext h h2 ms :
  (forall m, declaredExports h2 m = declaredExports h m) ->
  buildNodes h2 ms = buildNodes h ms.
Proof.
  intros Hsame. unfold buildNodes. generalize (initialNodes ms).
  induction ms as [|m ms IH]; intros g; cbn [foldl]; [done|].
  rewrite IH. f_equal. unfold buildModule. by rewrite Hsame.
Qed.

Lemma storeExports_same entries h :
  (forall m exs, (ResolvedModule m, exs) ∈ entries ->
     exists b, h !! m = Some b /\ resolvedExports b = exs) ->
  storeExports entries h = Ok h.
Proof.
  induction entries as [|[t exs] rest IH]; intros Hall; [done|].
  cbn [storeExports].
  assert (storeExports rest h = Ok h) as Hrest.
  { apply IH. intros m exs' Hin. apply Hall. by right. }
  destruct t as [m| | |]; try done.
  destruct (Hall m exs) as (b & Hb & Hexs); [left|].
  unfold getBindings. rewrite Hb.
  assert (setResolvedExports b exs = b) as -> by (destruct b; cbn in *; by subst).
  by rewrite insert_id.
Qed.

Lemma resolveExportedSymbols_same `{CompilerContext} `{HashOrder} ms h :
  (forall m, m ∈ ms -> resolveModuleSymbols h m = Ok h) ->
  resolveExportedSymbols ms h = Ok h.
Proof.
  induction ms as [|m ms IH]; intros Hall; [done|].
  cbn [resolveExportedSymbols]. rewrite Hall by left. cbn [bind].
  apply IH. intros m' Hm'. apply Hall. by right.
Qed.

(** X18.  Running [run] again on the heap it left behind changes nothing: the
    second run returns the same module list and leaves the heap as it
    found it. *)
Theorem run_idempotent `{CompilerContext} `{HashOrder}
    (h : Heap) (modules : list Module) (l : list Module) (h' : Heap) :
  run h modules = Ok (l, h') -> run h' modules = Ok (l, h').
Proof.
  intros Hrun.
  destruct (run_Ok_inv h modules l h' Hrun)
    as (tops & h1 & Hcyc & Htop & Hres & Hsym & ->).
  pose proof (topsort_Permutation _ _ (buildGraph_NoDup h modules) Htop) as Hperm.
  assert (NoDup (targets tops)) as Htops.
  { unfold targets. rewrite Hperm. apply buildGraph_NoDup. }
  assert (forall m, declaredExports h' m = declaredExports h m) as Hdecl.
  { intros m.
    destruct (resolveExports_lookup tops h h1 m Htops Hres) as (_ & Hd1 & _ & _).
    destruct (resolveExportedSymbols_lookup _ h1 h' m Hsym) as (_ & Hd2 & _ & _).
    unfold declaredExports, getBindings.
    destruct (h' !! m), (h1 !! m), (h !! m); simplify_eq/=; congruence. }
  assert (buildGraph h' modules = buildGraph h modules) as Hgraph.
  { unfold buildGraph. by rewrite (buildNodes_ext h h' modules Hdecl). }
  unfold run. rewrite Hgraph, Hcyc. cbn [bind]. rewrite Htop. cbn [bind].
  assert (resolveExports tops h' = Ok h') as ->.
  { destruct (resolveExports_heap tops h h1 Htops Hres)
      as (exps & Eres & _ & Hkeys & Hmods & _).
    unfold resolveExports. rewrite Eres. cbn [bind].
    apply storeExports_same. intros m exs Hin. rewrite iterate_perm in Hin.
    assert (ResolvedModule m ∈ targets tops) as Hm.
    { apply Hkeys. by apply (list_elem_of_fmap_2 fst) in Hin. }
    destruct (Hmods m Hm) as [Hsome Hrm].
    pose proof (resolveNodes_NoDup tops [] exps (NoDup_nil_2) Eres) as Hexps.
    apply (alookup_NoDup _ _ _ Hexps) in Hin.
    pose proof (sameExports_resolvedExportsOf h1 h' m
                  (resolveExportedSymbols_sameExports _ _ _ Hsym)) as Hr.
    rewrite Hrm in Hr. unfold resolvedIn_map in Hr. rewrite Hin in Hr. cbn in Hr.
    unfold resolvedExportsOf, getBindings in Hr.
    destruct (h' !! m) as [b|] eqn:Eb; [by exists b|].
    exfalso.
    destruct (resolveExports_lookup tops h h1 m Htops Hres) as (_ & Hd1 & _ & _).
    destruct (resolveExportedSymbols_lookup _ h1 h' m Hsym) as (_ & Hd2 & _ & _).
    rewrite Eb in Hd2. destruct Hsome as [b0 Hb0]. rewrite Hb0 in Hd1.
    destruct (h1 !! m); by simplify_eq/=. }
  cbn [bind].
  rewrite resolveExportedSymbols_same; [done|].
  intros m Hm%elem_of_moduleTargets.
  apply (run_symbols_settled h modules _ h' m Hrun).
  fold (targets tops) in Hm. unfold targets in *. by rewrite <-Hperm.
Qed.

Example library_run :
  orderAfter (H := libraryContext) (H0 := insertion_order) library [A; B; C; P]
    = [A; P; B; C] /\
  exportedSymbolsOf
    (heapAfter (H := libraryContext) (H0 := insertion_order) library [A; B; C; P]) C
    = [("f", [ResolvedModuleMethod B "f"]); ("T", [ResolvedType A "T"])] /\
  exportedSymbolsOf
    (heapAfter (H := libraryContext) (H0 := insertion_order) library [A; B; C; P]) P
    = [("AA", [ResolvedModule A])].
Proof. vm_compute. done. Qed.

Lemma exported_symbols_sources_witness :
  denotes (exportedSymbolsOf
             (heapAfter (H := libraryContext) (H0 := insertion_order)
                library [A; B; C; P]) B)
          "X" (ResolvedConstructor A "T" "X") <->
  (exists e, e ∈ definedEntitiesOf library B /\ canExport e = true /\
             ename e = "X" /\
             ResolvedConstructor A "T" "X" = resolvedIn e B) \/
  (exists ex,
     ex ∈ resolvedExportsOf
            (heapAfter (H := libraryContext) (H0 := insertion_order)
               library [A; B; C; P]) B /\
     exportedAs ex = Some "X" /\
     target_module (target ex) <> B /\
     symbols ex = [getName (CompilerContext := libraryContext)
                     (target_module (target ex))] /\
     ResolvedConstructor A "T" "X" = target ex) \/
  (exists ex,
     ex ∈ resolvedExportsOf
            (heapAfter (H := libraryContext) (H0 := insertion_order)
               library [A; B; C; P]) B /\
     "X" ∈ symbols ex /\
     denotes (targetSymbols (H := libraryContext)
                (heapAfter (H := libraryContext) (H0 := insertion_order)
                   library [A; B; C; P]) (target ex))
             "X" (ResolvedConstructor A "T" "X")).
Proof.
  apply (@exported_symbols_sources libraryContext insertion_order library
           [A; B; C; P]
           (orderAfter (H := libraryContext) (H0 := insertion_order)
              library [A; B; C; P])).
  - vm_compute. reflexivity.
  - by apply (bool_decide_unpack _).
Defined.

Lemma exported_symbols_distinct_witness :
  NoDup (exportedSymbolsOf
           (heapAfter (H := libraryContext) (H0 := insertion_order)
              library [A; B; C; P]) C).*1 /\
  Forall (fun entry => NoDup entry.2)
    (exportedSymbolsOf
       (heapAfter (H := libraryContext) (H0 := insertion_order)
          library [A; B; C; P]) C).
Proof.
  apply (@exported_symbols_distinct libraryContext insertion_order library
           [A; B; C; P]
           (orderAfter (H := libraryContext) (H0 := insertion_order)
              library [A; B; C; P])).
  - vm_compute. reflexivity.
  - by apply (bool_decide_unpack _).
Defined.

Lemma run_idempotent_witness :
  run (H := libraryContext) (H0 := insertion_order)
    (heapAfter (H := libraryContext) (H0 := insertion_order) library [A; B; C; P])
    [A; B; C; P]
  = Ok (orderAfter (H := libraryContext) (H0 := insertion_order)
          library [A; B; C; P],
        heapAfter (H := libraryContext) (H0 := insertion_order)
          library [A; B; C; P]).
Proof.
  apply (@run_idempotent libraryContext insertion_order library [A; B; C; P]).
  vm_compute. reflexivity.
Defined.

(** *** Exported modules outside the input *)

(** X15.  A module that is exported by an input module but is not itself in the
    input: the run reads none of its export declarations, sets its resolved
    exports to the empty list, whatever they were, and computes its exported
    symbols from its own entities alone. *)
Theorem run_resets_exported_modules `{CompilerContext} `{HashOrder}
    (h : Heap) (modules : list Module) (l : list Module) (h' : Heap)
    (m : Module) (s : string) (r : ImportTarget) :
  run h modules = Ok (l, h') ->
  m ∉ modules ->
  (exists m' d, m' ∈ modules /\ d ∈ declaredExports h m' /\
                target d = ResolvedModule m) ->
  resolvedExportsOf h' m = [] /\
  (denotes (exportedSymbolsOf h' m) s r <->
   exists e, e ∈ definedEntitiesOf h m /\ canExport e = true /\ ename e = s /\
             r = resolvedIn e m).
Proof.
  intros Hrun Hnin Hexp.
  assert (ResolvedModule m ∈ targets (buildGraph h modules)) as Hm.
  { apply graph_module. by right. }
  destruct (run_Ok_inv h modules l h' Hrun)
    as (tops & h1 & _ & Htop & Hres & Hsym & _).
  pose proof (topsort_Permutation _ _ (buildGraph_NoDup h modules) Htop) as Hperm.
  assert (NoDup (targets tops)) as Htops.
  { unfold targets. rewrite Hperm. apply buildGraph_NoDup. }
  destruct (resolveExports_heap tops h h1 Htops Hres)
    as (exps & Eres & Hnodes & _ & Hmods & _).
  assert (resolvedExportsOf h' m = []) as Hempty.
  { rewrite (sameExports_resolvedExportsOf h1 h' m
               (resolveExportedSymbols_sameExports _ _ _ Hsym)).
    assert (ResolvedModule m ∈ targets tops) as Hmt.
    { unfold targets in *. by rewrite Hperm. }
    destruct (Hmods m Hmt) as [_ ->].
    assert (nodeOf (buildGraph h modules) (ResolvedModule m) ∈ tops) as Hn.
    { rewrite Hperm. by apply nodeOf_elem. }
    specialize (Hnodes _ Hn). rewrite ntarget_nodeOf in Hnodes.
    unfold resolvedIn_map. rewrite Hnodes. cbn [default].
    unfold resolvedRecords. rewrite explicitlyExported_buildGraph.
    rewrite decide_False.
    - apply unified_nil.
    - intros (m' & [= <-] & Hm')%list_elem_of_fmap. done. }
  split; [done|].
  rewrite (resolveModuleSymbols_denotes h' m h' s r
             (run_symbols_settled h modules l h' m Hrun Hm)).
  rewrite (run_definedEntitiesOf h modules l h' m Hrun), Hempty.
  split; [|by left].
  intros [?|[(ex & Hex%elem_of_nil & _)|(ex & Hex%elem_of_nil & _)]]; done.
Qed.

Lemma run_resets_exported_modules_witness :
  resolvedExportsOf
    (heapAfter (H := libraryContext) (H0 := insertion_order) library [B]) A = [] /\
  (denotes (exportedSymbolsOf
              (heapAfter (H := libraryContext) (H0 := insertion_order) library [B]) A)
           "T" (ResolvedType A "T") <->
   exists e, e ∈ definedEntitiesOf library A /\ canExport e = true /\
             ename e = "T" /\ ResolvedType A "T" = resolvedIn e A).
Proof.
  apply (@run_resets_exported_modules libraryContext insertion_order library [B]
           (orderAfter (H := libraryContext) (H0 := insertion_order) library [B])).
  - vm_compute. reflexivity.
  - by apply (bool_decide_unpack _).
  - exists B, (mkExportedModule (ResolvedModule A) None ["T"; "X"]).
    split_and!; [left| |reflexivity]. by apply (bool_decide_unpack _).
Defined.
